(** * Systolic-array lowerings of daceml's FPGA operator implementations

    A shallow embedding of the sizing code and of the tasklets generated by
    [daceml/onnx/op_implementations/fpga_implementations.py]:

    - the tiling planner of [FPGAIm2ColConv], [FPGAIm2ColConv_tiled],
      [FPGAGemm] and [FPGAMatMul] (PE count, tile size, safe delay, the
      construction-time checks);
    - the feeders, the compute-and-drain tasklet and the output collector.

    Shapes and loop indices are Python integers, modelled as [Z].  Tensor
    elements are floating point in the source; the tasklets only add and
    multiply them, so they are kept abstract through the class [Arith]. *)

From Stdlib Require Import ZArith List Lia Bool.
Import ListNotations.
Open Scope Z_scope.

(** ** Shared vocabulary *)

(** Exceptions raised while a lowering is constructed. *)
Inductive error : Type :=
| NotImplementedError_weights_vectorized
| SyntaxError_matrix_sizes
| NotImplementedError_vector_widths
| NotImplementedError_tile_not_multiple_of_width
| ValueError_too_many_PEs
| AssertionError.

Inductive result (A : Type) : Type :=
| Ok (a : A)
| Raise (e : error).
Arguments Ok {A} a.
Arguments Raise {A} e.

Definition bind {A B : Type} (r : result A) (k : A -> result B) : result B :=
  match r with
  | Ok a => k a
  | Raise e => Raise e
  end.

Notation "x <- r ;; k" := (bind r (fun x => k))
  (at level 61, r at next level, right associativity).

(** [raise_if c e] is the statement [if c: raise e]. *)
Definition raise_if (c : bool) (e : error) : result unit :=
  if c then Raise e else Ok tt.

(** The lines of standard output that report the number of processing
    elements and a reset of the tile size.  The tiled convolution prints
    further lines (the shapes, the padding, the vector width, the tile
    size and the number of tiles, the input coverage of a tile); they are
    not recorded. *)
Inductive message : Type :=
| Using_PEs (P num_filters : Z)
| Tile_size_reset (tile_size_m veclen new_tile_size_m : Z)
| Expanding_with_PEs (P : Z).

(** Element arithmetic used by the tasklets. *)
Class Arith (V : Type) : Type := {
  vzero : V;
  vadd : V -> V -> V;
  vmul : V -> V -> V
}.

#[export] Instance Arith_Z : Arith Z := {| vzero := 0; vadd := Z.add; vmul := Z.mul |}.

(** [range n] is Python's [range(n)], the index set [0:n] of a map. *)
Definition range (n : Z) : list Z := map Z.of_nat (seq 0 (Z.to_nat n)).

(** [ceiling(a/b)] of the map ranges, for positive [b]. *)
Definition ceiling_div (a b : Z) : Z := - ((- a) / b).

(** Python's [not pe] for [pe] either [None] or an integer. *)
Definition py_not (pe : option Z) : bool :=
  match pe with
  | None => true
  | Some v => v =? 0
  end.

(** The Conv node as both convolution lowerings read it: the shapes of X, W
    and Y, the padding attribute and the vector lengths of the three
    descriptors. *)
Record ConvNode : Type := {
  batch_size : Z;
  num_filters : Z;
  num_channels : Z;
  filter_hx : Z;
  filter_hy : Z;
  input_size_x : Z;
  input_size_y : Z;
  output_size_x : Z;
  output_size_y : Z;
  padding : Z;
  veclen_X : Z;
  veclen_W : Z;
  veclen_Y : Z
}.

(** Every extent and vector length is a positive integer, the padding is
    not negative. *)
Definition well_formed (c : ConvNode) : Prop :=
  1 <= batch_size c /\ 1 <= num_filters c /\ 1 <= num_channels c /\
  1 <= filter_hx c /\ 1 <= filter_hy c /\
  1 <= input_size_x c /\ 1 <= input_size_y c /\
  1 <= output_size_x c /\ 1 <= output_size_y c /\
  0 <= padding c /\
  1 <= veclen_X c /\ 1 <= veclen_W c /\ 1 <= veclen_Y c.

(** The trailing iterators [m_drain], [k_drain] of a pipeline scope. *)
Record drain_iterators : Type := {
  m_drain : Z;
  k_drain : Z
}.

(** The block "adjust draining iterators" that closes every
    compute-and-drain tasklet; [Tw] is the extent of the [m] range without
    the safe delay. *)
Definition adjust_draining_iterators (K Tw L : Z) (drain : bool)
    (d : drain_iterators) : drain_iterators :=
  if negb drain then
    if m_drain d >=? L + Tw - 1 then
      {| m_drain := 0;
         k_drain := if k_drain d >=? K - 1 then 0 else k_drain d + 1 |}
    else {| m_drain := m_drain d + 1; k_drain := k_drain d |}
  else
    if m_drain d >=? Tw - 1 then
      {| m_drain := 0;
         k_drain := if k_drain d >=? K - 1 then 0 else k_drain d + 1 |}
    else {| m_drain := m_drain d + 1; k_drain := k_drain d |}.

(** A pipeline scope as [add_pipeline] receives it: the extents of its
    ranges, outermost first, the size of the drain phase and whether the
    map indices keep advancing during it. *)
Record pipeline_scope : Type := {
  extents : list Z;
  drain_size : Z;
  drain_overlap : bool
}.

(** Number of iterations of the nested ranges. *)
Definition scope_iterations (s : pipeline_scope) : Z :=
  fold_right Z.mul 1 (extents s).

(** Trip count of the single flattened loop that DaCe generates for a
    pipeline scope: the drain phase is appended when it does not
    overlap. *)
Definition loop_bound (s : pipeline_scope) : Z :=
  scope_iterations s + (if drain_overlap s then 0 else drain_size s).

(** The drain condition of the flattened loop at iteration [i]: it holds
    in the iterations appended after the nested ranges are exhausted. *)
Definition drain_condition (s : pipeline_scope) (i : Z) : bool :=
  scope_iterations s <=? i.

(** The trailing iterators at the start of iteration [i] of the flattened
    loop; both start at zero. *)
Fixpoint drain_iterators_at (s : pipeline_scope) (K Tw L : Z) (i : nat)
    : drain_iterators :=
  match i with
  | O => {| m_drain := 0; k_drain := 0 |}
  | S j =>
      adjust_draining_iterators K Tw L (drain_condition s (Z.of_nat j))
        (drain_iterators_at s K Tw L j)
  end.

(** The trailing iterators in closed form: before the drain phase they
    count the iterations in units of [Tw + L], inside it they count the
    drain iterations in units of [Tw]. *)
Definition drain_iterators_closed (s : pipeline_scope) (K Tw L : Z) (i : Z)
    : drain_iterators :=
  if i <? scope_iterations s
  then {| m_drain := i mod (Tw + L); k_drain := (i / (Tw + L)) mod K |}
  else {| m_drain := (i - scope_iterations s) mod Tw;
          k_drain := ((i - scope_iterations s) / Tw) mod K |}.

(** The ranges in which the trailing iterators are expected at the start
    of iteration [i]. *)
Definition iterators_in_range (s : pipeline_scope) (K Tw L : Z) (i : nat) : Prop :=
  let d := drain_iterators_at s K Tw L i in
  0 <= k_drain d <= K - 1 /\
  (if drain_condition s (Z.of_nat i)
   then 0 <= m_drain d <= Tw - 1
   else 0 <= m_drain d <= L + Tw - 1).

(** The two actions of one update of the trailing iterators. *)
Definition counts_up (d d' : drain_iterators) : Prop :=
  m_drain d' = m_drain d + 1 /\ k_drain d' = k_drain d.

Definition wraps (K : Z) (d d' : drain_iterators) : Prop :=
  m_drain d' = 0 /\
  (k_drain d' = k_drain d + 1 \/ (k_drain d = K - 1 /\ k_drain d' = 0)).

Definition exactly_one_action (K : Z) (d d' : drain_iterators) : Prop :=
  (counts_up d d' /\ ~ wraps K d d') \/ (wraps K d d' /\ ~ counts_up d d').

(** All index vectors of a nest of ranges, in the order in which the
    generated loops visit them (the last range runs fastest). *)
Fixpoint loop_nest (exts : list Z) : list (list Z) :=
  match exts with
  | [] => [[]]
  | n :: rest => flat_map (fun i => map (cons i) (loop_nest rest)) (range n)
  end.

(** Map indices and pipeline flags seen by a compute-and-drain tasklet. *)
Record iterators : Type := {
  it_b : Z;
  it_n0 : Z;
  it_tm : Z;
  it_k : Z;
  it_m : Z;
  it_drain : bool;
  it_trail : drain_iterators
}.

(** An address in a four-dimensional tensor. *)
Definition address : Type := (Z * Z * Z * Z)%type.

Definition update {V : Type} (buf : Z -> V) (i : Z) (v : V) : Z -> V :=
  fun j => if j =? i then v else buf j.

(** ** FPGAIm2ColConv: the untiled im2col convolution *)
Module Conv.

Record Plan : Type := {
  P : Z;
  K : Z;
  M : Z;
  L : Z;
  log : list message
}.

(** Sizing at the head of [forward]: [if not pe: P = num_filters], else
    [P = pe] and a line is printed. *)
Definition forward (c : ConvNode) (pe : option Z) : Plan :=
  let K := num_channels c * filter_hx c * filter_hy c in
  let M := output_size_y c * output_size_x c in
  let '(P, log) :=
    match pe with
    | Some v => if py_not pe then (num_filters c, []) else (v, [Expanding_with_PEs v])
    | None => (num_filters c, [])
    end in
  let L := Z.max (11 - M) 0 in
  {| P := P; K := K; M := M; L := L; log := log |}.

(** [offset = 2 * (filter_hx // 2 - padding)]. *)
Definition offset (c : ConvNode) : Z := 2 * (filter_hx c / 2 - padding c).

(** The memlet of [read_X]. *)
Definition im2col_input_memlet (c : ConvNode) (vec_width b cin x hx y0 y1 hy : Z)
    : address :=
  (b, cin, x + hx - padding c, y0 * vec_width + y1 + hy - padding c).

(** The condition of the tasklet [read_X]. *)
Definition read_X_test (c : ConvNode) (vec_width x hx y0 y1 hy : Z) : bool :=
  (x + hx - padding c <? output_size_x c + offset c) &&
  (0 <=? x + hx - padding c) &&
  (y0 * vec_width + y1 + hy - padding c <? output_size_y c * vec_width + offset c) &&
  (0 <=? y0 * vec_width + y1 + hy - padding c).

(** The read that [read_X] issues, if any: [from_memory] is dereferenced
    only in the first branch. *)
Definition read_X_issued (c : ConvNode) (vec_width b cin x hx y0 y1 hy : Z)
    : option address :=
  if read_X_test c vec_width x hx y0 y1 hy
  then Some (im2col_input_memlet c vec_width b cin x hx y0 y1 hy)
  else None.

(** The value [read_X] sends to the kernel. *)
Definition read_X {V : Type} `{Arith V} (c : ConvNode) (X : address -> V)
    (vec_width b cin x hx y0 y1 hy : Z) : V :=
  match read_X_issued c vec_width b cin x hx y0 y1 hy with
  | Some a => X a
  | None => vzero
  end.

(** Whether an address lies inside X; the last axis is counted in
    elements. *)
Definition in_extent_X (c : ConvNode) (a : address) : bool :=
  let '(b, cin, i, j) := a in
  (0 <=? b) && (b <? batch_size c) && (0 <=? cin) && (cin <? num_channels c) &&
  (0 <=? i) && (i <? input_size_x c) &&
  (0 <=? j) && (j <? input_size_y c * veclen_X c).

(** The pipeline scope of [make_compute]; the range of [n0] is written
    [0:num_filters/P]. *)
Definition compute_scope (c : ConvNode) (pl : Plan) : pipeline_scope :=
  {| extents := [batch_size c; num_filters c / P pl; K pl; M pl + L pl];
     drain_size := P pl * M pl;
     drain_overlap := false |}.

(** Outputs of the compute-and-drain tasklet.  [y_out] is a connector that
    only the first branch assigns; [y_pipe_out] is written in the cycles
    that drain and then carries either [y_out] or [forward_in]. *)
Record compute_out (V : Type) : Type := {
  im2col_out : option V;
  y_out : option V;
  y_pipe_out : option (option V);
  trail_out : drain_iterators
}.
Arguments im2col_out {V} _.
Arguments y_out {V} _.
Arguments y_pipe_out {V} _.
Arguments trail_out {V} _.

Definition compute_and_drain {V : Type} `{Arith V} (pl : Plan) (p : Z)
    (it : iterators) (w_in im2col_in y_in forward_in : V) : compute_out V :=
  let drain := it_drain it in
  let computing := (it_m it >=? L pl) && negb drain in
  let y_out :=
    if computing
    then Some (vadd (if it_k it =? 0 then vzero else y_in) (vmul w_in im2col_in))
    else None in
  let im2col_out :=
    if computing && (p <? P pl - 1) then Some im2col_in else None in
  let d := it_trail it in
  let y_pipe_out :=
    if (((0 <? it_b it) || (0 <? it_n0 it)) && (k_drain d <? p) && (m_drain d <? M pl))
       || ((it_k it =? K pl - 1) && (it_m it >=? L pl))
       || (drain && (k_drain d <? p))
    then Some (if (p =? 0) || ((k_drain d =? K pl - 1) && negb drain)
               then y_out else Some forward_in)
    else None in
  {| im2col_out := im2col_out;
     y_out := y_out;
     y_pipe_out := y_pipe_out;
     trail_out := adjust_draining_iterators (K pl) (M pl) (L pl) drain d |}.

End Conv.

(** ** FPGAIm2ColConv_tiled: the tiled im2col convolution *)
Module ConvTiled.

(** The default of the keyword argument [tiles]. *)
Definition tiles_default : Z := 256.

Record Plan : Type := {
  P : Z;
  T : Z;
  L : Z;
  N : Z;
  K : Z;
  M : Z;
  log : list message
}.

(** "Set number of processing elements", with the clamp that follows it. *)
Definition num_PEs (c : ConvNode) (pe : option Z) : Z :=
  let P := match pe with
           | Some v => if py_not pe then num_filters c else v
           | None => num_filters c
           end in
  if P >? filter_hx c * filter_hy c * num_channels c
  then Z.max (filter_hx c * filter_hy c * num_channels c - 1) 1
  else P.

(** "Set tile size": the tile size and the line printed when it is reset. *)
Definition tile_size (c : ConvNode) (tiles : Z) : Z * list message :=
  let M := output_size_y c * veclen_Y c * output_size_x c in
  let tile_size_m := Z.min tiles M in
  let tile_size_m :=
    if veclen_Y c >? tile_size_m then veclen_Y c else tile_size_m in
  if negb (tile_size_m mod veclen_Y c =? 0)
  then (Z.lcm tile_size_m (veclen_Y c),
        [Tile_size_reset tile_size_m (veclen_Y c) (Z.lcm tile_size_m (veclen_Y c))])
  else (tile_size_m, []).

(** The sizing part of [forward], up to the last check before the graph is
    built.  [tiles] and [pe] are the keyword arguments; [None] stands for
    an argument the caller left out.  The source divides [T] by the vector
    width with Python's true division; the tile size is a multiple of the
    vector width (lemma [tile_size_multiple_of_veclen] below), so the
    quotient is the integer written here. *)
Definition forward (c : ConvNode) (tiles pe : option Z) : result Plan :=
  let tiles := match tiles with Some t => t | None => tiles_default end in
  let K := num_channels c * filter_hx c * filter_hy c in
  let M := output_size_y c * veclen_Y c * output_size_x c in
  let P := num_PEs c pe in
  let log1 := [Using_PEs P (num_filters c)] in
  let '(tile_size_m, log2) := tile_size c tiles in
  let shape_a := (num_filters c, filter_hx c * filter_hy c * num_channels c) in
  let shape_b := (filter_hx c * filter_hy c * num_channels c,
                  output_size_x c * output_size_y c * veclen_Y c) in
  _ <- raise_if (veclen_W c >? 1) NotImplementedError_weights_vectorized ;;
  _ <- raise_if (negb (snd shape_a =? fst shape_b)) SyntaxError_matrix_sizes ;;
  let vec_width := veclen_Y c in
  let vec_width_in := veclen_X c in
  _ <- raise_if (negb (vec_width =? vec_width_in)) NotImplementedError_vector_widths ;;
  let N := fst shape_a in
  _ <- raise_if (negb (K =? snd shape_a)) AssertionError ;;
  _ <- raise_if (negb (M =? snd shape_b)) AssertionError ;;
  let T := tile_size_m in
  _ <- raise_if (negb (T mod output_size_x c =? 0))
         NotImplementedError_tile_not_multiple_of_width ;;
  let K_constant := filter_hx c * filter_hy c * num_channels c in
  _ <- raise_if (negb (K_constant =? K)) AssertionError ;;
  let L := Z.max (16 - T / vec_width) 0 in
  _ <- raise_if (P >? K_constant) ValueError_too_many_PEs ;;
  Ok {| P := P; T := T; L := L; N := N; K := K; M := M; log := log1 ++ log2 |}.

(** The extent [T / vec_width] of the tile in vector units. *)
Definition Tv (c : ConvNode) (pl : Plan) : Z := T pl / veclen_Y c.

(** *** make_read_A *)

(** The memlet [W[filter, in_channel, hy, hx]] of [read_A]. *)
Definition read_A_access (c : ConvNode) (pl : Plan) (n0 k n1 : Z) : address :=
  (n0 * P pl + n1,
   k / (filter_hx c * filter_hy c),
   (k mod (filter_hx c * filter_hy c)) / filter_hx c,
   (k mod (filter_hx c * filter_hy c)) mod filter_hx c).

(** The tasklet [read_A]: dummy data for the rows past [N]. *)
Definition read_A_tasklet {V : Type} `{Arith V} (pl : Plan) (n0 n1 : Z)
    (from_memory : V) : V :=
  if n0 * P pl + n1 <? N pl then from_memory else vzero.

(** One write to [A_pipe]: the channel index and the value. *)
Definition read_A_emit {V : Type} `{Arith V} (c : ConvNode) (pl : Plan)
    (W : address -> V) (n0 k n1 : Z) : Z * V :=
  (P pl - n1 - 1, read_A_tasklet pl n0 n1 (W (read_A_access c pl n0 k n1))).

(** What [read_A] writes for one output-column tile [tm] of one row
    block: the two innermost ranges [k] and [n1]. *)
Definition read_A_tile {V : Type} `{Arith V} (c : ConvNode) (pl : Plan)
    (W : address -> V) (b n0 tm : Z) : list (Z * V) :=
  flat_map (fun k =>
    map (fun n1 => read_A_emit c pl W n0 k n1) (range (P pl)))
    (range (K pl)).

(** Everything [read_A] writes, in the order of its map
    [b, n0, tm, k, n1]. *)
Definition read_A {V : Type} `{Arith V} (c : ConvNode) (pl : Plan)
    (W : address -> V) : list (Z * V) :=
  flat_map (fun b =>
    flat_map (fun n0 =>
      flat_map (fun tm => read_A_tile c pl W b n0 tm)
        (range (ceiling_div (M pl) (T pl))))
      (range (ceiling_div (N pl) (P pl))))
    (range (batch_size c)).

(** *** make_read_B *)

(** [offset = 2 * (filter_hx // 2 - padding)]. *)
Definition offset (c : ConvNode) : Z := 2 * (filter_hx c / 2 - padding c).

Definition channel (c : ConvNode) (k : Z) : Z := k / (filter_hx c * filter_hy c).

(** [matrix_col = tm*T + m0*vec_width]. *)
Definition matrix_col (c : ConvNode) (pl : Plan) (tm m0 : Z) : Z :=
  tm * T pl + m0 * veclen_Y c.

Definition out_y (c : ConvNode) (pl : Plan) (tm m0 : Z) : Z :=
  matrix_col c pl tm m0 / output_size_x c.

Definition out_x (c : ConvNode) (pl : Plan) (tm m0 : Z) : Z :=
  matrix_col c pl tm m0 mod output_size_x c.

Definition filter_off_y (c : ConvNode) (k : Z) : Z :=
  (k mod (filter_hx c * filter_hy c)) / filter_hx c.

Definition filter_off_x (c : ConvNode) (k : Z) : Z :=
  (k mod (filter_hx c * filter_hy c)) mod filter_hx c.

Definition access_y (c : ConvNode) (pl : Plan) (tm k m0 : Z) : Z :=
  out_y c pl tm m0 + filter_off_y c k.

Definition access_x (c : ConvNode) (pl : Plan) (tm k m0 : Z) : Z :=
  out_x c pl tm m0 + filter_off_x c k.

(** The two memlets through which [read_global] reads X. *)
Definition access_vec (c : ConvNode) (pl : Plan) (b tm k m0 : Z) : address :=
  (b, channel c k, access_y c pl tm k m0, access_x c pl tm k m0 / veclen_X c).

Definition access_vec_next (c : ConvNode) (pl : Plan) (b tm k m0 : Z) : address :=
  (b, channel c k, access_y c pl tm k m0, access_x c pl tm k m0 / veclen_X c + 1).

Definition tile_input_coverage (c : ConvNode) (pl : Plan) : Z :=
  (T pl / output_size_x c) * (input_size_x c * veclen_X c).

Definition store_local_index (c : ConvNode) (pl : Plan) (tm k m0 : Z) : Z :=
  (access_y c pl tm k m0 * (input_size_x c * veclen_X c) + access_x c pl tm k m0)
  - tile_input_coverage c pl * tm.

(** "Padding out of image test": both strings are built by [make_read_B],
    and no tasklet or memlet of it contains them. *)
Definition padding_test_x (c : ConvNode) (pl : Plan) (tm k m0 : Z) : bool :=
  (access_x c pl tm k m0 - padding c <? output_size_x c + offset c) &&
  (0 <=? access_x c pl tm k m0 - padding c).

Definition padding_test_y (c : ConvNode) (pl : Plan) (tm k m0 : Z) : bool :=
  (access_y c pl tm k m0 - padding c <? output_size_y c * veclen_Y c + offset c) &&
  (0 <=? access_y c pl tm k m0 - padding c).

(** The tasklet [read_global]: the address it reads, if it reads. *)
Definition read_global (c : ConvNode) (pl : Plan) (b tm k m0 : Z) : option address :=
  if tm * T pl + m0 * veclen_Y c <? M pl then
    if store_local_index c pl tm k m0 mod veclen_X c =? 0
    then Some (access_vec c pl b tm k m0)
    else Some (access_vec_next c pl b tm k m0)
  else None.

(** The tasklet [write_pipe] for lane [m1] of the outgoing vector. *)
Definition write_pipe {V : Type} (c : ConvNode) (pl : Plan) (tm k m0 m1 : Z)
    (buf vector vector_unaligned dummy_value : V) : V :=
  if tm * T pl + m0 * veclen_Y c <? M pl then
    let alignment := store_local_index c pl tm k m0 mod veclen_X c in
    if alignment =? 0 then vector
    else if m1 >? veclen_X c - alignment then vector_unaligned else buf
  else dummy_value.

(** Lane [m1] of the vector [read_B] sends for the indices
    [(b, tm, k, m0)].  X maps an address to the lanes of the vector stored
    there; [vec_buf_B] holds the previous contents of the register and
    [img_buffer] the contents of the row cache. *)
Definition read_B_lane {V : Type} `{Arith V} (c : ConvNode) (pl : Plan)
    (X : address -> Z -> V) (vec_buf_B img_buffer : Z -> V)
    (b tm k m0 m1 : Z) : V :=
  let vec_buf_B :=
    match read_global c pl b tm k m0 with
    | Some a => X a
    | None => vec_buf_B
    end in
  let sli := store_local_index c pl tm k m0 in
  write_pipe c pl tm k m0 m1
    (img_buffer (sli + m1))
    (vec_buf_B m1)
    (vec_buf_B ((sli + m1) mod veclen_X c))
    vzero.

(** Whether an address lies inside X, whose shape is
    [batch, channels, input_size_y, input_size_x]. *)
Definition in_extent_X (c : ConvNode) (a : address) : bool :=
  let '(b, cin, i, j) := a in
  (0 <=? b) && (b <? batch_size c) && (0 <=? cin) && (cin <? num_channels c) &&
  (0 <=? i) && (i <? input_size_y c) &&
  (0 <=? j) && (j <? input_size_x c).

(** The zero-padded image: the element of X at row [i] and column [j] of
    the padded frame, zero outside the stored extent. *)
Definition padded_reference {V : Type} `{Arith V} (c : ConvNode)
    (X : address -> Z -> V) (b cin i j : Z) : V :=
  if in_extent_X c (b, cin, i - padding c, j - padding c)
  then X (b, cin, i - padding c, j - padding c) 0
  else vzero.

(** *** make_write_C *)

(** The guard of the tasklet [write_C]. *)
Definition write_C_guard (c : ConvNode) (pl : Plan) (n0 tm n1 m : Z) : bool :=
  (tm * T pl + m * veclen_Y c <? M pl) && (n0 * P pl + n1 <? N pl).

(** The memlet [Y[b, out_filter, out_y, out_x]] of [write_C]. *)
Definition write_C_access (c : ConvNode) (pl : Plan) (b n0 tm n1 m : Z) : address :=
  let matrix_col := tm * T pl + m * veclen_Y c in
  (b, n0 * P pl + n1,
   matrix_col / output_size_x c,
   (matrix_col mod output_size_x c) / veclen_Y c).

(** One iteration of [write_C]: the write to Y, if one is issued.  [B] is
    the bias operand when the node has one. *)
Definition write_C {V : Type} `{Arith V} (c : ConvNode) (pl : Plan)
    (B : option (Z -> V)) (b n0 tm n1 m : Z) (from_kernel : V)
    : option (address * V) :=
  if write_C_guard c pl n0 tm n1 m then
    Some (write_C_access c pl b n0 tm n1 m,
          match B with
          | Some bias => vadd from_kernel (bias (n0 * P pl + n1))
          | None => from_kernel
          end)
  else None.

(** *** make_compute *)

Definition compute_scope (c : ConvNode) (pl : Plan) : pipeline_scope :=
  {| extents := [batch_size c; ceiling_div (N pl) (P pl);
                 ceiling_div (M pl) (T pl); K pl; Tv c pl + L pl];
     drain_size := P pl * Tv c pl;
     drain_overlap := false |}.

Record compute_out (V : Type) : Type := {
  b_out : option V;
  c_out : option V;
  c_pipe_out : option V;
  trail_out : drain_iterators
}.
Arguments b_out {V} _.
Arguments c_out {V} _.
Arguments c_pipe_out {V} _.
Arguments trail_out {V} _.

(** The local variable [result] of the tasklet. *)
Definition result_of {V : Type} `{Arith V} (pl : Plan) (it : iterators)
    (a_in b_in c_in c_init_data : V) : V :=
  if (it_m it >=? L pl) && negb (it_drain it)
  then vadd (if it_k it =? 0 then c_init_data else c_in) (vmul a_in b_in)
  else c_in.

(** The condition under which the tasklet writes [c_pipe_out]. *)
Definition drains (c : ConvNode) (pl : Plan) (p : Z) (it : iterators) : bool :=
  let d := it_trail it in
  (((0 <? it_b it) || (0 <? it_n0 it) || (0 <? it_tm it))
     && (k_drain d <? p) && (m_drain d <? Tv c pl))
  || ((it_k it =? K pl - 1) && (it_m it >=? L pl))
  || (it_drain it && (k_drain d <? p)).

(** The tasklet [compute_and_drain] of the PE at chain position [p]. *)
Definition compute_and_drain {V : Type} `{Arith V} (c : ConvNode) (pl : Plan)
    (p : Z) (it : iterators) (a_in b_in c_in forward_in c_init_data : V)
    : compute_out V :=
  let drain := it_drain it in
  let computing := (it_m it >=? L pl) && negb drain in
  let result := result_of pl it a_in b_in c_in c_init_data in
  let d := it_trail it in
  {| b_out := if computing && (p <? P pl - 1) then Some b_in else None;
     c_out := if computing then Some result else None;
     c_pipe_out :=
       if drains c pl p it
       then Some (if (p =? 0) || ((k_drain d =? K pl - 1) && negb drain)
                  then result else forward_in)
       else None;
     trail_out := adjust_draining_iterators (K pl) (Tv c pl) (L pl) drain d |}.

(** The state of one PE: its two registers and its partial sums. *)
Record PE (V : Type) : Type := {
  A_reg : V;
  B_reg : V;
  C_buffer : Z -> V
}.
Arguments A_reg {V} _.
Arguments B_reg {V} _.
Arguments C_buffer {V} _.

(** One cycle of the PE at position [p]: the tasklets [buffer_a] and
    [buffer_b] update the registers from the heads of [A_pipe[p]] and
    [B_pipe[p]], [compute_and_drain] reads them together with
    [C_buffer[m - L]], [C_pipe[p - 1]] and [C_init], and [c_out] is stored
    back to [C_buffer[m - L]]. *)
Definition pe_cycle {V : Type} `{Arith V} (c : ConvNode) (pl : Plan) (p : Z)
    (it : iterators) (a_pipe b_pipe c_pipe : V) (st : PE V)
    : PE V * compute_out V :=
  let drain := it_drain it in
  let a_reg := if (it_m it =? 0) && negb drain then a_pipe else A_reg st in
  let b_reg := if (it_m it >=? L pl) && negb drain then b_pipe else B_reg st in
  let out := compute_and_drain c pl p it a_reg b_reg
               (C_buffer st (it_m it - L pl)) c_pipe vzero in
  ({| A_reg := a_reg;
      B_reg := b_reg;
      C_buffer := match c_out out with
                  | Some v => update (C_buffer st) (it_m it - L pl) v
                  | None => C_buffer st
                  end |},
   out).

End ConvTiled.

(** ** FPGAGemm *)
Module Gemm.

Record Plan : Type := {
  P : Z;
  T : Z;
  L : Z
}.

(** "GEMM Parameters" of [forward]; [N], [K] are the shape of A and [M_Y]
    the second extent of Y. *)
Definition forward (N K M_Y : Z) : Plan :=
  {| P := Z.gcd N 16; T := M_Y; L := Z.max (10 - M_Y) 0 |}.

End Gemm.

(** ** FPGAMatMul *)
Module MatMul.

Record Plan : Type := {
  P : Z;
  T : Z;
  L : Z
}.

(** The sizing of the branch [input0_dim == 3 and input1_dim == 3] (batched
    product). *)
Definition forward_batched (BATCH N K M : Z) : result Plan :=
  let T := M in
  let L := Z.max (11 - T) 0 in
  let P := Z.gcd N 16 in
  let P := Z.gcd K P in
  _ <- raise_if (negb (K <=? P * T)) AssertionError ;;
  Ok {| P := P; T := T; L := L |}.

(** The sizing of the branch [input0_dim == 3 and input1_dim == 2], which
    collates the first two axes of A. *)
Definition forward_collated (BATCH N K M : Z) : result Plan :=
  let T := M in
  let L := Z.max (11 - T) 0 in
  let P := Z.gcd (N * BATCH) 16 in
  let P := Z.gcd K P in
  _ <- raise_if (negb (K <=? P * T)) AssertionError ;;
  Ok {| P := P; T := T; L := L |}.

(** The pipeline scopes of the two branches. *)
Definition compute_scope_batched (BATCH N K M : Z) (pl : Plan) : pipeline_scope :=
  {| extents := [BATCH; N / P pl; M / T pl; K; T pl + L pl];
     drain_size := P pl * T pl;
     drain_overlap := false |}.

Definition compute_scope_collated (BATCH N K M : Z) (pl : Plan) : pipeline_scope :=
  {| extents := [(BATCH * N) / P pl; M / T pl; K; T pl + L pl];
     drain_size := P pl * T pl;
     drain_overlap := false |}.

(** The first test of the drain condition, on the outer map indices: in
    the batched branch [b > 0 or n0 > 0 or tm > 0], in the collated branch
    [(b_n*P)/N > 0 or (b_n*P)%N > 0 or tm > 0].  The quotient is taken as
    the integer quotient; for indices that are not negative the first two
    tests together hold exactly when [b_n > 0], whichever quotient is
    meant. *)
Definition later_tile_batched (b n0 tm : Z) : bool :=
  (0 <? b) || (0 <? n0) || (0 <? tm).

Definition later_tile_collated (N : Z) (pl : Plan) (b_n tm : Z) : bool :=
  (0 <? (b_n * P pl) / N) || (0 <? (b_n * P pl) mod N) || (0 <? tm).

(** Outputs of the tasklet [compute_and_drain]: as in the untiled
    convolution, [y_out] is assigned only in the first branch, and
    [y_pipe_out] carries either [y_out] or [forward_in]. *)
Record compute_out (V : Type) : Type := {
  b_out : option V;
  y_out : option V;
  y_pipe_out : option (option V);
  trail_out : drain_iterators
}.
Arguments b_out {V} _.
Arguments y_out {V} _.
Arguments y_pipe_out {V} _.
Arguments trail_out {V} _.

(** The tasklet [compute_and_drain] of the PE at chain position [p].  Its
    text is the same in both branches but for the test [later_tile];
    [k], [m] are the two inner map indices, [d] the trailing iterators. *)
Definition compute_and_drain {V : Type} `{Arith V} (pl : Plan) (K p : Z)
    (later_tile : bool) (k m : Z) (drain : bool) (d : drain_iterators)
    (a_in b_in y_in forward_in : V) : compute_out V :=
  let computing := (m >=? L pl) && negb drain in
  let y_out :=
    if computing
    then Some (vadd (if k =? 0 then vzero else y_in) (vmul a_in b_in))
    else None in
  {| b_out := if computing && (p <? P pl - 1) then Some b_in else None;
     y_out := y_out;
     y_pipe_out :=
       if (later_tile && (k_drain d <? p) && (m_drain d <? T pl))
          || ((k =? K - 1) && (m >=? L pl))
          || (drain && (k_drain d <? p))
       then Some (if (p =? 0) || ((k_drain d =? K - 1) && negb drain)
                  then y_out else Some forward_in)
       else None;
     trail_out := adjust_draining_iterators K (T pl) (L pl) drain d |}.

End MatMul.

(** ** The Conv node before it is read *)

(** Python exceptions raised while the attributes and shapes of a node are
    read: subscripting [None], an index past the end of a shape, a tuple
    unpacking of the wrong length, the assertion on the strides, and an
    axis out of range. *)
Inductive py_exception : Type :=
| TypeError
| IndexError
| ValueError_unpack
| AssertionError_strides
| ValueError_axis.

Inductive outcome (A : Type) : Type :=
| Returns (a : A)
| Throws (e : py_exception).
Arguments Returns {A} a.
Arguments Throws {A} e.

Definition and_then {A B : Type} (r : outcome A) (k : A -> outcome B) : outcome B :=
  match r with
  | Returns a => k a
  | Throws e => Throws e
  end.

Notation "x <~ r ;; k" := (and_then r (fun x => k))
  (at level 61, r at next level, right associativity).

(** [l[i]] on a shape or an attribute list. *)
Definition py_index (l : list Z) (i : nat) : outcome Z :=
  match nth_error l i with
  | Some v => Returns v
  | None => Throws IndexError
  end.

(** [a, b = l]. *)
Definition unpack2 (l : list Z) : outcome (Z * Z) :=
  match l with
  | [a; b] => Returns (a, b)
  | _ => Throws ValueError_unpack
  end.

Definition len (l : list Z) : Z := Z.of_nat (length l).

Inductive dtype : Type := float16 | float32 | float64 | other_dtype.

Definition is_float (d : dtype) : bool :=
  match d with
  | other_dtype => false
  | _ => true
  end.

(** The values of the ONNX attribute [auto_pad]. *)
Inductive auto_pad_mode : Type := NOTSET | SAME_UPPER | SAME_LOWER | VALID.

Definition is_NOTSET (a : auto_pad_mode) : bool :=
  match a with
  | NOTSET => true
  | _ => false
  end.

(** A Conv node as the lowerings find it: the descriptors of X, W and Y,
    the descriptor of B when the node has that input, and the attributes,
    [None] for an attribute that is not set. *)
Record ConvOp : Type := {
  X_shape : list Z;
  X_dtype : dtype;
  X_veclen : Z;
  W_shape : list Z;
  W_dtype : dtype;
  W_veclen : Z;
  Y_shape : list Z;
  Y_veclen : Z;
  B_shape : option (list Z);
  group : Z;
  dilations : option (list Z);
  pads : option (list Z);
  strides : option (list Z);
  kernel_shape : option (list Z);
  auto_pad : auto_pad_mode
}.

(** [all(d == 1 for d in l)] and [all(p == 0 for p in l)]. *)
Definition all_equal_to (v : Z) (l : list Z) : bool := forallb (fun d => d =? v) l.

(** [all(p == l[0] for p in l)]: nothing is compared when [l] is empty. *)
Definition all_equal_to_first (l : list Z) : bool :=
  match l with
  | [] => true
  | p0 :: _ => forallb (fun p => p =? p0) l
  end.

(** The test on [dilations] shared by the three predicates. *)
Definition bad_dilations (n : ConvOp) (image_dims : Z) : bool :=
  match dilations n with
  | Some ds => negb (all_equal_to 1 ds) || negb (len ds =? image_dims)
  | None => false
  end.

Definition bad_strides (n : ConvOp) (image_dims : Z) : bool :=
  match strides n with
  | Some ss => negb (len ss =? image_dims)
  | None => false
  end.

(** [B is not None and B.shape[0] != num_filters]. *)
Definition bad_bias (n : ConvOp) (num_filters : Z) : outcome bool :=
  match B_shape n with
  | Some bs => b0 <~ py_index bs 0 ;; Returns (negb (b0 =? num_filters))
  | None => Returns false
  end.

(** [FPGAConv2D.forward_can_be_applied]. *)
Definition naive_can_be_applied (n : ConvOp) : outcome bool :=
  let image_dims := len (X_shape n) - 2 in
  num_filters <~ py_index (W_shape n) 0 ;;
  num_channels <~ py_index (X_shape n) 1 ;;
  if negb (is_float (X_dtype n)) || negb (is_float (W_dtype n)) then Returns false
  else if negb (len (X_shape n) =? 4) || negb (len (W_shape n) =? 4) then Returns false
  else if negb (group n =? 1) then Returns false
  else
    w1 <~ py_index (W_shape n) 1 ;;
    if negb (num_channels =? w1) then Returns false
    else if bad_dilations n image_dims then Returns false
    else if match pads n with
            | Some ps => negb (all_equal_to 0 ps) || negb (len ps =? image_dims * 2)
            | None => false
            end then Returns false
    else if bad_strides n image_dims then Returns false
    else
      bb <~ bad_bias n num_filters ;;
      if bb then Returns false
      else if negb (is_NOTSET (auto_pad n)) then Returns false
      else Returns true.

(** [FPGAIm2ColConv.forward_can_be_applied]. *)
Definition im2col_can_be_applied (n : ConvOp) : outcome bool :=
  let image_dims := len (X_shape n) - 2 in
  num_filters <~ py_index (W_shape n) 0 ;;
  num_channels <~ py_index (X_shape n) 1 ;;
  if negb (len (X_shape n) =? 4) || negb (len (W_shape n) =? 4) then Returns false
  else if negb (group n =? 1) then Returns false
  else
    w1 <~ py_index (W_shape n) 1 ;;
    if negb (num_channels =? w1) then Returns false
    else if bad_dilations n image_dims then Returns false
    else if match pads n with
            | Some ps => negb (all_equal_to_first ps) || negb (len ps =? image_dims * 2)
            | None => false
            end then Returns false
    else if bad_strides n image_dims then Returns false
    else
      bb <~ bad_bias n num_filters ;;
      if bb then Returns false
      else if negb (is_NOTSET (auto_pad n)) then Returns false
      else Returns true.

(** [FPGAIm2ColConv_tiled.forward_can_be_applied]: the same tests, with the
    one on the vector length of the weights after the one on [pads]. *)
Definition tiled_can_be_applied (n : ConvOp) : outcome bool :=
  let image_dims := len (X_shape n) - 2 in
  num_filters <~ py_index (W_shape n) 0 ;;
  num_channels <~ py_index (X_shape n) 1 ;;
  if negb (len (X_shape n) =? 4) || negb (len (W_shape n) =? 4) then Returns false
  else if negb (group n =? 1) then Returns false
  else
    w1 <~ py_index (W_shape n) 1 ;;
    if negb (num_channels =? w1) then Returns false
    else if bad_dilations n image_dims then Returns false
    else if match pads n with
            | Some ps => negb (all_equal_to_first ps) || negb (len ps =? image_dims * 2)
            | None => false
            end then Returns false
    else if W_veclen n >? 1 then Returns false
    else if bad_strides n image_dims then Returns false
    else
      bb <~ bad_bias n num_filters ;;
      if bb then Returns false
      else if negb (is_NOTSET (auto_pad n)) then Returns false
      else Returns true.

(** The head of [FPGAIm2ColConv_tiled.forward], which reads the node into
    the sizes the planner and the tasklets use.  The spatial extents of X
    are unpacked as [(input_size_y, input_size_x)], those of Y as
    [(output_size_x, output_size_y)]. *)
Definition tiled_read_node (n : ConvOp) : outcome ConvNode :=
  filter <~ match kernel_shape n with
            | Some ks => unpack2 ks
            | None => unpack2 (skipn 2 (W_shape n))
            end ;;
  nf <~ py_index (W_shape n) 0 ;;
  nc <~ py_index (X_shape n) 1 ;;
  bs <~ py_index (X_shape n) 0 ;;
  input_size <~ unpack2 (skipn 2 (X_shape n)) ;;
  output_size <~ unpack2 (skipn 2 (Y_shape n)) ;;
  pad <~ match pads n with
         | Some ps => py_index ps 0
         | None => Throws TypeError
         end ;;
  Returns {| batch_size := bs; num_filters := nf; num_channels := nc;
             filter_hx := fst filter; filter_hy := snd filter;
             input_size_x := snd input_size; input_size_y := fst input_size;
             output_size_x := fst output_size; output_size_y := snd output_size;
             padding := pad;
             veclen_X := X_veclen n; veclen_W := W_veclen n;
             veclen_Y := Y_veclen n |}.

(** The head of [FPGAIm2ColConv.forward]; here the spatial extents of X are
    unpacked as [(input_size_x, input_size_y)]. *)
Definition untiled_read_node (n : ConvOp) : outcome ConvNode :=
  filter <~ match kernel_shape n with
            | Some ks => unpack2 ks
            | None => unpack2 (skipn 2 (W_shape n))
            end ;;
  nf <~ py_index (W_shape n) 0 ;;
  nc <~ py_index (X_shape n) 1 ;;
  bs <~ py_index (X_shape n) 0 ;;
  input_size <~ unpack2 (skipn 2 (X_shape n)) ;;
  output_size <~ unpack2 (skipn 2 (Y_shape n)) ;;
  pad <~ match pads n with
         | Some ps => py_index ps 0
         | None => Throws TypeError
         end ;;
  Returns {| batch_size := bs; num_filters := nf; num_channels := nc;
             filter_hx := fst filter; filter_hy := snd filter;
             input_size_x := fst input_size; input_size_y := snd input_size;
             output_size_x := fst output_size; output_size_y := snd output_size;
             padding := pad;
             veclen_X := X_veclen n; veclen_W := W_veclen n;
             veclen_Y := Y_veclen n |}.

(** ** The weight feeder of the untiled convolution *)

(** Whether an address lies inside W, whose shape is
    [num_filters, num_channels, filter_hx, filter_hy]. *)
Definition in_extent_W (c : ConvNode) (a : address) : bool :=
  let '(f, ch, i, j) := a in
  (0 <=? f) && (f <? num_filters c) && (0 <=? ch) && (ch <? num_channels c) &&
  (0 <=? i) && (i <? filter_hx c) && (0 <=? j) && (j <? filter_hy c).

(** One write of [make_read_W] of [FPGAIm2ColConv]: the tasklet copies
    [W[n0 * P + n1, cin, hx, hy]] to [W_pipe[P - n1 - 1]]. *)
Definition untiled_read_W_emit {V : Type} (pl : Conv.Plan) (W : address -> V)
    (n0 cin hx hy n1 : Z) : Z * V :=
  (Conv.P pl - n1 - 1, W (n0 * Conv.P pl + n1, cin, hx, hy)).

(** What [make_read_W] writes for one row block [n0] of one image: the
    ranges [cin], [hx], [hy] of its map and the inner map over [n1]. *)
Definition untiled_read_W_block {V : Type} (c : ConvNode) (pl : Conv.Plan)
    (W : address -> V) (n0 : Z) : list (Z * V) :=
  flat_map (fun cin =>
    flat_map (fun hx =>
      flat_map (fun hy =>
        map (fun n1 => untiled_read_W_emit pl W n0 cin hx hy n1)
          (range (Conv.P pl)))
        (range (filter_hy c)))
      (range (filter_hx c)))
    (range (num_channels c)).

(** Everything [make_read_W] writes, in the order of its map
    [b, n0, cin, hx, hy] and inner map [n1]. *)
Definition untiled_read_W {V : Type} (c : ConvNode) (pl : Conv.Plan)
    (W : address -> V) : list (Z * V) :=
  flat_map (fun b =>
    flat_map (fun n0 => untiled_read_W_block c pl W n0)
      (range (num_filters c / Conv.P pl)))
    (range (batch_size c)).

(** ** Addresses of the Gemm and MatMul lowerings *)

(** The row [A[n0 * P + n1, k]] that [make_read_A] of [FPGAGemm] sends to
    PE [n1] in row block [n0]; its map ranges are [n0 in 0:N/P] and
    [n1 in 0:P]. *)
Definition gemm_read_A_row (pl : Gemm.Plan) (n0 n1 : Z) : Z := n0 * Gemm.P pl + n1.

(** The rows [make_read_A] of [FPGAGemm] visits for one contraction step,
    in the order of its maps. *)
Definition gemm_read_A_rows (N : Z) (pl : Gemm.Plan) : list Z :=
  flat_map (fun n0 => map (fun n1 => gemm_read_A_row pl n0 n1) (range (Gemm.P pl)))
    (range (N / Gemm.P pl)).

(** The memlet [Y[(b_n*P + n1)//N, (b_n*P + n1)%N, tm*T + m]] of
    [make_write_Y] in the branch of [FPGAMatMul] that collates the batch
    and row axes; the memlet of [make_read_A] has the same first two
    indices. *)
Definition collated_write_Y_access (N : Z) (pl : MatMul.Plan) (b_n tm n1 m : Z)
    : Z * Z * Z :=
  ((b_n * MatMul.P pl + n1) / N,
   (b_n * MatMul.P pl + n1) mod N,
   tm * MatMul.T pl + m).

(** The memlet [Y[b, n0*P + n1, tm*T + m]] of [make_write_Y] in the batched
    branch. *)
Definition batched_write_Y_access (pl : MatMul.Plan) (b n0 tm n1 m : Z)
    : Z * Z * Z :=
  (b, n0 * MatMul.P pl + n1, tm * MatMul.T pl + m).

(** ** Four-dimensional arrays *)

Definition address_eqb (a a' : address) : bool :=
  let '(i, j, k, l) := a in
  let '(i', j', k', l') := a' in
  (i =? i') && (j =? j') && (k =? k') && (l =? l').

(** A write to a four-dimensional array. *)
Definition store {V : Type} (buf : address -> V) (a : address) (v : V) : address -> V :=
  fun a' => if address_eqb a' a then v else buf a'.

(** Whether an address lies inside an array of the given shape. *)
Definition in_shape (shape : list Z) (a : address) : bool :=
  let '(i, j, k, l) := a in
  match shape with
  | [d0; d1; d2; d3] =>
      (0 <=? i) && (i <? d0) && (0 <=? j) && (j <? d1) &&
      (0 <=? k) && (k <? d2) && (0 <=? l) && (l <? d3)
  | _ => false
  end.

(** ** FPGAMaxPool2D *)
Module MaxPool.

(** A MaxPool node as the lowering finds it. *)
Record Op : Type := {
  X_shape : list Z;
  X_veclen : Z;
  Y_veclen : Z;
  Indices_connected : bool;
  pads : option (list Z);
  strides : option (list Z);
  dilations : option (list Z);
  auto_pad : auto_pad_mode;
  ceil_mode : Z;
  storage_order : Z
}.

(** [forward_can_be_applied]. *)
Definition forward_can_be_applied (n : Op) : bool :=
  if negb (Y_veclen n =? 1) then X_veclen n =? Y_veclen n
  else if Indices_connected n then false
  else
    let image_dims := len (X_shape n) - 2 in
    if negb (image_dims =? 2) then false
    else if match pads n with
            | Some ps => negb (all_equal_to 0 ps) || negb (len ps =? image_dims * 2)
            | None => false
            end then false
    else if match strides n with
            | Some ss => negb (len ss =? image_dims)
            | None => false
            end then false
    else if negb (is_NOTSET (auto_pad n)) then false
    else if negb (ceil_mode n =? 0) || negb (storage_order n =? 0) then false
    else if match dilations n with
            | Some ds => negb (all_equal_to 1 ds) || negb (len ds =? image_dims)
            | None => false
            end then false
    else true.

(** The sizes [forward] works with: the batch, the channels, the kernel,
    the height of X, its width in vectors, and the vector lengths. *)
Record Sizes : Type := {
  batch_size : Z;
  num_channels : Z;
  filter_height : Z;
  filter_width : Z;
  input_size_height : Z;
  input_size_width : Z;
  vec_width : Z;
  veclen_Y : Z
}.

Definition shift_register_size (s : Sizes) : Z :=
  input_size_width s * vec_width s * (filter_height s - 1)
  + (filter_width s - 1) + 1.

(** The condition under which the tasklet [compute_entry] assigns
    [output], for the input position [(in_y, in_x)], lane [w] and window
    offset [(hy, hx)]. *)
Definition writes_output (s : Sizes) (in_y in_x w hy hx : Z) : bool :=
  (hy =? filter_height s - 1) && (hx =? filter_width s - 1)
  && (in_y mod filter_height s =? filter_height s - 1)
  && ((in_x * vec_width s + w) mod filter_height s =? filter_width s - 1).

(** The memlet of Y. *)
Definition y_memlet (s : Sizes) (b c in_y in_x w : Z) : address :=
  if negb (vec_width s =? 1) && (veclen_Y s =? 1)
  then (b, c, in_y / filter_height s, (in_x * vec_width s + w) / filter_width s)
  else (b, c, in_y / filter_height s, in_x / filter_width s).

(** The position in the shift register that the tasklet reads for the
    window offset [(hy, hx)]. *)
Definition window_index (s : Sizes) (hy hx : Z) : Z :=
  hy * (input_size_width s * vec_width s) + hx.

(** The shift register, the register [max_res] of the reduction, and Y. *)
Record State (V : Type) : Type := {
  shift_register : list V;
  max_res : V;
  Y : address -> V
}.
Arguments shift_register {V} _.
Arguments max_res {V} _.
Arguments Y {V} _.

Section Compute.
Context {V : Type}.

(** The maximum of two elements and the least value of the element type. *)
Variable vmax : V -> V -> V.
Variable min_value : V.

Variable s : Sizes.

(** [X a w] is lane [w] of the vector [X[a]]. *)
Variable X : address -> Z -> V.

(** A write to the last place of an array with storage
    [FPGA_ShiftRegister]: every element moves one place down and the new
    one is stored behind them. *)
Definition shift_in (sr : list V) (v : V) : list V := tl sr ++ [v].

(** The tasklet [compute_entry], for an unvectorized Y.  The index it
    reads always lies inside the register. *)
Definition compute_entry (st : State V) (b c in_y in_x w hy hx : Z) : State V :=
  let image_in := nth (Z.to_nat (window_index s hy hx)) (shift_register st) min_value in
  let max_in := if (hx =? 0) && (hy =? 0) then min_value else max_res st in
  let max_out := vmax max_in image_in in
  {| shift_register := shift_register st;
     max_res := max_out;
     Y := if writes_output s in_y in_x w hy hx
          then store (Y st) (y_memlet s b c in_y in_x w) max_out
          else Y st |}.

(** The unrolled map [inner_pool_map] over the window. *)
Definition inner_pool_map (st : State V) (b c in_y in_x w : Z) : State V :=
  fold_left (fun st hy =>
    fold_left (fun st hx => compute_entry st b c in_y in_x w hy hx)
      (range (filter_width s)) st)
    (range (filter_height s)) st.

(** The unrolled map [vect_pool_map] over the lanes: lane [w] of the
    vector read from X enters the shift register, then the window is
    reduced. *)
Definition vect_pool_map (st : State V) (b c in_y in_x : Z) : State V :=
  fold_left (fun st w =>
    inner_pool_map
      {| shift_register := shift_in (shift_register st) (X (b, c, in_y, in_x) w);
         max_res := max_res st;
         Y := Y st |}
      b c in_y in_x w)
    (range (vec_width s)) st.

(** The map [outer_pool_map] over every entry of the input array. *)
Definition outer_pool_map (st : State V) : State V :=
  fold_left (fun st b =>
    fold_left (fun st c =>
      fold_left (fun st in_y =>
        fold_left (fun st in_x => vect_pool_map st b c in_y in_x)
          (range (input_size_width s)) st)
        (range (input_size_height s)) st)
      (range (num_channels s)) st)
    (range (batch_size s)) st.

(** The element of X in row [y] and column [col], counted in elements. *)
Definition element (b c y col : Z) : V :=
  X (b, c, y, col / vec_width s) (col mod vec_width s).

(** The maximum the output is compared with: the elements of the window
    whose first row is [y0] and first column [col0], reduced from the
    least value in the order row, column. *)
Definition window_max (b c y0 col0 : Z) : V :=
  fold_left (fun acc hy =>
    fold_left (fun acc hx => vmax acc (element b c (y0 + hy) (col0 + hx)))
      (range (filter_width s)) acc)
    (range (filter_height s)) min_value.

(** The reduction of the window held in a shift register, with its
    partial forms: [n] columns of row [hy], and [n] whole rows. *)
Definition register_max_hx (sr : list V) (hy n : Z) (acc : V) : V :=
  fold_left (fun acc hx => vmax acc (nth (Z.to_nat (window_index s hy hx)) sr min_value))
    (range n) acc.

Definition register_max_hy (sr : list V) (n : Z) (acc : V) : V :=
  fold_left (fun acc hy => register_max_hx sr hy (filter_width s) acc)
    (range n) acc.

Definition register_max (sr : list V) : V :=
  register_max_hy sr (filter_height s) min_value.

(** The number of elements that entered the shift register before the
    element in row [y] and column [col] of channel [c] of image [b]. *)
Definition stream_position (b c y col : Z) : Z :=
  ((b * num_channels s + c) * input_size_height s + y)
  * (input_size_width s * vec_width s) + col.

(** The state after [pos] elements have entered the shift register: the
    register holds the last [shift_register_size] of them, and the output
    pixel [(oy, ox)] of channel [c] of image [b] holds the maximum of its
    window once the last element of the window has entered. *)
Definition invariant (b c oy ox : Z) (pos : Z) (st : State V) : Prop :=
  length (shift_register st) = Z.to_nat (shift_register_size s) /\
  (forall b' c' y' col',
     0 <= b' < batch_size s -> 0 <= c' < num_channels s ->
     0 <= y' < input_size_height s ->
     0 <= col' < input_size_width s * vec_width s ->
     pos - shift_register_size s <= stream_position b' c' y' col' < pos ->
     nth (Z.to_nat (stream_position b' c' y' col' - (pos - shift_register_size s)))
       (shift_register st) min_value
     = element b' c' y' col') /\
  (stream_position b c (oy * filter_height s + (filter_height s - 1))
     (ox * filter_width s + (filter_width s - 1)) < pos ->
   Y st (b, c, oy, ox)
   = window_max b c (oy * filter_height s) (ox * filter_width s)).

End Compute.

End MaxPool.

(** ** FPGAConv2D: the naive convolution *)

(** [_2d_sliding_window_index_expr]: the index [out * stride + h]. *)
Definition _2d_sliding_window_index_expr (out stride h : Z) : Z := out * stride + h.

Module NaiveConv.

(** The sizes [forward] reads from the node.  The spatial extents of Y are
    unpacked as [(output_size_y, output_size_x)]. *)
Record Sizes : Type := {
  stride_x : Z;
  stride_y : Z;
  filter_hx : Z;
  filter_hy : Z;
  num_filters : Z;
  num_channels : Z;
  batch_size : Z;
  output_size_y : Z;
  output_size_x : Z
}.

(** The head of [forward], up to the assertion on the strides. *)
Definition forward_sizes (n : ConvOp) : outcome Sizes :=
  let image_dims := len (X_shape n) - 2 in
  let strides := match strides n with
                 | Some ss => ss
                 | None => repeat 1 (Z.to_nat image_dims)
                 end in
  stride <~ unpack2 strides ;;
  filter <~ match kernel_shape n with
            | Some ks => unpack2 ks
            | None => unpack2 (skipn 2 (W_shape n))
            end ;;
  nf <~ py_index (W_shape n) 0 ;;
  nc <~ py_index (X_shape n) 1 ;;
  bs <~ py_index (X_shape n) 0 ;;
  output_size <~ unpack2 (skipn 2 (Y_shape n)) ;;
  if negb ((fst stride =? 1) && (snd stride =? 1)) then Throws AssertionError_strides
  else Returns {| stride_x := fst stride; stride_y := snd stride;
                  filter_hx := fst filter; filter_hy := snd filter;
                  num_filters := nf; num_channels := nc; batch_size := bs;
                  output_size_y := fst output_size;
                  output_size_x := snd output_size |}.

(** The memlets of the tasklet [compute_entry]: [X[b, cin, x_idx, y_idx]]
    and [Y[b, m, out_x, out_y]]. *)
Definition image_memlet (s : Sizes) (b cin out_x out_y hx hy : Z) : address :=
  (b, cin, _2d_sliding_window_index_expr out_x (stride_x s) hx,
   _2d_sliding_window_index_expr out_y (stride_y s) hy).

Definition output_memlet (b m out_x out_y : Z) : address := (b, m, out_x, out_y).

(** The local buffers and the output array. *)
Record State (V : Type) : Type := {
  local_X : Z -> Z -> Z -> V;
  local_Y : Z -> V;
  Y : address -> V
}.
Arguments local_X {V} _.
Arguments local_Y {V} _.
Arguments Y {V} _.

Section Compute.
Context {V : Type} `{Arith V}.
Variable s : Sizes.
Variables X W : address -> V.
Variable B : option (Z -> V).

(** The tasklet [compute_entry].  [local_X_in] is a dynamic memlet: the
    assignment to it under [m == 0] is a write to [local_X[cin, hx, hy]]. *)
Definition compute_entry (st : State V) (b out_x out_y cin m hx hy : Z) : State V :=
  let image_in := X (image_memlet s b cin out_x out_y hx hy) in
  let filter_in := W (m, cin, hx, hy) in
  let local_X_in := if m =? 0 then image_in else local_X st cin hx hy in
  let local_Y_out :=
    vadd (if (hx =? 0) && (hy =? 0) && (cin =? 0) then vzero else local_Y st m)
         (vmul local_X_in filter_in) in
  {| local_X := if m =? 0
                then fun c x y => if (c =? cin) && (x =? hx) && (y =? hy)
                                  then image_in else local_X st c x y
                else local_X st;
     local_Y := update (local_Y st) m local_Y_out;
     Y := if (hx =? filter_hx s - 1) && (hy =? filter_hy s - 1)
             && (cin =? num_channels s - 1)
          then store (Y st) (output_memlet b m out_x out_y)
                 (match B with
                  | Some B_in => vadd local_Y_out (B_in m)
                  | None => local_Y_out
                  end)
          else Y st |}.

(** The unrolled map [inner_conv_map] over [m], [hx], [hy]. *)
Definition inner_conv_map (st : State V) (b out_x out_y cin : Z) : State V :=
  fold_left (fun st m =>
    fold_left (fun st hx =>
      fold_left (fun st hy => compute_entry st b out_x out_y cin m hx hy)
        (range (filter_hy s)) st)
      (range (filter_hx s)) st)
    (range (num_filters s)) st.

(** The map [mid_conv_map] over the input channels. *)
Definition mid_conv_map (st : State V) (b out_x out_y : Z) : State V :=
  fold_left (fun st cin => inner_conv_map st b out_x out_y cin)
    (range (num_channels s)) st.

(** The map [outer_conv_map] over [b], [out_x], [out_y]; the iterations of
    the maps run one after the other. *)
Definition outer_conv_map (st : State V) : State V :=
  fold_left (fun st b =>
    fold_left (fun st out_x =>
      fold_left (fun st out_y => mid_conv_map st b out_x out_y)
        (range (output_size_y s)) st)
      (range (output_size_x s)) st)
    (range (batch_size s)) st.

(** The convolution sum the output is compared with: the products of the
    window at [(out_x, out_y)] with filter [m], added up from zero in the
    order channel, kernel row, kernel column, and the bias added last.
    The partial sums take the number of columns, rows and channels added
    so far and the value they are added to. *)
Definition product (b m out_x out_y cin hx hy : Z) : V :=
  vmul (X (b, cin, out_x + hx, out_y + hy)) (W (m, cin, hx, hy)).

Definition sum_hy (b m out_x out_y cin hx n : Z) (acc : V) : V :=
  fold_left (fun acc hy => vadd acc (product b m out_x out_y cin hx hy))
    (range n) acc.

Definition sum_hx (b m out_x out_y cin n : Z) (acc : V) : V :=
  fold_left (fun acc hx => sum_hy b m out_x out_y cin hx (filter_hy s) acc)
    (range n) acc.

Definition sum_cin (b m out_x out_y n : Z) (acc : V) : V :=
  fold_left (fun acc cin => sum_hx b m out_x out_y cin (filter_hx s) acc)
    (range n) acc.

Definition window_sum (b m out_x out_y : Z) : V :=
  sum_cin b m out_x out_y (num_channels s) vzero.

Definition conv_reference (b m out_x out_y : Z) : V :=
  match B with
  | Some B_in => vadd (window_sum b m out_x out_y) (B_in m)
  | None => window_sum b m out_x out_y
  end.

(** The state of one pixel [(b, out_x, out_y)] at the point of
    [mid_conv_map] where the iterations before [(cin, mcur, hx, hy)] have
    run.  Filter [m] has [started] when a product was added to
    [local_Y[m]], then [local_Y[m]] is [accumulated]; the window entry
    [(hx', hy')] of channel [cin] is [filled] when it was copied to
    [local_X]; filter [m] has [finished] when its last product was added,
    then the output is written. *)
Definition started (cin mcur hx hy m : Z) : Prop :=
  cin <> 0 \/ m < mcur \/ (m = mcur /\ (hx <> 0 \/ hy <> 0)).

Definition accumulated (b out_x out_y cin mcur hx hy m : Z) : V :=
  if m <? mcur then sum_cin b m out_x out_y (cin + 1) vzero
  else if m =? mcur
  then sum_hy b m out_x out_y cin hx hy
         (sum_hx b m out_x out_y cin hx (sum_cin b m out_x out_y cin vzero))
  else sum_cin b m out_x out_y cin vzero.

Definition filled (mcur hx hy hx' hy' : Z) : Prop :=
  0 < mcur \/ hx' < hx \/ (hx' = hx /\ hy' < hy).

Definition finished (cin mcur hx hy m : Z) : Prop :=
  num_channels s <= cin \/
  (cin = num_channels s - 1 /\
   (m < mcur \/
    (m = mcur /\ (filter_hx s <= hx \/ (hx = filter_hx s - 1 /\ filter_hy s <= hy))))).

Definition invariant (st : State V) (b out_x out_y cin mcur hx hy : Z) : Prop :=
  (forall m, 0 <= m < num_filters s -> started cin mcur hx hy m ->
     local_Y st m = accumulated b out_x out_y cin mcur hx hy m) /\
  (forall hx' hy', 0 <= hx' < filter_hx s -> 0 <= hy' < filter_hy s ->
     filled mcur hx hy hx' hy' ->
     local_X st cin hx' hy' = X (b, cin, out_x + hx', out_y + hy')) /\
  (forall m, 0 <= m < num_filters s -> finished cin mcur hx hy m ->
     Y st (output_memlet b m out_x out_y) = conv_reference b m out_x out_y).

End Compute.

End NaiveConv.

(** ** FPGASoftmax *)
Module Softmax.

(** [forward_can_be_applied]: only the last axis, named by its index. *)
Definition forward_can_be_applied (shape : list Z) (axis : Z) : bool :=
  len shape - 1 =? axis.

(** The check of [forward] on an integer [axis], and the axis it goes on
    with. *)
Definition forward_axis (shape : list Z) (axis : Z) : outcome Z :=
  if negb ((- len shape <=? axis) && (axis <? len shape))
  then Throws ValueError_axis
  else Returns (if axis <? 0 then axis + len shape else axis).

(** The exponential and the division of the element type. *)
Class Transcendental (V : Type) : Type := {
  vexp : V -> V;
  vdiv : V -> V -> V
}.

(** The registers [exp_data] and [sum_data], and one row of [output]. *)
Record State (V : Type) : Type := {
  exp_data : Z -> V;
  sum_data : V;
  output : Z -> V
}.
Arguments exp_data {V} _.
Arguments sum_data {V} _.
Arguments output {V} _.

Section Row.
Context {V : Type} `{Arith V} `{Transcendental V}.

(** The row of [input] selected by the indices of the batch map. *)
Variable input : Z -> V.

Definition init_task (st : State V) : State V :=
  {| exp_data := exp_data st; sum_data := vzero; output := output st |}.

Definition exp_task (st : State V) (i : Z) : State V :=
  let _exp := vexp (input i) in
  let prev_sum := if negb (i =? 0) then sum_data st else vzero in
  {| exp_data := update (exp_data st) i _exp;
     sum_data := vadd prev_sum _exp;
     output := output st |}.

Definition div_task (st : State V) (i : Z) : State V :=
  {| exp_data := exp_data st;
     sum_data := sum_data st;
     output := update (output st) i (vdiv (exp_data st i) (sum_data st)) |}.

(** One iteration of the batch map [softmax_map] on a row of [n]
    elements: the initialization, the map [softmax_exp], then the map
    [softmax_max] that divides. *)
Definition softmax_map (st : State V) (n : Z) : State V :=
  fold_left div_task (range n) (fold_left exp_task (range n) (init_task st)).

(** The sum of the exponentials of the first [n] elements. *)
Definition exp_sum (n : Z) : V :=
  fold_left (fun acc j => vadd acc (vexp (input j))) (range n) vzero.

End Row.

End Softmax.

(** ** Concrete nodes used below *)

(** One image, one filter, one channel, a 3x3 kernel with padding 1 over a
    4x4 input, stride 1 (so the output is 4x4), nothing vectorized. *)
Definition conv_3x3_same_4x4 : ConvNode :=
  {| batch_size := 1; num_filters := 1; num_channels := 1;
     filter_hx := 3; filter_hy := 3;
     input_size_x := 4; input_size_y := 4;
     output_size_x := 4; output_size_y := 4;
     padding := 1;
     veclen_X := 1; veclen_W := 1; veclen_Y := 1 |}.

(** Six filters over the same geometry. *)
Definition conv_3x3_six_filters : ConvNode :=
  {| batch_size := 1; num_filters := 6; num_channels := 1;
     filter_hx := 3; filter_hy := 3;
     input_size_x := 4; input_size_y := 4;
     output_size_x := 4; output_size_y := 4;
     padding := 1;
     veclen_X := 1; veclen_W := 1; veclen_Y := 1 |}.

(** A 3x3 kernel without padding over a 34x18 input: the output is 32x16,
    so that M = 512. *)
Definition conv_3x3_wide : ConvNode :=
  {| batch_size := 1; num_filters := 2; num_channels := 1;
     filter_hx := 3; filter_hy := 3;
     input_size_x := 34; input_size_y := 18;
     output_size_x := 32; output_size_y := 16;
     padding := 0;
     veclen_X := 1; veclen_W := 1; veclen_Y := 1 |}.

(** A 1x1 kernel over one channel of a 4x4 image: K = 1. *)
Definition conv_1x1_one_channel : ConvNode :=
  {| batch_size := 1; num_filters := 1; num_channels := 1;
     filter_hx := 1; filter_hy := 1;
     input_size_x := 4; input_size_y := 4;
     output_size_x := 4; output_size_y := 4;
     padding := 0;
     veclen_X := 1; veclen_W := 1; veclen_Y := 1 |}.

(** The first iteration of the drain phase of a scope, with the map
    indices at zero. *)
Definition first_drain_cycle (s : pipeline_scope) (K Tw L : Z) : iterators :=
  {| it_b := 0; it_n0 := 0; it_tm := 0; it_k := 0; it_m := 0;
     it_drain := drain_condition s (scope_iterations s);
     it_trail := drain_iterators_at s K Tw L (Z.to_nat (scope_iterations s)) |}.

(** A tiled plan with two processing elements over the 4x4 geometry, and
    its counterpart for the untiled lowering. *)
Definition plan_two_PEs : ConvTiled.Plan :=
  {| ConvTiled.P := 2; ConvTiled.T := 16; ConvTiled.L := 0; ConvTiled.N := 2;
     ConvTiled.K := 9; ConvTiled.M := 16; ConvTiled.log := [] |}.

Definition untiled_plan_two_PEs : Conv.Plan :=
  {| Conv.P := 2; Conv.K := 9; Conv.M := 16; Conv.L := 0; Conv.log := [] |}.

(** A compute cycle in the middle of the first tile, and a cycle at the
    last contraction step in which the trailing iterators have caught up. *)
Definition cycle_computing : iterators :=
  {| it_b := 0; it_n0 := 0; it_tm := 0; it_k := 1; it_m := 3;
     it_drain := false; it_trail := {| m_drain := 0; k_drain := 0 |} |}.

Definition cycle_draining : iterators :=
  {| it_b := 0; it_n0 := 0; it_tm := 0; it_k := 8; it_m := 3;
     it_drain := false; it_trail := {| m_drain := 3; k_drain := 8 |} |}.

(** A cycle of the second row block in which PE 1 relays. *)
Definition cycle_relaying : iterators :=
  {| it_b := 0; it_n0 := 1; it_tm := 0; it_k := 0; it_m := 3;
     it_drain := false; it_trail := {| m_drain := 3; k_drain := 0 |} |}.

(** A PE whose partial sums are all 10. *)
Definition pe_all_tens : ConvTiled.PE Z :=
  {| ConvTiled.A_reg := 2; ConvTiled.B_reg := 0; ConvTiled.C_buffer := fun _ => 10 |}.

(** Weights and results that encode their own indices. *)
Definition weights_by_index : address -> Z :=
  fun '(f, ch, row, col) => f * 1000 + ch * 100 + row * 10 + col.

Definition bias_by_index : Z -> Z := fun f => 100 * (f + 1).

(** An image whose every stored or stray element reads as 1. *)
Definition image_of_ones : address -> Z -> Z := fun _ _ => 1.

(** A valid 2x2 convolution of a two-channel 3x3 image with two filters
    and a bias, its sizes, an image, and buffers holding stale values. *)
Definition conv_op_2x2_valid : ConvOp :=
  {| X_shape := [1; 2; 3; 3]; X_dtype := float32; X_veclen := 1;
     W_shape := [2; 2; 2; 2]; W_dtype := float32; W_veclen := 1;
     Y_shape := [1; 2; 2; 2]; Y_veclen := 1; B_shape := Some [2];
     group := 1; dilations := None; pads := None; strides := Some [1; 1];
     kernel_shape := None; auto_pad := NOTSET |}.

Definition naive_sizes_2x2 : NaiveConv.Sizes :=
  {| NaiveConv.stride_x := 1; NaiveConv.stride_y := 1;
     NaiveConv.filter_hx := 2; NaiveConv.filter_hy := 2;
     NaiveConv.num_filters := 2; NaiveConv.num_channels := 2;
     NaiveConv.batch_size := 1;
     NaiveConv.output_size_y := 2; NaiveConv.output_size_x := 2 |}.

Definition image_by_index : address -> Z :=
  fun a => let '(b, c, i, j) := a in 10 * c + 3 * i + j.

Definition stale_buffers : NaiveConv.State Z :=
  {| NaiveConv.local_X := fun _ _ _ => 7;
     NaiveConv.local_Y := fun _ => 9;
     NaiveConv.Y := fun _ => 11 |}.

(** A valid 2x2 convolution of a 3x4 image, whose output is 2x3. *)
Definition conv_op_2x2_wide : ConvOp :=
  {| X_shape := [1; 1; 3; 4]; X_dtype := float32; X_veclen := 1;
     W_shape := [1; 1; 2; 2]; W_dtype := float32; W_veclen := 1;
     Y_shape := [1; 1; 2; 3]; Y_veclen := 1; B_shape := None;
     group := 1; dilations := None; pads := None; strides := None;
     kernel_shape := None; auto_pad := NOTSET |}.

Definition naive_sizes_2x2_wide : NaiveConv.Sizes :=
  {| NaiveConv.stride_x := 1; NaiveConv.stride_y := 1;
     NaiveConv.filter_hx := 2; NaiveConv.filter_hy := 2;
     NaiveConv.num_filters := 1; NaiveConv.num_channels := 1;
     NaiveConv.batch_size := 1;
     NaiveConv.output_size_y := 2; NaiveConv.output_size_x := 3 |}.

(** Integer stand-ins for the exponential and the division, and stale
    Softmax registers. *)
Definition powers_of_two : Softmax.Transcendental Z :=
  {| Softmax.vexp := fun x => 2 ^ x; Softmax.vdiv := Z.div |}.

Definition stale_registers : Softmax.State Z :=
  {| Softmax.exp_data := fun _ => 5; Softmax.sum_data := 1000;
     Softmax.output := fun _ => 3 |}.

(** A 2x2 MaxPool of a 4x4 image stored in vectors of two elements, an
    image, and a shift register holding stale values. *)
Definition pool_sizes_2x2 : MaxPool.Sizes :=
  {| MaxPool.batch_size := 1; MaxPool.num_channels := 2;
     MaxPool.filter_height := 2; MaxPool.filter_width := 2;
     MaxPool.input_size_height := 4; MaxPool.input_size_width := 2;
     MaxPool.vec_width := 2; MaxPool.veclen_Y := 1 |}.

Definition pool_image : address -> Z -> Z :=
  fun a w => let '(b, c, y, x) := a in (7 * y + 3 * (2 * x + w) + c) mod 11.

Definition stale_pool_state : MaxPool.State Z :=
  {| MaxPool.shift_register := [99; 98; 97; 96; 95; 94];
     MaxPool.max_res := 93;
     MaxPool.Y := fun _ => 92 |}.

(** * Properties *)

(** ** Arithmetic of the planner *)

Lemma well_formed_K_pos (c : ConvNode) :
  well_formed c -> 1 <= filter_hx c * filter_hy c * num_channels c.
Proof.
  unfold well_formed. intros (_ & _ & Hc & Hx & Hy & _). nia.
Qed.

Lemma K_orders_agree (c : ConvNode) :
  num_channels c * filter_hx c * filter_hy c
  = filter_hx c * filter_hy c * num_channels c.
Proof. ring. Qed.

Lemma M_orders_agree (c : ConvNode) :
  output_size_y c * veclen_Y c * output_size_x c
  = output_size_x c * output_size_y c * veclen_Y c.
Proof. ring. Qed.

(** The clamp leaves at most K processing elements. *)
Lemma num_PEs_le_K (c : ConvNode) (pe : option Z) :
  well_formed c ->
  ConvTiled.num_PEs c pe <= filter_hx c * filter_hy c * num_channels c.
Proof.
  intros Hwf. pose proof (well_formed_K_pos c Hwf) as HK.
  unfold ConvTiled.num_PEs.
  destruct (_ >? _) eqn:E.
  - lia.
  - rewrite Z.gtb_ltb in E. apply Z.ltb_ge in E. exact E.
Qed.

(** [forward] as a cascade of its four live checks: the shape check and the
    three assertions compare a product with itself. *)
Lemma tiled_forward_checks (c : ConvNode) (tiles pe : option Z) :
  ConvTiled.forward c tiles pe =
  let t := ConvTiled.tile_size c
             (match tiles with Some t => t | None => ConvTiled.tiles_default end) in
  if veclen_W c >? 1 then Raise NotImplementedError_weights_vectorized
  else if negb (veclen_Y c =? veclen_X c) then Raise NotImplementedError_vector_widths
  else if negb (fst t mod output_size_x c =? 0)
       then Raise NotImplementedError_tile_not_multiple_of_width
  else if ConvTiled.num_PEs c pe >? filter_hx c * filter_hy c * num_channels c
       then Raise ValueError_too_many_PEs
  else Ok {| ConvTiled.P := ConvTiled.num_PEs c pe;
             ConvTiled.T := fst t;
             ConvTiled.L := Z.max (16 - fst t / veclen_Y c) 0;
             ConvTiled.N := num_filters c;
             ConvTiled.K := num_channels c * filter_hx c * filter_hy c;
             ConvTiled.M := output_size_y c * veclen_Y c * output_size_x c;
             ConvTiled.log := Using_PEs (ConvTiled.num_PEs c pe) (num_filters c) :: snd t |}.
Proof.
  unfold ConvTiled.forward. cbv zeta.
  destruct (ConvTiled.tile_size c _) as [t lg]. cbn [fst snd].
  rewrite <- (K_orders_agree c), <- (M_orders_agree c), !Z.eqb_refl.
  cbn [negb raise_if bind].
  destruct (veclen_W c >? 1); cbn [raise_if bind]; [reflexivity|].
  destruct (veclen_Y c =? veclen_X c); cbn [negb raise_if bind]; [|reflexivity].
  destruct (t mod output_size_x c =? 0); cbn [negb raise_if bind]; [|reflexivity].
  destruct (_ >? _); cbn [raise_if bind]; reflexivity.
Qed.

(** ** The PE count of the tiled convolution *)

(** Claim C1 as stated fails: a caller asks for 10 processing elements
    where K = 9; construction succeeds with P = 8 and raises nothing. *)
Lemma tiled_oversized_pe_not_rejected :
  ~ (forall (c : ConvNode) (tiles : option Z) (p : Z),
       well_formed c ->
       p > num_channels c * filter_hx c * filter_hy c ->
       ConvTiled.forward c tiles (Some p) = Raise ValueError_too_many_PEs).
Proof.
  intros H.
  specialize (H conv_3x3_same_4x4 None 10).
  assert (Hwf : well_formed conv_3x3_same_4x4)
    by (unfold well_formed; cbn; lia).
  specialize (H Hwf ltac:(cbn; lia)).
  vm_compute in H. discriminate H.
Qed.

(** Claim C1, amended.  For a well-formed node, a caller-supplied PE count
    [p >= 1] is clamped to [max (K - 1) 1] when it exceeds K and kept
    unchanged otherwise; the check [P > K] then never raises, and
    construction returns what a direct request for the clamped count
    returns.  When the vector widths and the tile size pass their own
    checks construction succeeds with that PE count, and the line "Using P
    PEs", printed for every request, reports the clamped value. *)
Theorem tiled_pe_override_clamped_or_kept
    (c : ConvNode) (tiles : option Z) (p : Z) :
  well_formed c ->
  1 <= p ->
  let K := num_channels c * filter_hx c * filter_hy c in
  let t := ConvTiled.tile_size c
             (match tiles with Some t => t | None => ConvTiled.tiles_default end) in
  let clamped := if p >? K then Z.max (K - 1) 1 else p in
  ConvTiled.num_PEs c (Some p) = clamped /\
  (K < p -> 1 <= clamped < p /\ clamped <= K) /\
  (p <= K -> clamped = p) /\
  ConvTiled.forward c tiles (Some p) <> Raise ValueError_too_many_PEs /\
  ConvTiled.forward c tiles (Some p) = ConvTiled.forward c tiles (Some clamped) /\
  (veclen_W c = 1 -> veclen_X c = veclen_Y c -> fst t mod output_size_x c = 0 ->
   exists pl,
     ConvTiled.forward c tiles (Some p) = Ok pl /\
     ConvTiled.P pl = clamped /\
     ConvTiled.log pl = Using_PEs clamped (num_filters c) :: snd t).
Proof.
  intros Hwf Hp K t clamped.
  pose proof (num_PEs_le_K c (Some p) Hwf) as Hle.
  pose proof (well_formed_K_pos c Hwf) as HKpos.
  rewrite <- (K_orders_agree c) in HKpos. fold K in HKpos.
  assert (HP : ConvTiled.num_PEs c (Some p) = clamped).
  { unfold ConvTiled.num_PEs, py_not, clamped, K.
    destruct (p =? 0) eqn:E0; [apply Z.eqb_eq in E0; lia|].
    rewrite (K_orders_agree c). reflexivity. }
  assert (Hclamp : (K < p -> 1 <= clamped < p /\ clamped <= K) /\
                   (p <= K -> clamped = p)).
  { unfold clamped. rewrite Z.gtb_ltb.
    destruct (Z.ltb_spec K p); split; intros; lia. }
  assert (HP' : ConvTiled.num_PEs c (Some clamped) = clamped).
  { unfold ConvTiled.num_PEs, py_not.
    destruct (clamped =? 0) eqn:E0;
      [apply Z.eqb_eq in E0; destruct Hclamp; lia|].
    rewrite <- (K_orders_agree c). fold K. rewrite Z.gtb_ltb.
    destruct (Z.ltb_spec K clamped); [destruct Hclamp; lia | reflexivity]. }
  assert (Hgt : (ConvTiled.num_PEs c (Some p)
                 >? filter_hx c * filter_hy c * num_channels c) = false).
  { rewrite Z.gtb_ltb. apply Z.ltb_ge. exact Hle. }
  split; [exact HP|]. split; [apply Hclamp|]. split; [apply Hclamp|].
  split; [|split].
  - rewrite tiled_forward_checks. cbv zeta. rewrite Hgt.
    destruct (veclen_W c >? 1); [discriminate|].
    destruct (negb _); [discriminate|].
    destruct (negb _); discriminate.
  - rewrite !tiled_forward_checks. cbv zeta. rewrite HP, HP'. reflexivity.
  - intros HW HX HT.
    rewrite tiled_forward_checks. cbv zeta. fold t.
    rewrite Hgt, HW, HX, Z.eqb_refl, HT. cbn.
    eexists. split; [reflexivity|]. cbn. rewrite HP. split; reflexivity.
Qed.

Lemma tiled_pe_override_clamped_or_kept_witness :
  ConvTiled.num_PEs conv_3x3_same_4x4 (Some 10) = 8 /\
  ConvTiled.forward conv_3x3_same_4x4 None (Some 10)
    <> Raise ValueError_too_many_PEs /\
  ConvTiled.forward conv_3x3_same_4x4 None (Some 10)
  = ConvTiled.forward conv_3x3_same_4x4 None (Some 8).
Proof.
  assert (Hwf : well_formed conv_3x3_same_4x4)
    by (unfold well_formed; cbn; lia).
  destruct (tiled_pe_override_clamped_or_kept conv_3x3_same_4x4 None 10 Hwf
              ltac:(lia)) as (H1 & _ & _ & H2 & H3 & _).
  split; [exact H1 | split; [exact H2 | exact H3]].
Defined.

(** ** The tile size of the tiled convolution *)

(** Claim C4 as stated fails: without a [tiles] argument and M = 512 the
    tile is 256 columns wide, not M. *)
Lemma tiled_default_tile_is_not_M :
  exists pl,
    ConvTiled.forward conv_3x3_wide None None = Ok pl /\
    ConvTiled.M pl = 512 /\ ConvTiled.T pl = 256 /\
    ConvTiled.T pl <> ConvTiled.M pl.
Proof.
  eexists. split; [vm_compute; reflexivity|].
  cbn. repeat split. discriminate.
Qed.

Lemma lcm_multiple_r (a b : Z) : Z.lcm a b mod b = 0.
Proof.
  destruct (Z.eq_dec b 0) as [->|Hb].
  - rewrite Z.lcm_0_r. reflexivity.
  - apply Z.mod_divide; [exact Hb|]. apply Z.divide_lcm_r.
Qed.

(** The tile size is a multiple of the vector width of Y. *)
Lemma tile_size_multiple_of_veclen (c : ConvNode) (tiles : Z) :
  fst (ConvTiled.tile_size c tiles) mod veclen_Y c = 0.
Proof.
  unfold ConvTiled.tile_size.
  destruct (negb _) eqn:E; cbn [fst].
  - apply lcm_multiple_r.
  - apply negb_false_iff in E. apply Z.eqb_eq in E. exact E.
Qed.

(** The least common multiple with a divisor is the number itself. *)
Lemma lcm_of_multiple (a b : Z) : 0 <= a -> 1 <= b -> a mod b = 0 -> Z.lcm a b = a.
Proof.
  intros Ha Hb Hm.
  apply Z.mod_divide in Hm; [|lia].
  rewrite Z.lcm_comm. apply Z.divide_lcm_iff; assumption.
Qed.

(** Claim C4, amended.  The tile width starts from [min tiles M], where
    [tiles] is 256 when the caller gives none, and is raised to the vector
    width when it is smaller; whenever that value is not a multiple of the
    vector width it is replaced by their least common multiple, and it is
    left alone otherwise.  Without a [tiles] argument it is therefore M
    whenever M <= 256, and the least common multiple of [max 256 veclen]
    and the vector width when M > 256, which is 256 when the vector width
    divides 256. *)
Theorem tiled_tile_size_default_and_lcm (c : ConvNode) (tiles : option Z) :
  let M := output_size_y c * veclen_Y c * output_size_x c in
  let requested := match tiles with Some t => t | None => 256 end in
  let t0 := Z.max (Z.min requested M) (veclen_Y c) in
  let T := fst (ConvTiled.tile_size c
                  (match tiles with Some t => t | None => ConvTiled.tiles_default end)) in
  (t0 mod veclen_Y c <> 0 -> T = Z.lcm t0 (veclen_Y c)) /\
  (t0 mod veclen_Y c = 0 -> T = t0) /\
  T mod veclen_Y c = 0 /\
  (tiles = None -> 1 <= veclen_Y c -> 1 <= output_size_y c * output_size_x c ->
   (M <= 256 -> T = M) /\
   (256 < M -> T = Z.lcm (Z.max 256 (veclen_Y c)) (veclen_Y c)) /\
   (256 < M -> 256 mod veclen_Y c = 0 -> T = 256)).
Proof.
  intros M requested t0 T.
  assert (Ht0 : forall r,
             (if veclen_Y c >? Z.min r M then veclen_Y c else Z.min r M)
             = Z.max (Z.min r M) (veclen_Y c)).
  { intros r. rewrite Z.gtb_ltb. destruct (Z.ltb_spec (Z.min r M) (veclen_Y c)); lia. }
  assert (HT : T = if negb (t0 mod veclen_Y c =? 0)
                   then Z.lcm t0 (veclen_Y c) else t0).
  { unfold T, ConvTiled.tile_size. fold M.
    rewrite Ht0. unfold t0, requested, ConvTiled.tiles_default.
    destruct (negb _); reflexivity. }
  assert (Hmul : T mod veclen_Y c = 0) by apply tile_size_multiple_of_veclen.
  split; [|split; [|split; [exact Hmul|]]].
  - intros Hne. rewrite HT. apply Z.eqb_neq in Hne. rewrite Hne. reflexivity.
  - intros He. rewrite HT. apply Z.eqb_eq in He. rewrite He. reflexivity.
  - intros Hnone Hv Hxy. subst tiles.
    assert (Hlcm : T = Z.lcm t0 (veclen_Y c)).
    { rewrite HT. destruct (Z.eqb_spec (t0 mod veclen_Y c) 0) as [E|E];
        cbn [negb]; [|reflexivity].
      symmetry. apply lcm_of_multiple; [unfold t0; lia | exact Hv | exact E]. }
    split; [|split].
    + intros HM.
      assert (HtM : t0 = M).
      { unfold t0, requested. unfold M in *. nia. }
      rewrite HT, HtM.
      assert (HMmod : M mod veclen_Y c = 0).
      { unfold M. replace (output_size_y c * veclen_Y c * output_size_x c)
          with (output_size_y c * output_size_x c * veclen_Y c) by ring.
        apply Z.mod_mul. lia. }
      rewrite HMmod. reflexivity.
    + intros HM. rewrite Hlcm. f_equal. unfold t0, requested. lia.
    + intros HM Hdiv.
      assert (Hle : veclen_Y c <= 256).
      { apply Z.mod_divide in Hdiv; [|lia]. apply Z.divide_pos_le; [lia|exact Hdiv]. }
      assert (Ht256 : t0 = 256) by (unfold t0, requested; lia).
      rewrite HT, Ht256, Hdiv. reflexivity.
Qed.

Lemma tiled_tile_size_default_and_lcm_witness :
  fst (ConvTiled.tile_size conv_3x3_wide ConvTiled.tiles_default) = 256 /\
  fst (ConvTiled.tile_size conv_3x3_same_4x4 ConvTiled.tiles_default) = 16.
Proof.
  split.
  - destruct (tiled_tile_size_default_and_lcm conv_3x3_wide None)
      as (_ & H & _).
    exact (H eq_refl).
  - destruct (tiled_tile_size_default_and_lcm conv_3x3_same_4x4 None)
      as (_ & _ & _ & H).
    destruct (H eq_refl ltac:(cbn; lia) ltac:(cbn; lia)) as (HM & _).
    apply HM. cbn. lia.
Defined.

(** ** The automatically derived PE count *)

(** Claim C3 as stated fails: with six filters and K = 9 the untiled and
    the tiled convolution both derive P = 6, which is not gcd(6, 16) = 2
    and does not divide 9. *)
Lemma conv_auto_P_does_not_divide_K :
  Conv.P (Conv.forward conv_3x3_six_filters None) = 6 /\
  Conv.K (Conv.forward conv_3x3_six_filters None) = 9 /\
  ConvTiled.num_PEs conv_3x3_six_filters None = 6 /\
  Z.gcd (num_filters conv_3x3_six_filters) 16 <> 6 /\
  ~ (Conv.P (Conv.forward conv_3x3_six_filters None)
     | Conv.K (Conv.forward conv_3x3_six_filters None)).
Proof.
  repeat split; try reflexivity.
  - vm_compute. discriminate.
  - cbn. intros [x Hx]. lia.
Qed.

(** [FPGAGemm] stops at gcd(N, 16): for N = 16 and K = 3 it derives
    sixteen processing elements. *)
Lemma gemm_auto_P_not_reduced :
  Gemm.P (Gemm.forward 16 3 8) = 16 /\ ~ (Gemm.P (Gemm.forward 16 3 8) | 3).
Proof.
  split; [reflexivity|]. cbn. intros [x Hx]. lia.
Qed.

(** Claim C3, amended.  In the two systolic MatMul lowerings the PE count
    is gcd(K, gcd(N, 16)), with N * BATCH in place of N where the first two
    axes of A are collated; whenever the validity assertion [K <= P * T]
    holds, construction returns that count, and it divides K, the row
    count it was derived from and 16.  The convolution lowerings instead
    start from the number of filters. *)
Theorem matmul_auto_P_divides_K (BATCH N K M : Z) :
  (K <= Z.gcd K (Z.gcd N 16) * M ->
   exists pl,
     MatMul.forward_batched BATCH N K M = Ok pl /\
     MatMul.P pl = Z.gcd K (Z.gcd N 16) /\
     (MatMul.P pl | K) /\ (MatMul.P pl | N) /\ (MatMul.P pl | 16)) /\
  (K <= Z.gcd K (Z.gcd (N * BATCH) 16) * M ->
   exists pl,
     MatMul.forward_collated BATCH N K M = Ok pl /\
     MatMul.P pl = Z.gcd K (Z.gcd (N * BATCH) 16) /\
     (MatMul.P pl | K) /\ (MatMul.P pl | N * BATCH) /\ (MatMul.P pl | 16)) /\
  (forall c : ConvNode,
     Conv.P (Conv.forward c None) = num_filters c /\
     ConvTiled.num_PEs c None =
       (if num_filters c >? filter_hx c * filter_hy c * num_channels c
        then Z.max (filter_hx c * filter_hy c * num_channels c - 1) 1
        else num_filters c)).
Proof.
  assert (Hdiv : forall a b, (Z.gcd a (Z.gcd b 16) | a) /\
                             (Z.gcd a (Z.gcd b 16) | b) /\
                             (Z.gcd a (Z.gcd b 16) | 16)).
  { intros a b. split; [apply Z.gcd_divide_l|].
    split; (eapply Z.divide_trans; [apply Z.gcd_divide_r|]).
    - apply Z.gcd_divide_l.
    - apply Z.gcd_divide_r. }
  split; [|split].
  - intros Hle. unfold MatMul.forward_batched.
    apply Z.leb_le in Hle. rewrite Hle. cbn [negb raise_if bind].
    eexists. split; [reflexivity|]. cbn [MatMul.P].
    split; [reflexivity|]. apply Hdiv.
  - intros Hle. unfold MatMul.forward_collated.
    apply Z.leb_le in Hle. rewrite Hle. cbn [negb raise_if bind].
    eexists. split; [reflexivity|]. cbn [MatMul.P].
    split; [reflexivity|]. apply Hdiv.
  - intros c. split; reflexivity.
Qed.

Lemma matmul_auto_P_divides_K_witness :
  exists pl,
    MatMul.forward_batched 8 16 32 64 = Ok pl /\
    MatMul.P pl = Z.gcd 32 (Z.gcd 16 16) /\
    (MatMul.P pl | 32) /\ (MatMul.P pl | 16) /\ (MatMul.P pl | 16).
Proof.
  destruct (matmul_auto_P_divides_K 8 16 32 64) as (H & _).
  apply H. vm_compute. discriminate.
Defined.

(** ** The compute-and-drain tasklet *)

Section Tasklet.
Context {V : Type} `{Arith V}.

(** Outside the drain phase and past the safe delay, the local [result] of
    the tiled tasklet is the sum computed in this very cycle. *)
Lemma result_of_fresh (pl : ConvTiled.Plan) (it : iterators)
    (a_in b_in c_in c_init_data : V) :
  it_m it >= ConvTiled.L pl -> it_drain it = false ->
  ConvTiled.result_of pl it a_in b_in c_in c_init_data
  = vadd (if it_k it =? 0 then c_init_data else c_in) (vmul a_in b_in).
Proof.
  intros Hm Hd. unfold ConvTiled.result_of.
  rewrite Hd. destruct (Z.geb_spec (it_m it) (ConvTiled.L pl)); [reflexivity|lia].
Qed.



End Tasklet.




(** ** Loop nests *)

Lemma length_range (n : Z) : length (range n) = Z.to_nat n.
Proof. unfold range. rewrite length_map, length_seq. reflexivity. Qed.

Lemma nth_error_range (n i : Z) :
  0 <= i < n -> nth_error (range n) (Z.to_nat i) = Some i.
Proof.
  intros Hi. unfold range.
  rewrite nth_error_map.
  assert (Hlt : (Z.to_nat i < Z.to_nat n)%nat) by lia.
  rewrite (nth_error_nth' _ 0%nat) by (rewrite length_seq; exact Hlt).
  rewrite seq_nth by exact Hlt. cbn. f_equal. lia.
Qed.

Lemma in_range (n i : Z) : In i (range n) <-> 0 <= i < n.
Proof.
  unfold range. rewrite in_map_iff. split.
  - intros (j & <- & Hj). apply in_seq in Hj. lia.
  - intros Hi. exists (Z.to_nat i). split; [lia|]. apply in_seq. lia.
Qed.

(** In a concatenation of blocks of one common length [c], element [j] of
    block [i] sits at position [i * c + j]. *)
Lemma nth_error_flat_map_blocks {A B : Type} (f : A -> list B) (c : nat)
    (l : list A) :
  (forall x, In x l -> length (f x) = c) ->
  forall (i j : nat) (x : A),
    nth_error l i = Some x -> (j < c)%nat ->
    nth_error (flat_map f l) (i * c + j) = nth_error (f x) j.
Proof.
  induction l as [|a l IH]; intros Hlen i j x Hi Hj.
  - destruct i; discriminate Hi.
  - cbn [flat_map]. destruct i as [|i].
    + cbn in Hi. injection Hi as ->. cbn [Nat.mul Nat.add].
      apply nth_error_app1. rewrite (Hlen x (or_introl eq_refl)). exact Hj.
    + cbn in Hi.
      rewrite nth_error_app2 by (rewrite (Hlen a (or_introl eq_refl)); lia).
      rewrite (Hlen a (or_introl eq_refl)).
      replace (S i * c + j - c)%nat with (i * c + j)%nat by lia.
      apply IH; [|exact Hi|exact Hj].
      intros y Hy. apply Hlen. right. exact Hy.
Qed.

Lemma length_flat_map_blocks {A B : Type} (f : A -> list B) (c : nat)
    (l : list A) :
  (forall x, In x l -> length (f x) = c) ->
  length (flat_map f l) = (length l * c)%nat.
Proof.
  induction l as [|a l IH]; intros Hlen; [reflexivity|].
  cbn [flat_map length]. rewrite length_app, (Hlen a (or_introl eq_refl)).
  rewrite IH by (intros y Hy; apply Hlen; right; exact Hy). lia.
Qed.

Lemma block_position_lt (i j c n : nat) :
  (i < n)%nat -> (j < c)%nat -> (i * c + j < n * c)%nat.
Proof. intros Hi Hj. nia. Qed.

(** The same two facts for a range of [Z] indices. *)
Lemma nth_error_flat_map_range {B : Type} (f : Z -> list B) (c : nat) (n : Z) :
  (forall i, 0 <= i < n -> length (f i) = c) ->
  forall (i : Z) (j : nat),
    0 <= i < n -> (j < c)%nat ->
    nth_error (flat_map f (range n)) (Z.to_nat i * c + j) = nth_error (f i) j.
Proof.
  intros Hlen i j Hi Hj.
  apply nth_error_flat_map_blocks.
  - intros x Hx. apply Hlen. apply in_range. exact Hx.
  - apply nth_error_range. exact Hi.
  - exact Hj.
Qed.

Lemma length_flat_map_range {B : Type} (f : Z -> list B) (c : nat) (n : Z) :
  (forall i, 0 <= i < n -> length (f i) = c) ->
  length (flat_map f (range n)) = (Z.to_nat n * c)%nat.
Proof.
  intros Hlen. rewrite <- length_range.
  apply length_flat_map_blocks.
  intros x Hx. apply Hlen. apply in_range. exact Hx.
Qed.

(** The number of index vectors of a nest is the product of its extents. *)
Lemma length_loop_nest (exts : list Z) :
  Forall (fun n => 0 <= n) exts ->
  Z.of_nat (length (loop_nest exts)) = fold_right Z.mul 1 exts.
Proof.
  induction exts as [|n rest IH]; intros Hpos; [reflexivity|].
  inversion Hpos as [|? ? Hn Hrest]; subst.
  cbn [loop_nest fold_right].
  rewrite (length_flat_map_range _ (length (loop_nest rest))).
  - rewrite Nat2Z.inj_mul, IH by exact Hrest.
    rewrite Z2Nat.id by exact Hn. reflexivity.
  - intros i _. apply length_map.
Qed.

(** A nest over [outer ++ inner] runs the whole inner nest once for every
    index vector of the outer one. *)
Lemma loop_nest_app (outer inner : list Z) :
  loop_nest (outer ++ inner)
  = flat_map (fun pre => map (app pre) (loop_nest inner)) (loop_nest outer).
Proof.
  induction outer as [|n rest IH].
  - cbn. rewrite app_nil_r. symmetry. apply map_id.
  - cbn [app loop_nest]. rewrite IH.
    induction (range n) as [|i r IHr]; [reflexivity|].
    cbn [flat_map]. rewrite flat_map_app, <- IHr. f_equal.
    clear IHr IH.
    induction (loop_nest rest) as [|pre l IHl]; [reflexivity|].
    cbn [flat_map map]. rewrite map_app, IHl, map_map. reflexivity.
Qed.

(** ** The stationary-operand feeder *)

Section Feeder.
Context {V : Type} `{Arith V}.
Variables (c : ConvNode) (pl : ConvTiled.Plan) (W : address -> V).

Lemma length_read_A_row (n0 k : Z) :
  length (map (fun n1 => ConvTiled.read_A_emit c pl W n0 k n1)
            (range (ConvTiled.P pl)))
  = Z.to_nat (ConvTiled.P pl).
Proof. rewrite length_map. apply length_range. Qed.

Lemma length_read_A_tile (b n0 tm : Z) :
  length (ConvTiled.read_A_tile c pl W b n0 tm)
  = (Z.to_nat (ConvTiled.K pl) * Z.to_nat (ConvTiled.P pl))%nat.
Proof.
  unfold ConvTiled.read_A_tile. apply length_flat_map_range.
  intros k _. apply length_read_A_row.
Qed.

Lemma nth_error_read_A_tile (b n0 tm k n1 : Z) :
  0 <= k < ConvTiled.K pl -> 0 <= n1 < ConvTiled.P pl ->
  nth_error (ConvTiled.read_A_tile c pl W b n0 tm)
    (Z.to_nat k * Z.to_nat (ConvTiled.P pl) + Z.to_nat n1)
  = Some (ConvTiled.read_A_emit c pl W n0 k n1).
Proof.
  intros Hk Hn1. unfold ConvTiled.read_A_tile.
  rewrite (nth_error_flat_map_range _ (Z.to_nat (ConvTiled.P pl)))
    by (try (intros; apply length_read_A_row); lia).
  rewrite nth_error_map, nth_error_range by exact Hn1. reflexivity.
Qed.

(** The contraction index splits into channel, kernel row and kernel
    column, each within its extent. *)
Lemma contraction_index_split (k : Z) :
  1 <= filter_hx c -> 1 <= filter_hy c ->
  0 <= k < filter_hx c * filter_hy c * num_channels c ->
  let ch := k / (filter_hx c * filter_hy c) in
  let row := (k mod (filter_hx c * filter_hy c)) / filter_hx c in
  let col := (k mod (filter_hx c * filter_hy c)) mod filter_hx c in
  k = ch * (filter_hx c * filter_hy c) + row * filter_hx c + col /\
  0 <= ch < num_channels c /\ 0 <= row < filter_hy c /\ 0 <= col < filter_hx c.
Proof.
  intros Hx Hy Hk ch row col.
  set (a := filter_hx c * filter_hy c) in *.
  assert (Ha : 0 < a) by (unfold a; nia).
  pose proof (Z.div_mod k a ltac:(lia)) as E1.
  pose proof (Z.mod_pos_bound k a Ha) as B1.
  pose proof (Z.div_mod (k mod a) (filter_hx c) ltac:(lia)) as E2.
  pose proof (Z.mod_pos_bound (k mod a) (filter_hx c) ltac:(lia)) as B2.
  fold ch in E1. fold row col in E2. fold col in B2.
  assert (Hrow0 : 0 <= row) by (apply Z.div_pos; lia).
  assert (Hrow1 : row < filter_hy c).
  { apply Z.div_lt_upper_bound; [lia|]. exact (proj2 B1). }
  assert (Hch0 : 0 <= ch) by (apply Z.div_pos; lia).
  assert (Hch1 : ch < num_channels c).
  { apply Z.div_lt_upper_bound; [lia|]. lia. }
  repeat split; try lia.
Qed.

End Feeder.

(** Claim C8.  Within every batch image the feeder of the tiled
    convolution writes to [A_pipe] in the nested order (n0, tile, k, n1):
    the write for the indices [(b, n0, tm, k, n1)] is the one at position
    [(((b * N0 + n0) * TM + tm) * K + k) * P + n1] of its output, where N0
    and TM are the numbers of row blocks and of tiles.  The block written
    for a tile does not depend on the tile, so the weights are sent once
    per tile.  The weight read for contraction index [k] is the one at
    channel [k div (Hx * Hy)], kernel row [(k mod (Hx * Hy)) div Hx] and
    kernel column [(k mod (Hx * Hy)) mod Hx], and these three recompose
    to [k]. *)
Theorem read_A_order_and_decomposition
    {V : Type} `{Arith V} (c : ConvNode) (pl : ConvTiled.Plan)
    (W : address -> V) (b n0 tm k n1 : Z) :
  1 <= filter_hx c -> 1 <= filter_hy c ->
  ConvTiled.K pl = filter_hx c * filter_hy c * num_channels c ->
  0 <= b < batch_size c ->
  0 <= n0 < ceiling_div (ConvTiled.N pl) (ConvTiled.P pl) ->
  0 <= tm < ceiling_div (ConvTiled.M pl) (ConvTiled.T pl) ->
  0 <= k < ConvTiled.K pl ->
  0 <= n1 < ConvTiled.P pl ->
  let N0 := ceiling_div (ConvTiled.N pl) (ConvTiled.P pl) in
  let TM := ceiling_div (ConvTiled.M pl) (ConvTiled.T pl) in
  let Hx := filter_hx c in
  let Hy := filter_hy c in
  nth_error (ConvTiled.read_A c pl W)
    (Z.to_nat ((((b * N0 + n0) * TM + tm) * ConvTiled.K pl + k) * ConvTiled.P pl + n1))
  = Some (ConvTiled.P pl - n1 - 1,
          if n0 * ConvTiled.P pl + n1 <? ConvTiled.N pl
          then W (n0 * ConvTiled.P pl + n1,
                  k / (Hx * Hy), (k mod (Hx * Hy)) / Hx, (k mod (Hx * Hy)) mod Hx)
          else vzero) /\
  Z.of_nat (length (ConvTiled.read_A c pl W))
  = batch_size c * N0 * TM * ConvTiled.K pl * ConvTiled.P pl /\
  (forall tm', ConvTiled.read_A_tile c pl W b n0 tm'
               = ConvTiled.read_A_tile c pl W b n0 tm) /\
  k = (k / (Hx * Hy)) * (Hx * Hy) + ((k mod (Hx * Hy)) / Hx) * Hx
      + (k mod (Hx * Hy)) mod Hx /\
  0 <= k / (Hx * Hy) < num_channels c /\
  0 <= (k mod (Hx * Hy)) / Hx < Hy /\
  0 <= (k mod (Hx * Hy)) mod Hx < Hx.
Proof.
  intros HHx HHy HK Hb Hn0 Htm Hk Hn1 N0 TM Hx Hy.
  set (Pn := Z.to_nat (ConvTiled.P pl)).
  set (Kn := Z.to_nat (ConvTiled.K pl)).
  set (TMn := Z.to_nat TM).
  set (N0n := Z.to_nat N0).
  assert (Ltm : forall b' n0' tm',
            length (ConvTiled.read_A_tile c pl W b' n0' tm') = (Kn * Pn)%nat)
    by (intros; apply length_read_A_tile).
  assert (Ln0 : forall b' n0',
            length (flat_map (fun tm' => ConvTiled.read_A_tile c pl W b' n0' tm')
                      (range TM)) = (TMn * (Kn * Pn))%nat)
    by (intros; apply length_flat_map_range; intros; apply Ltm).
  assert (Lb : forall b',
            length (flat_map (fun n0' =>
                      flat_map (fun tm' => ConvTiled.read_A_tile c pl W b' n0' tm')
                        (range TM)) (range N0)) = (N0n * (TMn * (Kn * Pn)))%nat)
    by (intros; apply length_flat_map_range; intros; apply Ln0).
  split; [|split; [|split]].
  - replace (Z.to_nat ((((b * N0 + n0) * TM + tm) * ConvTiled.K pl + k)
                        * ConvTiled.P pl + n1))
      with (Z.to_nat b * (N0n * (TMn * (Kn * Pn)))
            + (Z.to_nat n0 * (TMn * (Kn * Pn))
               + (Z.to_nat tm * (Kn * Pn)
                  + (Z.to_nat k * Pn + Z.to_nat n1))))%nat.
    2:{ apply Nat2Z.inj. subst Pn Kn TMn N0n.
        rewrite Z2Nat.id
          by (repeat first [apply Z.add_nonneg_nonneg | apply Z.mul_nonneg_nonneg]; lia).
        rewrite !Nat2Z.inj_add, !Nat2Z.inj_mul, !Z2Nat.id by lia. ring. }
    unfold ConvTiled.read_A. fold N0 TM.
    rewrite (nth_error_flat_map_range _ (N0n * (TMn * (Kn * Pn)))); try assumption.
    2:{ intros; apply Lb. }
    2:{ subst Pn Kn TMn N0n.
        repeat (apply block_position_lt; [lia|]). lia. }
    rewrite (nth_error_flat_map_range _ (TMn * (Kn * Pn))); try assumption.
    2:{ intros; apply Ln0. }
    2:{ subst Pn Kn TMn.
        repeat (apply block_position_lt; [lia|]). lia. }
    rewrite (nth_error_flat_map_range _ (Kn * Pn)); try assumption.
    2:{ intros; apply Ltm. }
    2:{ subst Pn Kn.
        repeat (apply block_position_lt; [lia|]). lia. }
    apply nth_error_read_A_tile; assumption.
  - unfold ConvTiled.read_A. fold N0 TM.
    rewrite (length_flat_map_range _ (N0n * (TMn * (Kn * Pn))))
      by (intros; apply Lb).
    subst Pn Kn TMn N0n.
    rewrite !Nat2Z.inj_mul, !Z2Nat.id by lia. ring.
  - intros tm'. reflexivity.
  - rewrite HK in Hk.
    destruct (contraction_index_split c k HHx HHy Hk) as (E & B1 & B2 & B3).
    repeat split; solve [exact E | apply B1 | apply B2 | apply B3].
Qed.

Lemma read_A_order_and_decomposition_witness :
  nth_error (ConvTiled.read_A conv_3x3_same_4x4 plan_two_PEs weights_by_index) 11
  = Some (0, 1012).
Proof.
  destruct (read_A_order_and_decomposition conv_3x3_same_4x4 plan_two_PEs
              weights_by_index 0 0 0 5 1
              ltac:(cbn; lia) ltac:(cbn; lia) eq_refl
              ltac:(cbn; lia) ltac:(cbn; lia) ltac:(cbn; lia)
              ltac:(cbn; lia) ltac:(cbn; lia))
    as (Hnth & _).
  exact Hnth.
Defined.

(** ** The output collector *)

(** Claim C9.  For a drained value received at the indices
    [(b, n0, tm, n1, m)], the collector addresses row [n0 * P + n1] and
    column [tm * T + m * vec_width] of the result matrix.  When the row is
    below N and the column below M it writes the value, plus the bias of
    that row when the node has a bias, at the position of Y that the
    column unfolds to: line [col div width], vector [(col mod width) div
    vec_width].  When the row or the column is outside it writes
    nothing. *)
Theorem write_C_address_bias_and_guard
    {V : Type} `{Arith V} (c : ConvNode) (pl : ConvTiled.Plan)
    (B : option (Z -> V)) (b n0 tm n1 m : Z) (from_kernel : V) :
  1 <= output_size_x c ->
  let row := n0 * ConvTiled.P pl + n1 in
  let col := tm * ConvTiled.T pl + m * veclen_Y c in
  (row < ConvTiled.N pl /\ col < ConvTiled.M pl ->
     ConvTiled.write_C c pl B b n0 tm n1 m from_kernel
     = Some ((b, row, col / output_size_x c,
              (col mod output_size_x c) / veclen_Y c),
             match B with
             | Some bias => vadd from_kernel (bias row)
             | None => from_kernel
             end)) /\
  (ConvTiled.N pl <= row \/ ConvTiled.M pl <= col ->
     ConvTiled.write_C c pl B b n0 tm n1 m from_kernel = None) /\
  col = (col / output_size_x c) * output_size_x c + col mod output_size_x c /\
  0 <= col mod output_size_x c < output_size_x c.
Proof.
  intros Hox row col.
  unfold ConvTiled.write_C, ConvTiled.write_C_guard, ConvTiled.write_C_access.
  fold row col. cbv zeta.
  split; [|split; [|split]].
  - intros [Hr Hc].
    destruct (Z.ltb_spec col (ConvTiled.M pl)); [|lia].
    destruct (Z.ltb_spec row (ConvTiled.N pl)); [|lia].
    reflexivity.
  - intros Hout.
    destruct (Z.ltb_spec col (ConvTiled.M pl));
      destruct (Z.ltb_spec row (ConvTiled.N pl)); try reflexivity; lia.
  - rewrite Z.mul_comm. apply Z.div_mod. lia.
  - apply Z.mod_pos_bound. lia.
Qed.

Lemma write_C_address_bias_and_guard_witness :
  ConvTiled.write_C conv_3x3_same_4x4 plan_two_PEs (Some bias_by_index)
    0 0 0 1 6 7 = Some ((0, 1, 1, 2), 7 + 200) /\
  ConvTiled.write_C conv_3x3_same_4x4 plan_two_PEs (Some bias_by_index)
    0 1 0 0 6 7 = None.
Proof.
  split.
  - destruct (write_C_address_bias_and_guard conv_3x3_same_4x4 plan_two_PEs
                (Some bias_by_index) 0 0 0 1 6 7 ltac:(cbn; lia)) as (Hw & _).
    apply Hw. cbn. lia.
  - destruct (write_C_address_bias_and_guard conv_3x3_same_4x4 plan_two_PEs
                (Some bias_by_index) 0 1 0 0 6 7 ltac:(cbn; lia)) as (_ & Hn & _).
    apply Hn. cbn. lia.
Defined.

(** ** The trailing drain iterators *)

(** Quotient and remainder of a successor. *)
Lemma succ_div_mod (W i : Z) :
  1 <= W -> 0 <= i ->
  (i + 1) mod W = (if i mod W >=? W - 1 then 0 else i mod W + 1) /\
  (i + 1) / W = (if i mod W >=? W - 1 then i / W + 1 else i / W).
Proof.
  intros HW Hi.
  pose proof (Z.div_mod i W ltac:(lia)) as E.
  pose proof (Z.mod_pos_bound i W ltac:(lia)) as B.
  destruct (Z.geb_spec (i mod W) (W - 1)) as [Hge|Hlt].
  - assert (Hq : i + 1 = W * (i / W + 1) + 0) by lia.
    split.
    + symmetry. apply (Z.mod_unique_pos _ _ (i / W + 1)); [lia|exact Hq].
    + symmetry. apply (Z.div_unique_pos _ _ _ 0); [lia|exact Hq].
  - assert (Hq : i + 1 = W * (i / W) + (i mod W + 1)) by lia.
    split.
    + symmetry. apply (Z.mod_unique_pos _ _ (i / W)); [lia|exact Hq].
    + symmetry. apply (Z.div_unique_pos _ _ _ (i mod W + 1)); [lia|exact Hq].
Qed.

Section DrainIterators.
Variables (s : pipeline_scope) (K Tw L tiles : Z).
Hypothesis HK : 1 <= K.
Hypothesis HTw : 1 <= Tw.
Hypothesis HL : 0 <= L.
Hypothesis Htiles : 0 <= tiles.
Hypothesis Hiter : scope_iterations s = tiles * (K * (Tw + L)).

Lemma adjust_closed_step (W i : Z) (drain : bool) :
  1 <= W -> 0 <= i ->
  W = (if drain then Tw else L + Tw) ->
  adjust_draining_iterators K Tw L drain
    {| m_drain := i mod W; k_drain := (i / W) mod K |}
  = {| m_drain := (i + 1) mod W; k_drain := ((i + 1) / W) mod K |}.
Proof.
  intros HW Hi EW.
  destruct (succ_div_mod W i HW Hi) as (Em & Eq).
  assert (Hq : 0 <= i / W) by (apply Z.div_pos; lia).
  destruct (succ_div_mod K (i / W) HK Hq) as (Ek & _).
  unfold adjust_draining_iterators. cbn [m_drain k_drain].
  rewrite Em, Eq.
  destruct drain; cbn [negb]; subst W.
  - destruct (i mod Tw >=? Tw - 1); [rewrite Ek|]; reflexivity.
  - destruct (i mod (L + Tw) >=? L + Tw - 1); [rewrite Ek|]; reflexivity.
Qed.

Lemma scope_iterations_boundary :
  0 <= scope_iterations s /\
  scope_iterations s mod (Tw + L) = 0 /\
  (scope_iterations s / (Tw + L)) mod K = 0.
Proof.
  rewrite Hiter.
  replace (tiles * (K * (Tw + L))) with (tiles * K * (Tw + L)) by ring.
  split; [nia|]. split.
  - apply Z.mod_mul. lia.
  - rewrite Z.div_mul by lia. apply Z.mod_mul. lia.
Qed.

Lemma drain_iterators_at_closed (i : nat) :
  drain_iterators_at s K Tw L i = drain_iterators_closed s K Tw L (Z.of_nat i).
Proof.
  destruct scope_iterations_boundary as (HS0 & HSm & HSk).
  induction i as [|j IH].
  - cbn [drain_iterators_at]. unfold drain_iterators_closed.
    change (Z.of_nat 0) with 0.
    destruct (Z.ltb_spec 0 (scope_iterations s)).
    + rewrite Z.mod_0_l, Z.div_0_l, Z.mod_0_l by lia. reflexivity.
    + replace (0 - scope_iterations s) with 0 by lia.
      rewrite Z.mod_0_l, Z.div_0_l, Z.mod_0_l by lia. reflexivity.
  - cbn [drain_iterators_at]. rewrite IH.
    unfold drain_iterators_closed, drain_condition.
    rewrite Nat2Z.inj_succ, <- Z.add_1_r.
    set (n := Z.of_nat j). assert (Hn : 0 <= n) by lia.
    destruct (Z.ltb_spec n (scope_iterations s)) as [Hlt|Hge].
    + destruct (Z.leb_spec (scope_iterations s) n); [lia|].
      rewrite (adjust_closed_step (Tw + L) n false) by lia.
      destruct (Z.ltb_spec (n + 1) (scope_iterations s)); [reflexivity|].
      assert (En : n + 1 = scope_iterations s) by lia.
      rewrite En, HSm, HSk, Z.sub_diag.
      rewrite Z.mod_0_l, Z.div_0_l, Z.mod_0_l by lia. reflexivity.
    + destruct (Z.leb_spec (scope_iterations s) n); [|lia].
      rewrite (adjust_closed_step Tw (n - scope_iterations s) true) by lia.
      destruct (Z.ltb_spec (n + 1) (scope_iterations s)); [lia|].
      replace (n + 1 - scope_iterations s) with (n - scope_iterations s + 1) by lia.
      reflexivity.
Qed.

(** Ranges of the iterators at the start of every iteration. *)
Lemma drain_iterators_bounds (i : nat) :
  let d := drain_iterators_at s K Tw L i in
  0 <= k_drain d <= K - 1 /\
  (drain_condition s (Z.of_nat i) = false -> 0 <= m_drain d <= L + Tw - 1) /\
  (drain_condition s (Z.of_nat i) = true -> 0 <= m_drain d <= Tw - 1).
Proof.
  cbv zeta. rewrite drain_iterators_at_closed.
  unfold drain_iterators_closed, drain_condition.
  destruct (Z.ltb_spec (Z.of_nat i) (scope_iterations s)) as [Hlt|Hge];
    cbn [m_drain k_drain].
  - pose proof (Z.mod_pos_bound (Z.of_nat i / (Tw + L)) K ltac:(lia)).
    pose proof (Z.mod_pos_bound (Z.of_nat i) (Tw + L) ltac:(lia)).
    split; [lia|]. split; intros Hd; [lia|].
    apply Z.leb_le in Hd. lia.
  - pose proof (Z.mod_pos_bound ((Z.of_nat i - scope_iterations s) / Tw) K ltac:(lia)).
    pose proof (Z.mod_pos_bound (Z.of_nat i - scope_iterations s) Tw ltac:(lia)).
    split; [lia|]. split; intros Hd; [|lia].
    apply Z.leb_gt in Hd. lia.
Qed.

(** Every update either counts [m_drain] up, or resets it while
    [k_drain] counts up or wraps from [K - 1]; never both. *)
Lemma adjust_one_of_two (drain : bool) (d : drain_iterators) :
  0 <= m_drain d -> 0 <= k_drain d <= K - 1 ->
  let d' := adjust_draining_iterators K Tw L drain d in
  (m_drain d' = m_drain d + 1 /\ k_drain d' = k_drain d /\ m_drain d' <> 0) \/
  (m_drain d' = 0 /\ m_drain d' <> m_drain d + 1 /\
   ((k_drain d < K - 1 /\ k_drain d' = k_drain d + 1) \/
    (k_drain d = K - 1 /\ k_drain d' = 0))).
Proof.
  intros Hm Hk. cbv zeta. unfold adjust_draining_iterators.
  destruct drain; cbn [negb].
  - destruct (Z.geb_spec (m_drain d) (Tw - 1)); cbn [m_drain k_drain].
    + right. destruct (Z.geb_spec (k_drain d) (K - 1)); lia.
    + left. lia.
  - destruct (Z.geb_spec (m_drain d) (L + Tw - 1)); cbn [m_drain k_drain].
    + right. destruct (Z.geb_spec (k_drain d) (K - 1)); lia.
    + left. lia.
Qed.

End DrainIterators.

Lemma scope_iterations_tiled (c : ConvNode) (pl : ConvTiled.Plan) :
  scope_iterations (ConvTiled.compute_scope c pl)
  = (batch_size c * ceiling_div (ConvTiled.N pl) (ConvTiled.P pl)
     * ceiling_div (ConvTiled.M pl) (ConvTiled.T pl))
    * (ConvTiled.K pl * (ConvTiled.Tv c pl + ConvTiled.L pl)).
Proof. unfold scope_iterations. cbn. ring. Qed.

Lemma scope_iterations_untiled (c : ConvNode) (upl : Conv.Plan) :
  scope_iterations (Conv.compute_scope c upl)
  = (batch_size c * (num_filters c / Conv.P upl))
    * (Conv.K upl * (Conv.M upl + Conv.L upl)).
Proof. unfold scope_iterations. cbn. ring. Qed.

(** The invariant for any scope whose iteration count is a multiple of
    [K * (Tw + L)]. *)
Lemma drain_iterators_invariant (s : pipeline_scope) (K Tw L tiles : Z) (i : nat) :
  1 <= K -> 1 <= Tw -> 0 <= L -> 0 <= tiles ->
  scope_iterations s = tiles * (K * (Tw + L)) ->
  iterators_in_range s K Tw L i /\
  exactly_one_action K (drain_iterators_at s K Tw L i)
    (drain_iterators_at s K Tw L (S i)).
Proof.
  intros HK HTw HL Ht Hs.
  pose proof (drain_iterators_bounds s K Tw L tiles HK HTw HL Ht Hs i) as HB.
  cbv zeta in HB. destruct HB as (Hk & Hnd & Hd).
  split.
  - unfold iterators_in_range. split; [exact Hk|].
    destruct (drain_condition s (Z.of_nat i)); [apply Hd | apply Hnd]; reflexivity.
  - assert (Hm : 0 <= m_drain (drain_iterators_at s K Tw L i)).
    { destruct (drain_condition s (Z.of_nat i));
        [apply Hd | apply Hnd]; reflexivity. }
    cbn [drain_iterators_at].
    pose proof (adjust_one_of_two K Tw L (drain_condition s (Z.of_nat i))
                  (drain_iterators_at s K Tw L i) Hm Hk) as H1.
    cbv zeta in H1. unfold exactly_one_action, counts_up, wraps.
    destruct H1 as [(E1 & E2 & E3) | (E1 & E2 & E3)].
    + left. split; [split; assumption|]. intros [Z0 _]. contradiction.
    + right. split.
      * split; [exact E1|]. destruct E3 as [[_ E]|[Ea Eb]]; [left|right]; auto.
      * intros [Z0 _]. contradiction.
Qed.

(** Claim C10.  In both convolution lowerings, at the start of every
    iteration of the compute-and-drain pipeline [k_drain] lies in
    [0, K - 1] and [m_drain] lies in [0, L + T' - 1] outside the drain
    phase and in [0, T' - 1] inside it, where T' is the extent of the tile
    in vector units (M for the untiled lowering); and the update made in
    that iteration either adds one to [m_drain] and keeps [k_drain], or
    resets [m_drain] to zero while [k_drain] grows by one or wraps from
    [K - 1] to zero, and never both. *)
Theorem drain_iterators_stay_in_range
    (c : ConvNode) (pl : ConvTiled.Plan) (upl : Conv.Plan) (i : nat) :
  1 <= ConvTiled.K pl -> 1 <= ConvTiled.Tv c pl -> 0 <= ConvTiled.L pl ->
  0 <= batch_size c ->
  0 <= ceiling_div (ConvTiled.N pl) (ConvTiled.P pl) ->
  0 <= ceiling_div (ConvTiled.M pl) (ConvTiled.T pl) ->
  1 <= Conv.K upl -> 1 <= Conv.M upl -> 0 <= Conv.L upl ->
  0 <= num_filters c / Conv.P upl ->
  (iterators_in_range (ConvTiled.compute_scope c pl)
     (ConvTiled.K pl) (ConvTiled.Tv c pl) (ConvTiled.L pl) i /\
   exactly_one_action (ConvTiled.K pl)
     (drain_iterators_at (ConvTiled.compute_scope c pl)
        (ConvTiled.K pl) (ConvTiled.Tv c pl) (ConvTiled.L pl) i)
     (drain_iterators_at (ConvTiled.compute_scope c pl)
        (ConvTiled.K pl) (ConvTiled.Tv c pl) (ConvTiled.L pl) (S i))) /\
  (iterators_in_range (Conv.compute_scope c upl)
     (Conv.K upl) (Conv.M upl) (Conv.L upl) i /\
   exactly_one_action (Conv.K upl)
     (drain_iterators_at (Conv.compute_scope c upl)
        (Conv.K upl) (Conv.M upl) (Conv.L upl) i)
     (drain_iterators_at (Conv.compute_scope c upl)
        (Conv.K upl) (Conv.M upl) (Conv.L upl) (S i))).
Proof.
  intros HK HT HL Hb Hn Hm HuK HuM HuL Hun. split.
  - apply (drain_iterators_invariant _ _ _ _
             (batch_size c * ceiling_div (ConvTiled.N pl) (ConvTiled.P pl)
              * ceiling_div (ConvTiled.M pl) (ConvTiled.T pl)));
      try assumption.
    + apply Z.mul_nonneg_nonneg; [apply Z.mul_nonneg_nonneg|]; assumption.
    + apply scope_iterations_tiled.
  - apply (drain_iterators_invariant _ _ _ _
             (batch_size c * (num_filters c / Conv.P upl)));
      try assumption.
    + apply Z.mul_nonneg_nonneg; assumption.
    + apply scope_iterations_untiled.
Qed.

Lemma drain_iterators_stay_in_range_witness :
  iterators_in_range (ConvTiled.compute_scope conv_3x3_six_filters plan_two_PEs)
    9 16 0 20 /\
  iterators_in_range (Conv.compute_scope conv_3x3_six_filters untiled_plan_two_PEs)
    9 16 0 20.
Proof.
  destruct (drain_iterators_stay_in_range conv_3x3_six_filters plan_two_PEs
              untiled_plan_two_PEs 20
              ltac:(cbn; lia) ltac:(cbn; lia) ltac:(cbn; lia) ltac:(cbn; lia)
              ltac:(vm_compute; discriminate) ltac:(vm_compute; discriminate)
              ltac:(cbn; lia) ltac:(cbn; lia) ltac:(cbn; lia)
              ltac:(vm_compute; discriminate))
    as ((Ht & _) & (Hu & _)).
  split; [exact Ht | exact Hu].
Defined.

(** ** Cycles per tile *)

Lemma fold_right_mul_seed (l : list Z) (a : Z) :
  fold_right Z.mul a l = fold_right Z.mul 1 l * a.
Proof.
  induction l as [|n rest IH]; cbn [fold_right]; [ring|].
  rewrite IH. ring.
Qed.

Lemma ceiling_div_bounds (a b : Z) :
  1 <= b ->
  (ceiling_div a b - 1) * b < a <= ceiling_div a b * b.
Proof.
  intros Hb. unfold ceiling_div.
  pose proof (Z.div_mod (- a) b ltac:(lia)) as E.
  pose proof (Z.mod_pos_bound (- a) b ltac:(lia)) as B.
  nia.
Qed.

Lemma ceiling_div_pos (a b : Z) : 1 <= a -> 1 <= b -> 1 <= ceiling_div a b.
Proof.
  intros Ha Hb. pose proof (ceiling_div_bounds a b Hb). nia.
Qed.

Lemma tile_size_ge_veclen (c : ConvNode) (tiles : Z) :
  1 <= veclen_Y c -> veclen_Y c <= fst (ConvTiled.tile_size c tiles).
Proof.
  intros Hv. unfold ConvTiled.tile_size.
  set (M := output_size_y c * veclen_Y c * output_size_x c).
  set (t0 := if veclen_Y c >? Z.min tiles M then veclen_Y c else Z.min tiles M).
  assert (Ht0 : veclen_Y c <= t0).
  { unfold t0. destruct (Z.gtb_spec (veclen_Y c) (Z.min tiles M)); lia. }
  destruct (negb _); cbn [fst]; [|exact Ht0].
  pose proof (Z.lcm_nonneg t0 (veclen_Y c)) as Hnn.
  assert (Hne : Z.lcm t0 (veclen_Y c) <> 0).
  { intros E. apply Z.lcm_eq_0 in E. lia. }
  apply Z.divide_pos_le; [lia|]. apply Z.divide_lcm_r.
Qed.

(** ** The schedule of a compute-and-drain pipeline *)

(** Every index vector of a nest has one entry for each range, none of
    them negative, and only the first vector is all zeros. *)
Lemma loop_nest_entry (exts : list Z) :
  forall (q : nat) (o : list Z),
    nth_error (loop_nest exts) q = Some o ->
    length o = length exts /\ Forall (fun x => 0 <= x) o /\
    (Forall (fun x => x = 0) o <-> q = 0%nat).
Proof.
  induction exts as [|n rest IH]; intros q o Hq.
  - cbn in Hq. destruct q as [|q].
    + injection Hq as <-. repeat split; auto.
    + destruct q; discriminate Hq.
  - cbn [loop_nest] in Hq.
    set (c := length (loop_nest rest)) in *.
    assert (Hlen : forall i, 0 <= i < n ->
              length (map (cons i) (loop_nest rest)) = c)
      by (intros; apply length_map).
    assert (Hlt : (q < Z.to_nat n * c)%nat).
    { rewrite <- (length_flat_map_range _ c n Hlen).
      apply nth_error_Some. rewrite Hq. discriminate. }
    assert (Hc : (0 < c)%nat) by nia.
    pose proof (Nat.div_mod_eq q c) as Eq.
    pose proof (Nat.mod_upper_bound q c ltac:(lia)) as Hj.
    assert (Hi : (q / c < Z.to_nat n)%nat)
      by (apply Nat.Div0.div_lt_upper_bound; lia).
    pose proof (nth_error_flat_map_range
                  (fun i => map (cons i) (loop_nest rest)) c n Hlen
                  (Z.of_nat (q / c)) (q mod c) ltac:(lia) Hj) as E.
    rewrite Nat2Z.id in E.
    replace (q / c * c + q mod c)%nat with q in E by lia.
    rewrite E, nth_error_map in Hq.
    destruct (nth_error (loop_nest rest) (q mod c)) as [o'|] eqn:Eo;
      [|discriminate Hq].
    cbn in Hq. injection Hq as <-.
    destruct (IH _ _ Eo) as (Hl & Hnn & Hz).
    split; [cbn [length]; congruence|]. split.
    + constructor; [lia|exact Hnn].
    + split.
      * intros Hall. inversion Hall as [|? ? H0 Hrest']; subst.
        apply Hz in Hrest'. nia.
      * intros ->. rewrite Nat.Div0.div_0_l.
        constructor; [reflexivity|]. apply Hz.
        apply Nat.Div0.mod_0_l.
Qed.

(** The two innermost ranges [k] and [m] of a nest, of extents [K] and
    [W]: iteration [i] of the flattened nest belongs to tile [i / (K * W)]
    and has [k = (i / W) mod K], [m = i mod W]. *)
Lemma inner_indices_split (K W i : Z) :
  1 <= K -> 1 <= W -> 0 <= i ->
  (i mod (K * W)) / W = (i / W) mod K /\ (i mod (K * W)) mod W = i mod W.
Proof.
  intros HK HW Hi.
  rewrite (Z.mul_comm K W), Z.rem_mul_r by lia.
  pose proof (Z.mod_pos_bound i W ltac:(lia)) as Bm.
  pose proof (Z.mod_pos_bound (i / W) K ltac:(lia)) as Bk.
  split.
  - symmetry. apply (Z.div_unique_pos _ _ _ (i mod W)); [lia|ring].
  - symmetry. apply (Z.mod_unique_pos _ _ ((i / W) mod K)); [lia|ring].
Qed.

Lemma nth_error_loop_nest_pair (K W r : Z) :
  1 <= K -> 1 <= W -> 0 <= r < K * W ->
  nth_error (loop_nest [K; W]) (Z.to_nat r) = Some [r / W; r mod W].
Proof.
  intros HK HW Hr.
  pose proof (Z.div_mod r W ltac:(lia)) as E.
  pose proof (Z.mod_pos_bound r W ltac:(lia)) as Bm.
  assert (Bk : 0 <= r / W < K).
  { split; [apply Z.div_pos; lia|].
    apply Z.div_lt_upper_bound; lia. }
  assert (HlenW : length (loop_nest [W]) = Z.to_nat W).
  { apply Nat2Z.inj. rewrite length_loop_nest by (repeat constructor; lia).
    cbn. lia. }
  assert (EW : nth_error (loop_nest [W]) (Z.to_nat (r mod W)) = Some [r mod W]).
  { cbn [loop_nest].
    pose proof (nth_error_flat_map_range
                  (fun i => map (cons i) [[]]) 1 W
                  (fun _ _ => eq_refl) (r mod W) 0 Bm ltac:(lia)) as E1.
    replace (Z.to_nat (r mod W) * 1 + 0)%nat with (Z.to_nat (r mod W)) in E1 by lia.
    exact E1. }
  change (loop_nest [K; W])
    with (flat_map (fun i => map (cons i) (loop_nest [W])) (range K)).
  replace (Z.to_nat r)
    with (Z.to_nat (r / W) * Z.to_nat W + Z.to_nat (r mod W))%nat by nia.
  rewrite (nth_error_flat_map_range
             (fun i => map (cons i) (loop_nest [W])) (Z.to_nat W) K);
    [|intros; rewrite length_map; exact HlenW|exact Bk|lia].
  rewrite nth_error_map, EW. reflexivity.
Qed.

(** Iteration [i] of a nest whose two innermost ranges are [k] and [m]:
    the outer indices are those of tile [i / (K * W)]. *)
Lemma nth_error_loop_nest_tile (outer : list Z) (K W i : Z) :
  Forall (fun n => 0 <= n) outer -> 1 <= K -> 1 <= W ->
  0 <= i < fold_right Z.mul 1 outer * (K * W) ->
  exists o,
    nth_error (loop_nest outer) (Z.to_nat (i / (K * W))) = Some o /\
    nth_error (loop_nest (outer ++ [K; W])) (Z.to_nat i)
    = Some (o ++ [(i / W) mod K; i mod W]).
Proof.
  intros Ho HK HW Hi.
  assert (HKW : 1 <= K * W) by nia.
  pose proof (Z.div_mod i (K * W) ltac:(lia)) as E.
  pose proof (Z.mod_pos_bound i (K * W) ltac:(lia)) as Br.
  assert (Bq : 0 <= i / (K * W) < fold_right Z.mul 1 outer).
  { split; [apply Z.div_pos; lia|].
    apply Z.div_lt_upper_bound; lia. }
  pose proof (length_loop_nest outer Ho) as Hlen.
  destruct (nth_error (loop_nest outer) (Z.to_nat (i / (K * W)))) as [o|] eqn:Eo.
  2:{ apply nth_error_None in Eo. lia. }
  exists o. split; [reflexivity|].
  rewrite loop_nest_app.
  assert (Hc : length (loop_nest [K; W]) = Z.to_nat (K * W)).
  { apply Nat2Z.inj. rewrite length_loop_nest by (repeat constructor; lia).
    cbn [fold_right]. lia. }
  replace (Z.to_nat i)
    with (Z.to_nat (i / (K * W)) * Z.to_nat (K * W)
          + Z.to_nat (i mod (K * W)))%nat by nia.
  assert (Hblk : forall pre, In pre (loop_nest outer) ->
            length (map (app pre) (loop_nest [K; W])) = Z.to_nat (K * W))
    by (intros; rewrite length_map; exact Hc).
  assert (Hrlt : (Z.to_nat (i mod (K * W)) < Z.to_nat (K * W))%nat) by lia.
  rewrite (nth_error_flat_map_blocks
             (fun pre => map (app pre) (loop_nest [K; W])) (Z.to_nat (K * W))
             (loop_nest outer) Hblk _ _ o Eo Hrlt).
  rewrite nth_error_map, (nth_error_loop_nest_pair K W _ HK HW Br).
  destruct (inner_indices_split K W i HK HW ltac:(lia)) as (-> & ->).
  reflexivity.
Qed.

Lemma fold_right_mul_app (l l' : list Z) :
  fold_right Z.mul 1 (l ++ l') = fold_right Z.mul 1 l * fold_right Z.mul 1 l'.
Proof. rewrite fold_right_app. apply fold_right_mul_seed. Qed.

Lemma fold_right_mul_nonneg (l : list Z) :
  Forall (fun n => 0 <= n) l -> 0 <= fold_right Z.mul 1 l.
Proof.
  induction 1 as [|n rest Hn _ IH]; cbn [fold_right]; [lia|].
  apply Z.mul_nonneg_nonneg; assumption.
Qed.

(** The iterations of a pipeline scope whose two innermost ranges are [k]
    of extent [K] and [m] of extent [Tw + L]. *)
Section Schedule.
Variables (s : pipeline_scope) (outer : list Z) (K Tw L : Z).
Hypothesis Hext : extents s = outer ++ [K; Tw + L].
Hypothesis Houter : Forall (fun n => 0 <= n) outer.
Hypothesis HK : 1 <= K.
Hypothesis HTw : 1 <= Tw.
Hypothesis HL : 0 <= L.

Lemma scope_iterations_tiles :
  scope_iterations s = fold_right Z.mul 1 outer * (K * (Tw + L)).
Proof.
  unfold scope_iterations. rewrite Hext, fold_right_mul_app.
  cbn [fold_right]. ring.
Qed.

(** Before the drain phase the trailing iterators are the map indices
    [k] and [m], and the outer indices are all zero in the first tile
    only. *)
Lemma schedule_main_phase (i : Z) :
  0 <= i < fold_right Z.mul 1 outer * (K * (Tw + L)) ->
  drain_condition s i = false /\
  drain_iterators_at s K Tw L (Z.to_nat i)
  = {| m_drain := i mod (Tw + L); k_drain := (i / (Tw + L)) mod K |} /\
  exists o,
    length o = length outer /\ Forall (fun x => 0 <= x) o /\
    (Forall (fun x => x = 0) o <-> i < K * (Tw + L)) /\
    nth_error (loop_nest (extents s)) (Z.to_nat i)
    = Some (o ++ [(i / (Tw + L)) mod K; i mod (Tw + L)]).
Proof.
  intros Hi.
  pose proof scope_iterations_tiles as HS.
  pose proof (fold_right_mul_nonneg outer Houter) as Hnt.
  split; [unfold drain_condition; apply Z.leb_gt; lia|]. split.
  - rewrite (drain_iterators_at_closed s K Tw L _ HK HTw HL Hnt HS).
    unfold drain_iterators_closed. rewrite Z2Nat.id by lia.
    destruct (Z.ltb_spec i (scope_iterations s)); [reflexivity|lia].
  - destruct (nth_error_loop_nest_tile outer K (Tw + L) i Houter HK
                ltac:(lia) Hi) as (o & Eo & Ei).
    destruct (loop_nest_entry outer _ _ Eo) as (Hl & Hnn & Hz).
    exists o. split; [exact Hl|]. split; [exact Hnn|]. split.
    + rewrite Hz. split.
      * intros E0.
        assert (HKW : 1 <= K * (Tw + L)) by nia.
        pose proof (Z.div_pos i (K * (Tw + L)) ltac:(lia) ltac:(lia)) as Hq.
        assert (E : i / (K * (Tw + L)) = 0) by lia.
        apply Z.div_small_iff in E; lia.
      * intros Hlt. rewrite Z.div_small by lia. reflexivity.
    + rewrite Hext. exact Ei.
Qed.

(** In the drain phase they count the drain iterations in units of
    [Tw]. *)
Lemma schedule_drain_phase (j : Z) :
  0 <= j -> j / Tw < K ->
  let i := fold_right Z.mul 1 outer * (K * (Tw + L)) + j in
  drain_condition s i = true /\
  drain_iterators_at s K Tw L (Z.to_nat i)
  = {| m_drain := j mod Tw; k_drain := j / Tw |}.
Proof.
  intros Hj Hq. cbv zeta.
  pose proof scope_iterations_tiles as HS.
  pose proof (fold_right_mul_nonneg outer Houter) as Hnt.
  assert (HS0 : 0 <= scope_iterations s) by (rewrite HS; nia).
  rewrite <- HS.
  split; [unfold drain_condition; apply Z.leb_le; lia|].
  rewrite (drain_iterators_at_closed s K Tw L _ HK HTw HL Hnt HS).
  unfold drain_iterators_closed. rewrite Z2Nat.id by lia.
  destruct (Z.ltb_spec (scope_iterations s + j) (scope_iterations s)); [lia|].
  replace (scope_iterations s + j - scope_iterations s) with j by lia.
  rewrite (Z.mod_small (j / Tw) K)
    by (split; [apply Z.div_pos; lia|exact Hq]).
  reflexivity.
Qed.

End Schedule.

(** Case analysis on the integer tests of a tasklet. *)
Ltac split_tests :=
  repeat match goal with
         | |- context [?a >=? ?b] => destruct (Z.geb_spec a b)
         | |- context [?a <=? ?b] => destruct (Z.leb_spec a b)
         | |- context [?a <? ?b] => destruct (Z.ltb_spec a b)
         | |- context [?a =? ?b] => destruct (Z.eqb_spec a b)
         end;
  cbn [andb orb negb]; try reflexivity; try lia.

Section ScheduledTasklets.
Context {V : Type} `{Arith V}.

(** The tiled tasklet in an iteration before the drain phase, for a PE
    of a chain no longer than K. *)
Lemma tiled_tasklet_main_phase (c : ConvNode) (pl : ConvTiled.Plan)
    (p b n0 tm k m : Z) (later : bool)
    (a_in b_in c_in forward_in c_init_data : V) :
  0 <= p <= ConvTiled.K pl - 1 -> 0 <= k ->
  (0 <? b) || (0 <? n0) || (0 <? tm) = later ->
  let out := ConvTiled.compute_and_drain c pl p
               {| it_b := b; it_n0 := n0; it_tm := tm; it_k := k; it_m := m;
                  it_drain := false;
                  it_trail := {| m_drain := m; k_drain := k |} |}
               a_in b_in c_in forward_in c_init_data in
  let sum := vadd (if k =? 0 then c_init_data else c_in) (vmul a_in b_in) in
  ConvTiled.c_out out = (if ConvTiled.L pl <=? m then Some sum else None) /\
  ConvTiled.c_pipe_out out =
    (if (k =? ConvTiled.K pl - 1) && (ConvTiled.L pl <=? m) then Some sum
     else if later && (k <? p) && (m <? ConvTiled.Tv c pl)
          then Some forward_in else None).
Proof.
  intros Hp Hk Hlater. cbv zeta.
  unfold ConvTiled.compute_and_drain, ConvTiled.drains, ConvTiled.result_of.
  cbn [ConvTiled.c_out ConvTiled.c_pipe_out it_b it_n0 it_tm it_k it_m
       it_drain it_trail m_drain k_drain].
  rewrite Hlater. clear Hlater.
  split; destruct later; split_tests.
Qed.

(** The tiled tasklet in a drain iteration, whatever the map indices. *)
Lemma tiled_tasklet_drain_phase (c : ConvNode) (pl : ConvTiled.Plan)
    (p b n0 tm k m md kd : Z) (a_in b_in c_in forward_in c_init_data : V) :
  0 <= p -> 0 <= kd ->
  let out := ConvTiled.compute_and_drain c pl p
               {| it_b := b; it_n0 := n0; it_tm := tm; it_k := k; it_m := m;
                  it_drain := true;
                  it_trail := {| m_drain := md; k_drain := kd |} |}
               a_in b_in c_in forward_in c_init_data in
  ConvTiled.c_out out = None /\
  ConvTiled.c_pipe_out out =
    (if kd <? p then Some forward_in
     else if (k =? ConvTiled.K pl - 1) && (ConvTiled.L pl <=? m)
          then Some (if p =? 0 then c_in else forward_in) else None).
Proof.
  intros Hp Hk. cbv zeta.
  unfold ConvTiled.compute_and_drain, ConvTiled.drains, ConvTiled.result_of.
  cbn [ConvTiled.c_out ConvTiled.c_pipe_out it_b it_n0 it_tm it_k it_m
       it_drain it_trail m_drain k_drain].
  rewrite !andb_false_r. cbn [negb andb orb].
  split; [reflexivity|].
  destruct ((0 <? b) || (0 <? n0) || (0 <? tm)); split_tests.
Qed.

(** The MatMul tasklet in the same two situations. *)
Lemma matmul_tasklet_main_phase (pl : MatMul.Plan) (K p k m : Z) (later : bool)
    (a_in b_in y_in forward_in : V) :
  0 <= p <= K - 1 -> 0 <= k ->
  let out := MatMul.compute_and_drain pl K p later k m false
               {| m_drain := m; k_drain := k |} a_in b_in y_in forward_in in
  let sum := vadd (if k =? 0 then vzero else y_in) (vmul a_in b_in) in
  MatMul.y_out out = (if MatMul.L pl <=? m then Some sum else None) /\
  MatMul.y_pipe_out out =
    (if (k =? K - 1) && (MatMul.L pl <=? m) then Some (Some sum)
     else if later && (k <? p) && (m <? MatMul.T pl)
          then Some (Some forward_in) else None).
Proof.
  intros Hp Hk. cbv zeta. unfold MatMul.compute_and_drain.
  cbn [MatMul.y_out MatMul.y_pipe_out m_drain k_drain].
  split; destruct later; split_tests.
Qed.

Lemma matmul_tasklet_drain_phase (pl : MatMul.Plan) (K p k m md kd : Z)
    (later : bool) (a_in b_in y_in forward_in : V) :
  0 <= p -> 0 <= kd ->
  let out := MatMul.compute_and_drain pl K p later k m true
               {| m_drain := md; k_drain := kd |} a_in b_in y_in forward_in in
  MatMul.y_out out = None /\
  MatMul.y_pipe_out out =
    (if kd <? p then Some (Some forward_in)
     else if (k =? K - 1) && (MatMul.L pl <=? m)
          then Some (if p =? 0 then None else Some forward_in) else None).
Proof.
  intros Hp Hk. cbv zeta. unfold MatMul.compute_and_drain.
  cbn [MatMul.y_out MatMul.y_pipe_out m_drain k_drain].
  rewrite !andb_false_r. cbn [negb andb orb].
  split; [reflexivity|].
  destruct later; split_tests.
Qed.

End ScheduledTasklets.

(** The test on the outer map indices holds from the second tile on. *)
Lemma later_tile_test (o : list Z) (i KW : Z) :
  Forall (fun x => 0 <= x) o ->
  (Forall (fun x => x = 0) o <-> i < KW) ->
  existsb (fun x => 0 <? x) o = (KW <=? i).
Proof.
  intros Hnn Hz.
  assert (E : existsb (fun x => 0 <? x) o = false <-> Forall (fun x => x = 0) o).
  { clear Hz. induction Hnn as [|x l Hx _ IH]; cbn [existsb].
    - split; auto.
    - rewrite orb_false_iff, IH, Z.ltb_ge. split.
      + intros (Hx0 & Hl). constructor; [lia|exact Hl].
      + intros Hall. inversion Hall; subst. split; [lia|assumption]. }
  destruct (Z.leb_spec KW i) as [Hle|Hlt].
  - destruct (existsb _ o); [reflexivity|].
    assert (i < KW) by (apply Hz, E; reflexivity). lia.
  - apply E, Hz. exact Hlt.
Qed.

Lemma later_tile_collated_test (N P b_n : Z) :
  1 <= N -> 1 <= P -> 0 <= b_n ->
  (0 <? (b_n * P) / N) || (0 <? (b_n * P) mod N) = (0 <? b_n).
Proof.
  intros HN HP Hb.
  pose proof (Z.div_mod (b_n * P) N ltac:(lia)) as E.
  pose proof (Z.mod_pos_bound (b_n * P) N ltac:(lia)) as Bm.
  assert (Hq : 0 <= (b_n * P) / N) by (apply Z.div_pos; nia).
  destruct (Z.ltb_spec 0 b_n) as [Hpos|Hzero].
  - apply orb_true_iff. rewrite !Z.ltb_lt.
    destruct (Z.eq_dec ((b_n * P) / N) 0) as [E0|]; [right|left; lia].
    rewrite E0 in E. nia.
  - assert (b_n = 0) by lia. subst b_n.
    cbn [Z.mul]. rewrite Z.div_0_l, Z.mod_0_l by lia. reflexivity.
Qed.

(** The clamp and the default leave at least one processing element when
    the request is not negative. *)
Lemma num_PEs_pos (c : ConvNode) (pe : option Z) :
  well_formed c ->
  match pe with Some v => 0 <= v | None => True end ->
  1 <= ConvTiled.num_PEs c pe.
Proof.
  intros Hwf Hpe.
  assert (HN : 1 <= num_filters c) by (unfold well_formed in Hwf; tauto).
  unfold ConvTiled.num_PEs.
  destruct (_ >? _); [lia|].
  destruct pe as [v|]; [|exact HN].
  cbn [py_not]. destruct (Z.eqb_spec v 0); lia.
Qed.

(** The PE count of MatMul is a positive divisor of K and of the row
    count it was derived from. *)
Lemma matmul_PEs (K R : Z) :
  1 <= K -> 1 <= R ->
  let g := Z.gcd K (Z.gcd R 16) in
  1 <= g <= K /\ 1 <= R / g.
Proof.
  intros HK HR. cbv zeta.
  set (g := Z.gcd K (Z.gcd R 16)).
  pose proof (Z.gcd_nonneg K (Z.gcd R 16)) as Hg0. fold g in Hg0.
  assert (Hne : g <> 0).
  { unfold g. intros E. apply Z.gcd_eq_0_l in E. lia. }
  assert (HgK : (g | K)) by apply Z.gcd_divide_l.
  assert (HgR : (g | R)).
  { apply (Z.divide_trans _ (Z.gcd R 16)); [apply Z.gcd_divide_r|].
    apply Z.gcd_divide_l. }
  apply Z.divide_pos_le in HgK; [|lia].
  apply Z.divide_pos_le in HgR; [|lia].
  split; [lia|].
  apply Z.div_le_lower_bound; lia.
Qed.

(** Claim C2 as stated fails: the drain of the last tile is not
    overlapped with any computation.  With six filters on two processing
    elements (K = 9, T = 16, L = 0, three tiles, so that K <= P * T) the
    loop runs 3 * 144 + 32 = 464 iterations, not 432; the batched MatMul
    of 8 x 16 x 32 by 32 x 64 (P = 16, T = 64) runs 1024 iterations more
    than its 8 tiles of 2048. *)
Lemma last_drain_not_overlapped :
  ~ (forall (c : ConvNode) (tiles pe : option Z) (pl : ConvTiled.Plan),
       well_formed c ->
       ConvTiled.forward c tiles pe = Ok pl ->
       ConvTiled.K pl <= ConvTiled.P pl * ConvTiled.Tv c pl ->
       loop_bound (ConvTiled.compute_scope c pl)
       = batch_size c * ceiling_div (ConvTiled.N pl) (ConvTiled.P pl)
         * ceiling_div (ConvTiled.M pl) (ConvTiled.T pl)
         * (ConvTiled.K pl * (ConvTiled.Tv c pl + ConvTiled.L pl))) /\
  ~ (forall (BATCH N K M : Z) (pl : MatMul.Plan),
       1 <= BATCH -> 1 <= N -> 1 <= K -> 1 <= M ->
       MatMul.forward_batched BATCH N K M = Ok pl ->
       loop_bound (MatMul.compute_scope_batched BATCH N K M pl)
       = BATCH * (N / MatMul.P pl) * (M / MatMul.T pl)
         * (K * (MatMul.T pl + MatMul.L pl))).
Proof.
  split; intros Hall.
  - specialize (Hall conv_3x3_six_filters None (Some 2)
                  {| ConvTiled.P := 2; ConvTiled.T := 16; ConvTiled.L := 0;
                     ConvTiled.N := 6; ConvTiled.K := 9; ConvTiled.M := 16;
                     ConvTiled.log := [Using_PEs 2 6] |}
                  ltac:(unfold well_formed; cbn; lia)
                  eq_refl ltac:(vm_compute; discriminate)).
    vm_compute in Hall. discriminate Hall.
  - specialize (Hall 8 16 32 64
                  {| MatMul.P := 16; MatMul.T := 64; MatMul.L := 0 |}
                  ltac:(lia) ltac:(lia) ltac:(lia) ltac:(lia) eq_refl).
    vm_compute in Hall. discriminate Hall.
Qed.

Section PipelineSchedule.
Context {V : Type} `{Arith V}.

(** Claim C2, amended.  Construction: the tiled convolution, for a
    well-formed node that passes the checks on the vector widths and on
    the tile size and a PE request that is not negative, returns a plan
    with [1 <= P <= K]; each MatMul branch returns its plan exactly when
    [K <= P * T] for its own [P] (a gcd) and [T = M], and raises the
    assertion otherwise.  Schedule: the flattened loop of the pipeline
    runs [K * (T' + L)] iterations for every tile and then, once, a drain
    phase of [P * T'] iterations appended after the last tile, which is
    no longer than one tile ([T'] is [T] in vector units).  Before the
    drain phase the trailing iterators equal the map indices [k], [m]; a
    PE accumulates exactly when [m >= L]; it writes its own sum to the
    result channel when [k = K - 1] and [m >= L], and from the second tile
    on it relays the results of the PEs before it, in the iterations with
    [k < p] and [m < T'] of the tile that follows.  In the appended drain
    phase nothing is accumulated and PE [p] relays during the first
    [p * T'] iterations. *)
Theorem pipeline_schedule_and_overlap
    (c : ConvNode) (tiles pe : option Z) (BATCH N K M : Z) :
  (well_formed c -> veclen_W c = 1 -> veclen_X c = veclen_Y c ->
   fst (ConvTiled.tile_size c
          (match tiles with Some t => t | None => ConvTiled.tiles_default end))
     mod output_size_x c = 0 ->
   match pe with Some v => 0 <= v | None => True end ->
   let Tc := fst (ConvTiled.tile_size c
                    (match tiles with Some t => t
                                 | None => ConvTiled.tiles_default end)) in
   let Kc := num_channels c * filter_hx c * filter_hy c in
   let Mc := output_size_y c * veclen_Y c * output_size_x c in
   let Tw := Tc / veclen_Y c in
   let Lc := Z.max (16 - Tw) 0 in
   let Pc := ConvTiled.num_PEs c pe in
   let ntiles := batch_size c * ceiling_div (num_filters c) Pc
                 * ceiling_div Mc Tc in
   exists pl,
     ConvTiled.forward c tiles pe = Ok pl /\
     ConvTiled.P pl = Pc /\ ConvTiled.T pl = Tc /\ ConvTiled.L pl = Lc /\
     ConvTiled.K pl = Kc /\ ConvTiled.N pl = num_filters c /\
     ConvTiled.M pl = Mc /\
     1 <= Pc <= Kc /\ 1 <= Tw /\ 0 <= Lc /\ 1 <= ntiles /\
     let s := ConvTiled.compute_scope c pl in
     loop_bound s = ntiles * (Kc * (Tw + Lc)) + Pc * Tw /\
     Pc * Tw <= Kc * (Tw + Lc) /\
     (forall i : Z,
        0 <= i < ntiles * (Kc * (Tw + Lc)) ->
        let k := (i / (Tw + Lc)) mod Kc in
        let m := i mod (Tw + Lc) in
        drain_condition s i = false /\
        drain_iterators_at s Kc Tw Lc (Z.to_nat i)
        = {| m_drain := m; k_drain := k |} /\
        exists b n0 tm : Z,
          nth_error (loop_nest (extents s)) (Z.to_nat i)
          = Some [b; n0; tm; k; m] /\
          forall (p : Z) (a_in b_in c_in forward_in c_init_data : V),
            0 <= p < Pc ->
            let out := ConvTiled.compute_and_drain c pl p
                         {| it_b := b; it_n0 := n0; it_tm := tm;
                            it_k := k; it_m := m; it_drain := false;
                            it_trail := {| m_drain := m; k_drain := k |} |}
                         a_in b_in c_in forward_in c_init_data in
            let sum := vadd (if k =? 0 then c_init_data else c_in)
                            (vmul a_in b_in) in
            ConvTiled.c_out out = (if Lc <=? m then Some sum else None) /\
            ConvTiled.c_pipe_out out =
              (if (k =? Kc - 1) && (Lc <=? m) then Some sum
               else if (Kc * (Tw + Lc) <=? i) && (k <? p) && (m <? Tw)
                    then Some forward_in else None)) /\
     (forall j : Z,
        0 <= j < Pc * Tw ->
        let i := ntiles * (Kc * (Tw + Lc)) + j in
        drain_condition s i = true /\
        drain_iterators_at s Kc Tw Lc (Z.to_nat i)
        = {| m_drain := j mod Tw; k_drain := j / Tw |} /\
        forall (p b n0 tm k m : Z) (a_in b_in c_in forward_in c_init_data : V),
          0 <= p < Pc ->
          let out := ConvTiled.compute_and_drain c pl p
                       {| it_b := b; it_n0 := n0; it_tm := tm;
                          it_k := k; it_m := m; it_drain := true;
                          it_trail := {| m_drain := j mod Tw;
                                         k_drain := j / Tw |} |}
                       a_in b_in c_in forward_in c_init_data in
          ConvTiled.c_out out = None /\
          ConvTiled.c_pipe_out out =
            (if j / Tw <? p then Some forward_in
             else if (k =? Kc - 1) && (Lc <=? m)
                  then Some (if p =? 0 then c_in else forward_in)
                  else None))) /\
  (1 <= BATCH -> 1 <= N -> 1 <= K -> 1 <= M ->
   let g := Z.gcd K (Z.gcd N 16) in
   let Lm := Z.max (11 - M) 0 in
   let pl := {| MatMul.P := g; MatMul.T := M; MatMul.L := Lm |} in
   let ntiles := BATCH * (N / g) in
   (g * M < K -> MatMul.forward_batched BATCH N K M = Raise AssertionError) /\
   (K <= g * M ->
    MatMul.forward_batched BATCH N K M = Ok pl /\
    1 <= g <= K /\ 1 <= ntiles /\
    let s := MatMul.compute_scope_batched BATCH N K M pl in
    loop_bound s = ntiles * (K * (M + Lm)) + g * M /\
    g * M <= K * (M + Lm) /\
    (forall i : Z,
       0 <= i < ntiles * (K * (M + Lm)) ->
       let k := (i / (M + Lm)) mod K in
       let m := i mod (M + Lm) in
       drain_condition s i = false /\
       drain_iterators_at s K M Lm (Z.to_nat i)
       = {| m_drain := m; k_drain := k |} /\
       exists b n0 tm : Z,
         nth_error (loop_nest (extents s)) (Z.to_nat i)
         = Some [b; n0; tm; k; m] /\
         forall (p : Z) (a_in b_in y_in forward_in : V),
           0 <= p < g ->
           let out := MatMul.compute_and_drain pl K p
                        (MatMul.later_tile_batched b n0 tm) k m false
                        {| m_drain := m; k_drain := k |}
                        a_in b_in y_in forward_in in
           let sum := vadd (if k =? 0 then vzero else y_in) (vmul a_in b_in) in
           MatMul.y_out out = (if Lm <=? m then Some sum else None) /\
           MatMul.y_pipe_out out =
             (if (k =? K - 1) && (Lm <=? m) then Some (Some sum)
              else if (K * (M + Lm) <=? i) && (k <? p) && (m <? M)
                   then Some (Some forward_in) else None)) /\
    (forall j : Z,
       0 <= j < g * M ->
       let i := ntiles * (K * (M + Lm)) + j in
       drain_condition s i = true /\
       drain_iterators_at s K M Lm (Z.to_nat i)
       = {| m_drain := j mod M; k_drain := j / M |} /\
       forall (p b n0 tm k m : Z) (a_in b_in y_in forward_in : V),
         0 <= p < g ->
         let out := MatMul.compute_and_drain pl K p
                      (MatMul.later_tile_batched b n0 tm) k m true
                      {| m_drain := j mod M; k_drain := j / M |}
                      a_in b_in y_in forward_in in
         MatMul.y_out out = None /\
         MatMul.y_pipe_out out =
           (if j / M <? p then Some (Some forward_in)
            else if (k =? K - 1) && (Lm <=? m)
                 then Some (if p =? 0 then None else Some forward_in)
                 else None)))) /\
  (1 <= BATCH -> 1 <= N -> 1 <= K -> 1 <= M ->
   let g := Z.gcd K (Z.gcd (N * BATCH) 16) in
   let Lm := Z.max (11 - M) 0 in
   let pl := {| MatMul.P := g; MatMul.T := M; MatMul.L := Lm |} in
   let ntiles := (BATCH * N) / g in
   (g * M < K -> MatMul.forward_collated BATCH N K M = Raise AssertionError) /\
   (K <= g * M ->
    MatMul.forward_collated BATCH N K M = Ok pl /\
    1 <= g <= K /\ 1 <= ntiles /\
    let s := MatMul.compute_scope_collated BATCH N K M pl in
    loop_bound s = ntiles * (K * (M + Lm)) + g * M /\
    g * M <= K * (M + Lm) /\
    (forall i : Z,
       0 <= i < ntiles * (K * (M + Lm)) ->
       let k := (i / (M + Lm)) mod K in
       let m := i mod (M + Lm) in
       drain_condition s i = false /\
       drain_iterators_at s K M Lm (Z.to_nat i)
       = {| m_drain := m; k_drain := k |} /\
       exists b_n tm : Z,
         nth_error (loop_nest (extents s)) (Z.to_nat i)
         = Some [b_n; tm; k; m] /\
         forall (p : Z) (a_in b_in y_in forward_in : V),
           0 <= p < g ->
           let out := MatMul.compute_and_drain pl K p
                        (MatMul.later_tile_collated N pl b_n tm) k m false
                        {| m_drain := m; k_drain := k |}
                        a_in b_in y_in forward_in in
           let sum := vadd (if k =? 0 then vzero else y_in) (vmul a_in b_in) in
           MatMul.y_out out = (if Lm <=? m then Some sum else None) /\
           MatMul.y_pipe_out out =
             (if (k =? K - 1) && (Lm <=? m) then Some (Some sum)
              else if (K * (M + Lm) <=? i) && (k <? p) && (m <? M)
                   then Some (Some forward_in) else None)) /\
    (forall j : Z,
       0 <= j < g * M ->
       let i := ntiles * (K * (M + Lm)) + j in
       drain_condition s i = true /\
       drain_iterators_at s K M Lm (Z.to_nat i)
       = {| m_drain := j mod M; k_drain := j / M |} /\
       forall (p b_n tm k m : Z) (a_in b_in y_in forward_in : V),
         0 <= p < g ->
         let out := MatMul.compute_and_drain pl K p
                      (MatMul.later_tile_collated N pl b_n tm) k m true
                      {| m_drain := j mod M; k_drain := j / M |}
                      a_in b_in y_in forward_in in
         MatMul.y_out out = None /\
         MatMul.y_pipe_out out =
           (if j / M <? p then Some (Some forward_in)
            else if (k =? K - 1) && (Lm <=? m)
                 then Some (if p =? 0 then None else Some forward_in)
                 else None)))).
Proof.
  split; [|split].
  - (* the tiled convolution *)
    intros Hwf HW HX HT Hpe. cbv zeta.
    set (t := ConvTiled.tile_size c _) in *.
    set (Kc := num_channels c * filter_hx c * filter_hy c).
    set (Mc := output_size_y c * veclen_Y c * output_size_x c).
    set (Tw := fst t / veclen_Y c).
    set (Lc := Z.max (16 - Tw) 0).
    set (Pc := ConvTiled.num_PEs c pe).
    pose proof (well_formed_K_pos c Hwf) as HKpos.
    pose proof (num_PEs_le_K c pe Hwf) as HPle.
    pose proof (num_PEs_pos c pe Hwf Hpe) as HPpos.
    rewrite <- (K_orders_agree c) in HKpos, HPle.
    fold Kc in HKpos, HPle. fold Pc in HPle, HPpos.
    assert (Hv : 1 <= veclen_Y c) by (unfold well_formed in Hwf; tauto).
    assert (HMc : 1 <= Mc).
    { unfold Mc. unfold well_formed in Hwf.
      destruct Hwf as (_ & _ & _ & _ & _ & _ & _ & Hox & Hoy & _). nia. }
    pose proof (tile_size_ge_veclen c
                  (match tiles with Some t0 => t0
                               | None => ConvTiled.tiles_default end) Hv) as Hge.
    fold t in Hge.
    assert (HTw : 1 <= Tw).
    { unfold Tw. apply Z.div_le_lower_bound; lia. }
    assert (HLc : 0 <= Lc) by (unfold Lc; lia).
    set (pl := {| ConvTiled.P := Pc; ConvTiled.T := fst t; ConvTiled.L := Lc;
                  ConvTiled.N := num_filters c; ConvTiled.K := Kc;
                  ConvTiled.M := Mc;
                  ConvTiled.log := Using_PEs Pc (num_filters c) :: snd t |}).
    exists pl.
    split.
    { rewrite tiled_forward_checks. cbv zeta. fold t.
      assert (Hgt : (ConvTiled.num_PEs c pe
                     >? filter_hx c * filter_hy c * num_channels c) = false).
      { rewrite Z.gtb_ltb. apply Z.ltb_ge.
        rewrite <- (K_orders_agree c). exact HPle. }
      rewrite Hgt, HW, HX, Z.eqb_refl, HT. reflexivity. }
    do 6 (split; [reflexivity|]).
    set (outer := [batch_size c; ceiling_div (num_filters c) Pc;
                   ceiling_div Mc (fst t)]).
    assert (Hcd1 : 1 <= ceiling_div (num_filters c) Pc).
    { apply ceiling_div_pos; [unfold well_formed in Hwf; tauto|exact HPpos]. }
    assert (Hcd2 : 1 <= ceiling_div Mc (fst t))
      by (apply ceiling_div_pos; lia).
    assert (Hb : 1 <= batch_size c) by (unfold well_formed in Hwf; tauto).
    assert (Hnt : fold_right Z.mul 1 outer
                  = batch_size c * ceiling_div (num_filters c) Pc
                    * ceiling_div Mc (fst t)) by (cbn; ring).
    assert (Houter : Forall (fun n => 0 <= n) outer)
      by (repeat constructor; lia).
    assert (Hext : extents (ConvTiled.compute_scope c pl)
                   = outer ++ [Kc; Tw + Lc]) by reflexivity.
    split; [lia|]. split; [exact HTw|]. split; [exact HLc|].
    split; [nia|].
    cbv zeta.
    split.
    { unfold loop_bound.
      rewrite (scope_iterations_tiles _ outer Kc Tw Lc Hext), Hnt.
      reflexivity. }
    split; [nia|].
    split.
    + intros i Hi. rewrite <- Hnt in Hi.
      destruct (schedule_main_phase _ outer Kc Tw Lc Hext Houter HKpos HTw HLc
                  i Hi) as (Hd & Htr & o & Hlen & Hnn & Hz & Hnth).
      split; [exact Hd|]. split; [exact Htr|].
      destruct o as [|b [|n0 [|tm [|? ?]]]]; try discriminate Hlen.
      exists b, n0, tm. split; [exact Hnth|].
      intros p a_in b_in c_in forward_in c_init_data Hp.
      pose proof (later_tile_test _ _ _ Hnn Hz) as Hlater.
      cbn [existsb] in Hlater. rewrite orb_false_r, orb_assoc in Hlater.
      pose proof (Z.mod_pos_bound (i / (Tw + Lc)) Kc ltac:(lia)) as Bk.
      apply (tiled_tasklet_main_phase c pl p b n0 tm _ _ _
               a_in b_in c_in forward_in c_init_data);
        [cbn [ConvTiled.K pl]; lia | lia | exact Hlater].
    + intros j Hj.
      assert (Hq : j / Tw < Kc).
      { apply Z.div_lt_upper_bound; nia. }
      rewrite <- Hnt.
      destruct (schedule_drain_phase _ outer Kc Tw Lc Hext Houter HKpos HTw HLc
                  j ltac:(lia) Hq) as (Hd & Htr).
      split; [exact Hd|]. split; [exact Htr|].
      intros p b n0 tm k m a_in b_in c_in forward_in c_init_data Hp.
      apply (tiled_tasklet_drain_phase c pl p b n0 tm k m);
        [lia | apply Z.div_pos; lia].
  - (* MatMul, batched *)
    intros HB HN HK HM. cbv zeta.
    destruct (matmul_PEs K N HK HN) as (Hg & HNg).
    set (g := Z.gcd K (Z.gcd N 16)) in *.
    set (Lm := Z.max (11 - M) 0).
    set (pl := {| MatMul.P := g; MatMul.T := M; MatMul.L := Lm |}).
    assert (HLm : 0 <= Lm) by (unfold Lm; lia).
    split.
    { intros Hlt. unfold MatMul.forward_batched. fold g.
      destruct (Z.leb_spec K (g * M)); [lia|reflexivity]. }
    intros Hle.
    split.
    { unfold MatMul.forward_batched. fold g.
      destruct (Z.leb_spec K (g * M)); [reflexivity|lia]. }
    set (outer := [BATCH; N / g; M / M]).
    assert (HMM : M / M = 1) by (apply Z.div_same; lia).
    assert (Hnt : fold_right Z.mul 1 outer = BATCH * (N / g))
      by (cbn; rewrite HMM; ring).
    assert (Houter : Forall (fun n => 0 <= n) outer)
      by (repeat constructor; lia).
    assert (Hext : extents (MatMul.compute_scope_batched BATCH N K M pl)
                   = outer ++ [K; M + Lm]) by reflexivity.
    split; [exact Hg|]. split; [nia|].
    cbv zeta.
    split.
    { unfold loop_bound.
      rewrite (scope_iterations_tiles _ outer K M Lm Hext), Hnt.
      reflexivity. }
    split; [nia|].
    split.
    + intros i Hi. rewrite <- Hnt in Hi.
      destruct (schedule_main_phase _ outer K M Lm Hext Houter HK HM HLm
                  i Hi) as (Hd & Htr & o & Hlen & Hnn & Hz & Hnth).
      split; [exact Hd|]. split; [exact Htr|].
      destruct o as [|b [|n0 [|tm [|? ?]]]]; try discriminate Hlen.
      exists b, n0, tm. split; [exact Hnth|].
      intros p a_in b_in y_in forward_in Hp.
      pose proof (later_tile_test _ _ _ Hnn Hz) as Hlater.
      cbn [existsb] in Hlater. rewrite orb_false_r, orb_assoc in Hlater.
      pose proof (Z.mod_pos_bound (i / (M + Lm)) K ltac:(lia)) as Bk.
      unfold MatMul.later_tile_batched. rewrite Hlater.
      apply (matmul_tasklet_main_phase pl K p); lia.
    + intros j Hj.
      assert (Hq : j / M < K).
      { apply Z.div_lt_upper_bound; nia. }
      rewrite <- Hnt.
      destruct (schedule_drain_phase _ outer K M Lm Hext Houter HK HM HLm
                  j ltac:(lia) Hq) as (Hd & Htr).
      split; [exact Hd|]. split; [exact Htr|].
      intros p b n0 tm k m a_in b_in y_in forward_in Hp.
      apply (matmul_tasklet_drain_phase pl K p);
        [lia | apply Z.div_pos; lia].
  - (* MatMul, collated *)
    intros HB HN HK HM. cbv zeta.
    assert (HR : 1 <= N * BATCH) by nia.
    destruct (matmul_PEs K (N * BATCH) HK HR) as (Hg & HNg).
    set (g := Z.gcd K (Z.gcd (N * BATCH) 16)) in *.
    set (Lm := Z.max (11 - M) 0).
    set (pl := {| MatMul.P := g; MatMul.T := M; MatMul.L := Lm |}).
    assert (HLm : 0 <= Lm) by (unfold Lm; lia).
    rewrite (Z.mul_comm N BATCH) in HNg.
    split.
    { intros Hlt. unfold MatMul.forward_collated. fold g.
      destruct (Z.leb_spec K (g * M)); [lia|reflexivity]. }
    intros Hle.
    split.
    { unfold MatMul.forward_collated. fold g.
      destruct (Z.leb_spec K (g * M)); [reflexivity|lia]. }
    set (outer := [(BATCH * N) / g; M / M]).
    assert (HMM : M / M = 1) by (apply Z.div_same; lia).
    assert (Hnt : fold_right Z.mul 1 outer = (BATCH * N) / g)
      by (cbn; rewrite HMM; ring).
    assert (Houter : Forall (fun n => 0 <= n) outer)
      by (repeat constructor; lia).
    assert (Hext : extents (MatMul.compute_scope_collated BATCH N K M pl)
                   = outer ++ [K; M + Lm]) by reflexivity.
    split; [exact Hg|]. split; [exact HNg|].
    cbv zeta.
    split.
    { unfold loop_bound.
      rewrite (scope_iterations_tiles _ outer K M Lm Hext), Hnt.
      reflexivity. }
    split; [nia|].
    split.
    + intros i Hi. rewrite <- Hnt in Hi.
      destruct (schedule_main_phase _ outer K M Lm Hext Houter HK HM HLm
                  i Hi) as (Hd & Htr & o & Hlen & Hnn & Hz & Hnth).
      split; [exact Hd|]. split; [exact Htr|].
      destruct o as [|b_n [|tm [|? ?]]]; try discriminate Hlen.
      exists b_n, tm. split; [exact Hnth|].
      intros p a_in b_in y_in forward_in Hp.
      pose proof (later_tile_test _ _ _ Hnn Hz) as Hlater.
      cbn [existsb] in Hlater. rewrite orb_false_r in Hlater.
      pose proof (Z.mod_pos_bound (i / (M + Lm)) K ltac:(lia)) as Bk.
      assert (Hbn : 0 <= b_n) by (inversion Hnn; assumption).
      unfold MatMul.later_tile_collated. cbn [MatMul.P pl].
      rewrite (later_tile_collated_test N g b_n HN ltac:(lia) Hbn), Hlater.
      apply (matmul_tasklet_main_phase pl K p); lia.
    + intros j Hj.
      assert (Hq : j / M < K).
      { apply Z.div_lt_upper_bound; nia. }
      rewrite <- Hnt.
      destruct (schedule_drain_phase _ outer K M Lm Hext Houter HK HM HLm
                  j ltac:(lia) Hq) as (Hd & Htr).
      split; [exact Hd|]. split; [exact Htr|].
      intros p b_n tm k m a_in b_in y_in forward_in Hp.
      apply (matmul_tasklet_drain_phase pl K p);
        [lia | apply Z.div_pos; lia].
Qed.

End PipelineSchedule.

Lemma pipeline_schedule_and_overlap_witness :
  (exists pl,
     ConvTiled.forward conv_3x3_six_filters None (Some 2) = Ok pl /\
     ConvTiled.P pl = 2 /\
     loop_bound (ConvTiled.compute_scope conv_3x3_six_filters pl) = 464 /\
     drain_iterators_at (ConvTiled.compute_scope conv_3x3_six_filters pl)
       9 16 0 150
     = {| m_drain := 6; k_drain := 0 |} /\
     ConvTiled.c_pipe_out
       (ConvTiled.compute_and_drain conv_3x3_six_filters pl 1
          {| it_b := 0; it_n0 := 0; it_tm := 0; it_k := 0; it_m := 0;
             it_drain := true;
             it_trail := {| m_drain := 0; k_drain := 0 |} |}
          2 5 10 77 0)
     = Some 77) /\
  (MatMul.forward_batched 8 16 32 64
   = Ok {| MatMul.P := 16; MatMul.T := 64; MatMul.L := 0 |} /\
   loop_bound (MatMul.compute_scope_batched 8 16 32 64
                 {| MatMul.P := 16; MatMul.T := 64; MatMul.L := 0 |})
   = 17408) /\
  MatMul.forward_collated 8 16 32 64
  = Ok {| MatMul.P := 16; MatMul.T := 64; MatMul.L := 0 |}.
Proof.
  pose proof (pipeline_schedule_and_overlap (V := Z)
                conv_3x3_six_filters None (Some 2) 8 16 32 64) as Hthm.
  cbv zeta in Hthm. destruct Hthm as (Hc & Hb & Hco).
  split; [|split].
  - destruct Hc as (pl & Hf & HP & _ & _ & _ & _ & _ & _ & _ & _ & _ & Hloop
                    & _ & Hmain & Hdrain);
      [unfold well_formed; cbn; lia | reflexivity | reflexivity
       | reflexivity | lia |].
    exists pl. split; [exact Hf|]. split; [exact HP|].
    split; [exact Hloop|]. split.
    + destruct (Hmain 150 ltac:(vm_compute; split; [discriminate|reflexivity]))
        as (_ & Htr & _).
      exact Htr.
    + destruct (Hdrain 0 ltac:(vm_compute; split; [discriminate|reflexivity]))
        as (_ & _ & Hout).
      destruct (Hout 1 0 0 0 0 0 2 5 10 77 0
                  ltac:(vm_compute; split; [discriminate|reflexivity]))
        as (_ & Hpipe).
      exact Hpipe.
  - destruct Hb as (_ & Hok); [lia | lia | lia | lia |].
    destruct (Hok ltac:(vm_compute; discriminate))
      as (Hf & _ & _ & Hloop & _).
    split; [exact Hf | exact Hloop].
  - destruct Hco as (_ & Hok); [lia | lia | lia | lia |].
    destruct (Hok ltac:(vm_compute; discriminate)) as (Hf & _).
    exact Hf.
Defined.

(** ** Padding in the moving-operand feeders *)

(** The untiled lowering guards its read: for an odd square kernel and
    stride 1 the read that [read_X] issues lies inside X, and a coordinate
    outside X yields zero without a read. *)
Lemma untiled_read_X_guarded {V : Type} `{Arith V} (c : ConvNode)
    (X : address -> V) (r vec_width b cin x hx y0 y1 hy : Z) :
  0 <= r -> filter_hx c = 2 * r + 1 ->
  input_size_x c = output_size_x c + 2 * r - 2 * padding c ->
  input_size_y c * veclen_X c = output_size_y c * vec_width + 2 * r - 2 * padding c ->
  0 <= b < batch_size c -> 0 <= cin < num_channels c ->
  (forall a, Conv.read_X_issued c vec_width b cin x hx y0 y1 hy = Some a ->
             Conv.in_extent_X c a = true) /\
  (Conv.in_extent_X c (Conv.im2col_input_memlet c vec_width b cin x hx y0 y1 hy) = false ->
   Conv.read_X_issued c vec_width b cin x hx y0 y1 hy = None /\
   Conv.read_X c X vec_width b cin x hx y0 y1 hy = vzero).
Proof.
  intros Hr Hh Hix Hiy Hb Hc.
  assert (Hoff : Conv.offset c = 2 * (r - padding c)).
  { unfold Conv.offset. rewrite Hh. f_equal. f_equal.
    symmetry. apply (Z.div_unique_pos _ _ _ 1); lia. }
  assert (Htest : Conv.read_X_test c vec_width x hx y0 y1 hy
                  = Conv.in_extent_X c
                      (Conv.im2col_input_memlet c vec_width b cin x hx y0 y1 hy)).
  { unfold Conv.read_X_test, Conv.in_extent_X, Conv.im2col_input_memlet.
    rewrite Hoff, Hix, Hiy.
    apply eq_true_iff_eq.
    rewrite !andb_true_iff, !Z.ltb_lt, !Z.leb_le. lia. }
  unfold Conv.read_X, Conv.read_X_issued. rewrite Htest. split.
  - intros a Ha.
    destruct (Conv.in_extent_X c _) eqn:E; [|discriminate].
    injection Ha as <-. exact E.
  - intros E. rewrite E. split; reflexivity.
Qed.

(** Claim C5 on the tiled lowering, at the padded 4x4 image.  For the last
    output pixel and the last kernel position [read_global] reads row 5,
    column 5 of a 4x4 image, although the padding test built next to it
    rejects that position, and the value sent to the kernel is whatever
    that read returns, where the zero-padded image has zero.  For the
    first output pixel and the first kernel position it sends the stored
    corner pixel, where the zero-padded image has zero again. *)
Theorem tiled_read_B_ignores_padding :
  exists pl,
    ConvTiled.forward conv_3x3_same_4x4 None None = Ok pl /\
    ConvTiled.read_global conv_3x3_same_4x4 pl 0 0 8 15 = Some (0, 0, 5, 5) /\
    ConvTiled.in_extent_X conv_3x3_same_4x4 (0, 0, 5, 5) = false /\
    ConvTiled.padding_test_y conv_3x3_same_4x4 pl 0 8 15 = false /\
    (forall (X : address -> Z -> Z) (vec_buf_B img_buffer : Z -> Z),
       ConvTiled.read_B_lane conv_3x3_same_4x4 pl X vec_buf_B img_buffer 0 0 8 15 0
       = X (0, 0, 5, 5) 0 /\
       ConvTiled.padded_reference conv_3x3_same_4x4 X 0 0
         (ConvTiled.access_y conv_3x3_same_4x4 pl 0 8 15)
         (ConvTiled.access_x conv_3x3_same_4x4 pl 0 8 15) = 0 /\
       ConvTiled.read_B_lane conv_3x3_same_4x4 pl X vec_buf_B img_buffer 0 0 0 0 0
       = X (0, 0, 0, 0) 0 /\
       ConvTiled.padded_reference conv_3x3_same_4x4 X 0 0
         (ConvTiled.access_y conv_3x3_same_4x4 pl 0 0 0)
         (ConvTiled.access_x conv_3x3_same_4x4 pl 0 0 0) = 0) /\
    ConvTiled.read_B_lane conv_3x3_same_4x4 pl image_of_ones
      (fun _ => 0) (fun _ => 0) 0 0 8 15 0
    <> ConvTiled.padded_reference conv_3x3_same_4x4 image_of_ones 0 0
         (ConvTiled.access_y conv_3x3_same_4x4 pl 0 8 15)
         (ConvTiled.access_x conv_3x3_same_4x4 pl 0 8 15).
Proof.
  eexists. split; [vm_compute; reflexivity|].
  split; [reflexivity|]. split; [reflexivity|]. split; [reflexivity|].
  split.
  - intros X vec_buf_B img_buffer. repeat split; reflexivity.
  - vm_compute. discriminate.
Qed.

(** * Further properties of the lowerings *)

(** ** Construction of the tiled convolution *)

(** The shape check and the three assertions of [forward] compare a product
    with itself: whatever the node and the arguments, construction never
    ends in a [SyntaxError] or an [AssertionError]. *)
Theorem tiled_forward_dead_checks (c : ConvNode) (tiles pe : option Z) :
  ConvTiled.forward c tiles pe <> Raise SyntaxError_matrix_sizes /\
  ConvTiled.forward c tiles pe <> Raise AssertionError.
Proof.
  rewrite tiled_forward_checks. cbv zeta.
  destruct (veclen_W c >? 1); [split; discriminate|].
  destruct (negb (veclen_Y c =? veclen_X c)); [split; discriminate|].
  destruct (negb (_ =? 0)); [split; discriminate|].
  destruct (_ >? _); split; discriminate.
Qed.

(** On a well-formed node construction succeeds exactly when the weights
    are not vectorized, X and Y have the same vector width and the tile
    size is a multiple of the output width; the three failures are
    reported in that order. *)
Theorem tiled_forward_succeeds_iff (c : ConvNode) (tiles pe : option Z) :
  well_formed c ->
  let T := fst (ConvTiled.tile_size c
                  (match tiles with Some t => t | None => ConvTiled.tiles_default end)) in
  ((exists pl, ConvTiled.forward c tiles pe = Ok pl) <->
   (veclen_W c = 1 /\ veclen_X c = veclen_Y c /\ T mod output_size_x c = 0)) /\
  (1 < veclen_W c ->
   ConvTiled.forward c tiles pe = Raise NotImplementedError_weights_vectorized) /\
  (veclen_W c = 1 -> veclen_X c <> veclen_Y c ->
   ConvTiled.forward c tiles pe = Raise NotImplementedError_vector_widths) /\
  (veclen_W c = 1 -> veclen_X c = veclen_Y c -> T mod output_size_x c <> 0 ->
   ConvTiled.forward c tiles pe
   = Raise NotImplementedError_tile_not_multiple_of_width).
Proof.
  intros Hwf T.
  assert (HW : 1 <= veclen_W c) by (unfold well_formed in Hwf; tauto).
  pose proof (num_PEs_le_K c pe Hwf) as HP.
  assert (Hgt : (ConvTiled.num_PEs c pe
                 >? filter_hx c * filter_hy c * num_channels c) = false)
    by (rewrite Z.gtb_ltb; apply Z.ltb_ge; exact HP).
  rewrite tiled_forward_checks. cbv zeta. fold T. rewrite Hgt.
  destruct (Z.gtb_spec (veclen_W c) 1) as [Hw|Hw].
  - split; [|split; [|split]]; intros; try lia; try reflexivity.
    split; [intros [pl Hpl]; discriminate | intros (Hw1 & _); lia].
  - assert (Hw1 : veclen_W c = 1) by lia.
    destruct (Z.eqb_spec (veclen_Y c) (veclen_X c)) as [Hv|Hv]; cbn [negb].
    + destruct (Z.eqb_spec (T mod output_size_x c) 0) as [Ht|Ht]; cbn [negb].
      * split; [|split; [|split]]; intros; try lia; try congruence.
        split; [intros _; auto | intros _; eexists; reflexivity].
      * split; [|split; [|split]]; intros; try lia; try congruence.
        split; [intros [pl Hpl]; discriminate | intros (_ & _ & Ht0); contradiction].
    + split; [|split; [|split]]; intros; try lia; try congruence.
      split; [intros [pl Hpl]; discriminate | intros (_ & Hx & _); congruence].
Qed.

Lemma tiled_forward_succeeds_iff_witness :
  exists pl, ConvTiled.forward conv_3x3_wide None None = Ok pl.
Proof.
  destruct (tiled_forward_succeeds_iff conv_3x3_wide None None) as ((_ & H) & _).
  - unfold well_formed; cbn; lia.
  - apply H. repeat split; reflexivity.
Defined.

(** What every plan returned for a well-formed node satisfies: at most K
    processing elements (at least one unless the caller asked for a
    negative count), a tile that is a positive multiple of both the vector
    width and the output width, and a safe delay that brings the distance
    between two accumulations on the same partial sum to at least the 16
    cycles the source allows for, and is zero when the tile alone covers
    them. *)
Theorem tiled_plan_invariants (c : ConvNode) (tiles pe : option Z)
    (pl : ConvTiled.Plan) :
  well_formed c ->
  ConvTiled.forward c tiles pe = Ok pl ->
  ConvTiled.K pl = num_channels c * filter_hx c * filter_hy c /\
  ConvTiled.N pl = num_filters c /\
  ConvTiled.M pl = output_size_y c * veclen_Y c * output_size_x c /\
  1 <= ConvTiled.K pl /\
  ConvTiled.P pl <= ConvTiled.K pl /\
  ((forall p, pe = Some p -> 0 <= p) -> 1 <= ConvTiled.P pl) /\
  ConvTiled.T pl mod veclen_Y c = 0 /\
  ConvTiled.T pl mod output_size_x c = 0 /\
  1 <= ConvTiled.Tv c pl /\
  ConvTiled.T pl = ConvTiled.Tv c pl * veclen_Y c /\
  0 <= ConvTiled.L pl /\
  16 <= ConvTiled.Tv c pl + ConvTiled.L pl /\
  (16 <= ConvTiled.Tv c pl -> ConvTiled.L pl = 0).
Proof.
  intros Hwf Hok.
  pose proof (well_formed_K_pos c Hwf) as HK.
  pose proof (num_PEs_le_K c pe Hwf) as HP.
  assert (Hv : 1 <= veclen_Y c) by (unfold well_formed in Hwf; tauto).
  assert (Hnf : 1 <= num_filters c) by (unfold well_formed in Hwf; tauto).
  rewrite tiled_forward_checks in Hok. cbv zeta in Hok.
  set (t := ConvTiled.tile_size c _) in *.
  pose proof (tile_size_ge_veclen c
                (match tiles with Some t => t | None => ConvTiled.tiles_default end) Hv)
    as Hge.
  pose proof (tile_size_multiple_of_veclen c
                (match tiles with Some t => t | None => ConvTiled.tiles_default end))
    as Hmul.
  fold t in Hge, Hmul.
  destruct (veclen_W c >? 1); [discriminate|].
  destruct (negb (veclen_Y c =? veclen_X c)); [discriminate|].
  destruct (Z.eqb_spec (fst t mod output_size_x c) 0) as [Hox|Hox];
    cbn [negb] in Hok; [|discriminate].
  destruct (_ >? _); [discriminate|].
  match type of Hok with
  | Ok ?x = _ => assert (Epl : x = pl) by congruence
  end.
  rewrite <- Epl. clear Epl Hok. unfold ConvTiled.Tv.
  cbn [ConvTiled.K ConvTiled.N ConvTiled.M ConvTiled.P ConvTiled.T ConvTiled.L].
  assert (Hdiv : fst t = fst t / veclen_Y c * veclen_Y c).
  { pose proof (Z.div_mod (fst t) (veclen_Y c) ltac:(lia)). lia. }
  assert (Htv : 1 <= fst t / veclen_Y c) by nia.
  pose proof (K_orders_agree c) as EK.
  split; [reflexivity|]. split; [reflexivity|]. split; [reflexivity|].
  split; [lia|]. split; [lia|].
  split.
  { intros Hpe. unfold ConvTiled.num_PEs.
    assert (H0 : 1 <= match pe with
                      | Some v => if py_not pe then num_filters c else v
                      | None => num_filters c
                      end).
    { destruct pe as [p|]; [|exact Hnf].
      unfold py_not. destruct (Z.eqb_spec p 0); [exact Hnf|].
      specialize (Hpe p eq_refl). lia. }
    destruct (_ >? _); lia. }
  split; [exact Hmul|]. split; [exact Hox|]. split; [exact Htv|].
  split; [exact Hdiv|].
  set (tv := fst t / veclen_Y c) in *.
  repeat split; intros; lia.
Qed.

Lemma tiled_plan_invariants_witness :
  exists pl,
    ConvTiled.forward conv_3x3_wide None None = Ok pl /\
    1 <= ConvTiled.P pl <= ConvTiled.K pl /\
    16 <= ConvTiled.Tv conv_3x3_wide pl + ConvTiled.L pl.
Proof.
  eexists. split; [reflexivity|].
  destruct (tiled_plan_invariants conv_3x3_wide None None _
              ltac:(unfold well_formed; cbn; lia) eq_refl)
    as (_ & _ & _ & _ & HP & HP1 & _ & _ & _ & _ & _ & HL & _).
  split; [split; [apply HP1; intros p Hp; discriminate Hp | exact HP] | exact HL].
Defined.

(** A negative PE count is not rejected: it is neither replaced by the
    number of filters (only 0 and a missing argument are) nor clamped, so
    the plan carries it unchanged. *)
Theorem tiled_negative_pe_accepted (c : ConvNode) (tiles : option Z) (p : Z) :
  well_formed c -> p < 0 ->
  veclen_W c = 1 -> veclen_X c = veclen_Y c ->
  fst (ConvTiled.tile_size c
         (match tiles with Some t => t | None => ConvTiled.tiles_default end))
    mod output_size_x c = 0 ->
  (exists pl, ConvTiled.forward c tiles (Some p) = Ok pl /\ ConvTiled.P pl = p) /\
  ConvTiled.num_PEs c (Some 0) = ConvTiled.num_PEs c None.
Proof.
  intros Hwf Hp HW HX HT.
  pose proof (well_formed_K_pos c Hwf) as HK.
  split; [|reflexivity].
  assert (HP : ConvTiled.num_PEs c (Some p) = p).
  { unfold ConvTiled.num_PEs, py_not.
    destruct (Z.eqb_spec p 0); [lia|].
    destruct (Z.gtb_spec p (filter_hx c * filter_hy c * num_channels c)); [lia|reflexivity]. }
  rewrite tiled_forward_checks. cbv zeta.
  rewrite HP, HW, HX, Z.eqb_refl, HT.
  destruct (Z.gtb_spec p (filter_hx c * filter_hy c * num_channels c)); [lia|].
  cbn. eexists. split; reflexivity.
Qed.

Lemma tiled_negative_pe_accepted_witness :
  exists pl,
    ConvTiled.forward conv_3x3_same_4x4 None (Some (-3)) = Ok pl /\
    ConvTiled.P pl = -3.
Proof.
  destruct (tiled_negative_pe_accepted conv_3x3_same_4x4 None (-3)
              ltac:(unfold well_formed; cbn; lia) ltac:(lia)
              eq_refl eq_refl eq_refl) as (H & _).
  exact H.
Defined.

(** [ceiling_div] is the least number of blocks of size [b] that cover
    [a]. *)
(** Every pipeline that [forward] constructs for a well-formed node keeps
    its trailing iterators in range at every iteration, and every update
    is one of the two actions. *)
Theorem tiled_constructed_pipeline_iterators (c : ConvNode)
    (tiles pe : option Z) (pl : ConvTiled.Plan) (i : nat) :
  well_formed c ->
  (forall p, pe = Some p -> 0 <= p) ->
  ConvTiled.forward c tiles pe = Ok pl ->
  iterators_in_range (ConvTiled.compute_scope c pl)
    (ConvTiled.K pl) (ConvTiled.Tv c pl) (ConvTiled.L pl) i /\
  exactly_one_action (ConvTiled.K pl)
    (drain_iterators_at (ConvTiled.compute_scope c pl)
       (ConvTiled.K pl) (ConvTiled.Tv c pl) (ConvTiled.L pl) i)
    (drain_iterators_at (ConvTiled.compute_scope c pl)
       (ConvTiled.K pl) (ConvTiled.Tv c pl) (ConvTiled.L pl) (S i)).
Proof.
  intros Hwf Hpe Hok.
  destruct (tiled_plan_invariants c tiles pe pl Hwf Hok)
    as (_ & HN & HM & HK & _ & HP & Hmv & _ & Htv & HT & HL & _).
  specialize (HP Hpe).
  assert (Hb : 1 <= batch_size c) by (unfold well_formed in Hwf; tauto).
  assert (Hnf : 1 <= ConvTiled.N pl) by (rewrite HN; unfold well_formed in Hwf; tauto).
  assert (Hv : 1 <= veclen_Y c) by (unfold well_formed in Hwf; tauto).
  assert (HM1 : 1 <= ConvTiled.M pl).
  { rewrite HM. unfold well_formed in Hwf. nia. }
  assert (HT1 : 1 <= ConvTiled.T pl) by nia.
  pose proof (ceiling_div_pos _ _ Hnf HP) as Hn0.
  pose proof (ceiling_div_pos _ _ HM1 HT1) as Htm.
  apply (drain_iterators_invariant _ _ _ _
           (batch_size c * ceiling_div (ConvTiled.N pl) (ConvTiled.P pl)
            * ceiling_div (ConvTiled.M pl) (ConvTiled.T pl)));
    try assumption.
  - nia.
  - apply scope_iterations_tiled.
Qed.

Lemma tiled_constructed_pipeline_iterators_witness :
  exists pl,
    ConvTiled.forward conv_3x3_wide None (Some 2) = Ok pl /\
    iterators_in_range (ConvTiled.compute_scope conv_3x3_wide pl)
      (ConvTiled.K pl) (ConvTiled.Tv conv_3x3_wide pl) (ConvTiled.L pl) 300.
Proof.
  eexists. split; [reflexivity|].
  apply (tiled_constructed_pipeline_iterators conv_3x3_wide None (Some 2) _ 300).
  - unfold well_formed; cbn; lia.
  - intros p Hp. injection Hp as <-. lia.
  - reflexivity.
Defined.

(** When the requested tile size (256 by default) is at least M the whole
    row forms one tile: for a well-formed node with unvectorized weights
    and equal vector widths construction succeeds with T = M and a single
    tile. *)
Theorem tiled_single_tile (c : ConvNode) (tiles pe : option Z) :
  well_formed c ->
  veclen_W c = 1 -> veclen_X c = veclen_Y c ->
  output_size_y c * veclen_Y c * output_size_x c
    <= match tiles with Some t => t | None => 256 end ->
  exists pl,
    ConvTiled.forward c tiles pe = Ok pl /\
    ConvTiled.T pl = ConvTiled.M pl /\
    ceiling_div (ConvTiled.M pl) (ConvTiled.T pl) = 1 /\
    ConvTiled.log pl = [Using_PEs (ConvTiled.P pl) (num_filters c)].
Proof.
  intros Hwf HW HX Hle.
  pose proof (num_PEs_le_K c pe Hwf) as HP.
  set (M := output_size_y c * veclen_Y c * output_size_x c) in *.
  assert (Hpos : 1 <= veclen_Y c /\ 1 <= output_size_x c /\ 1 <= output_size_y c)
    by (unfold well_formed in Hwf; tauto).
  destruct Hpos as (Hv & Hox & Hoy).
  assert (HM1 : veclen_Y c <= M).
  { assert (Hxy : 1 <= output_size_y c * output_size_x c) by nia.
    unfold M.
    replace (output_size_y c * veclen_Y c * output_size_x c)
      with (output_size_y c * output_size_x c * veclen_Y c) by ring.
    nia. }
  assert (HMv : M mod veclen_Y c = 0).
  { unfold M. replace (output_size_y c * veclen_Y c * output_size_x c)
      with (output_size_y c * output_size_x c * veclen_Y c) by ring.
    apply Z.mod_mul. lia. }
  assert (HMx : M mod output_size_x c = 0) by (unfold M; apply Z.mod_mul; lia).
  assert (Ht : ConvTiled.tile_size c
                 (match tiles with Some t => t | None => ConvTiled.tiles_default end)
               = (M, [])).
  { unfold ConvTiled.tile_size, ConvTiled.tiles_default. fold M.
    replace (Z.min (match tiles with Some t => t | None => 256 end) M) with M by lia.
    destruct (Z.gtb_spec (veclen_Y c) M); [lia|].
    rewrite HMv. reflexivity. }
  rewrite tiled_forward_checks. cbv zeta. rewrite Ht. cbn [fst snd].
  rewrite HW, HX, Z.eqb_refl, HMx.
  destruct (Z.gtb_spec (ConvTiled.num_PEs c pe)
              (filter_hx c * filter_hy c * num_channels c)); [lia|].
  cbn [Z.gtb Z.compare negb Z.eqb].
  eexists. split; [reflexivity|].
  cbn [ConvTiled.T ConvTiled.M ConvTiled.log ConvTiled.P]. fold M.
  split; [reflexivity|]. split; [|reflexivity].
  pose proof (ceiling_div_bounds M M ltac:(lia)). nia.
Qed.

Lemma tiled_single_tile_witness :
  exists pl,
    ConvTiled.forward conv_3x3_same_4x4 None None = Ok pl /\
    ConvTiled.T pl = ConvTiled.M pl.
Proof.
  destruct (tiled_single_tile conv_3x3_same_4x4 None None
              ltac:(unfold well_formed; cbn; lia) eq_refl eq_refl
              ltac:(cbn; lia)) as (pl & Hf & HT & _).
  exists pl. split; [exact Hf | exact HT].
Defined.

(** ** Coverage of the output collector *)

(** Splitting an index below [n] into a block number and a position in the
    block, for blocks of size [b], and back. *)
Lemma block_split_unique (x b q r : Z) :
  1 <= b -> 0 <= r < b -> q * b + r = x -> q = x / b /\ r = x mod b.
Proof.
  intros Hb Hr E. split.
  - apply (Z.div_unique x b q r); lia.
  - apply (Z.mod_unique x b q r); lia.
Qed.

(** Every entry of the N x M result whose column starts a vector is
    written by exactly one iteration of [write_C]: the iteration found by
    dividing the row by P and the column by T, which lies inside the map
    ranges and passes the guard; no other iteration of the map addresses
    the same row and column. *)
Theorem write_C_covers_each_entry_once (c : ConvNode) (pl : ConvTiled.Plan)
    (row col : Z) :
  1 <= ConvTiled.P pl -> 1 <= veclen_Y c -> 1 <= ConvTiled.Tv c pl ->
  ConvTiled.T pl = ConvTiled.Tv c pl * veclen_Y c ->
  0 <= row < ConvTiled.N pl -> 0 <= col < ConvTiled.M pl ->
  col mod veclen_Y c = 0 ->
  let n0 := row / ConvTiled.P pl in
  let n1 := row mod ConvTiled.P pl in
  let tm := col / ConvTiled.T pl in
  let m := (col mod ConvTiled.T pl) / veclen_Y c in
  (0 <= n0 < ceiling_div (ConvTiled.N pl) (ConvTiled.P pl) /\
   0 <= tm < ceiling_div (ConvTiled.M pl) (ConvTiled.T pl) /\
   0 <= n1 < ConvTiled.P pl /\ 0 <= m < ConvTiled.Tv c pl) /\
  ConvTiled.write_C_guard c pl n0 tm n1 m = true /\
  n0 * ConvTiled.P pl + n1 = row /\
  tm * ConvTiled.T pl + m * veclen_Y c = col /\
  (forall n0' tm' n1' m',
     0 <= n1' < ConvTiled.P pl -> 0 <= m' < ConvTiled.Tv c pl ->
     n0' * ConvTiled.P pl + n1' = row ->
     tm' * ConvTiled.T pl + m' * veclen_Y c = col ->
     n0' = n0 /\ tm' = tm /\ n1' = n1 /\ m' = m).
Proof.
  intros HP Hv Htv HT Hrow Hcol Hcv n0 n1 tm m.
  set (P := ConvTiled.P pl) in *. set (T := ConvTiled.T pl) in *.
  set (v := veclen_Y c) in *. set (tv := ConvTiled.Tv c pl) in *.
  assert (HT1 : 1 <= T) by nia.
  pose proof (Z.div_mod row P ltac:(lia)) as Er.
  pose proof (Z.mod_pos_bound row P ltac:(lia)) as Br.
  pose proof (Z.div_mod col T ltac:(lia)) as Ec.
  pose proof (Z.mod_pos_bound col T ltac:(lia)) as Bc.
  fold n0 n1 in Er, Br. fold tm in Ec.
  assert (Hn0 : 0 <= n0) by (apply Z.div_pos; lia).
  assert (Htm : 0 <= tm) by (apply Z.div_pos; lia).
  (* the offset inside the tile is a whole number of vectors *)
  assert (Hcm : (col mod T) mod v = 0).
  { apply Z.mod_divide; [lia|].
    apply Z.mod_divide in Hcv; [|lia].
    replace (col mod T) with (col - T * tm) by lia.
    apply Z.divide_sub_r; [exact Hcv|].
    rewrite HT. exists (tv * tm). ring. }
  pose proof (Z.div_mod (col mod T) v ltac:(lia)) as Em.
  fold m in Em. rewrite Hcm in Em.
  assert (Hm : 0 <= m < tv).
  { split; [apply Z.div_pos; lia|].
    apply Z.div_lt_upper_bound; [lia|]. lia. }
  pose proof (ceiling_div_bounds (ConvTiled.N pl) P HP) as CN.
  pose proof (ceiling_div_bounds (ConvTiled.M pl) T HT1) as CM.
  assert (Hn0u : n0 < ceiling_div (ConvTiled.N pl) P).
  { apply Z.div_lt_upper_bound; [lia|]. lia. }
  assert (Htmu : tm < ceiling_div (ConvTiled.M pl) T).
  { apply Z.div_lt_upper_bound; [lia|]. lia. }
  assert (E1 : n0 * P + n1 = row) by lia.
  assert (E2 : tm * T + m * v = col) by lia.
  split; [repeat split; lia|].
  split.
  { unfold ConvTiled.write_C_guard. fold P T v.
    rewrite E1, E2. apply andb_true_iff. split; apply Z.ltb_lt; lia. }
  split; [exact E1|]. split; [exact E2|].
  intros n0' tm' n1' m' Hn1' Hm' Er' Ec'.
  destruct (block_split_unique row P n0' n1' HP Hn1' Er') as (-> & ->).
  assert (Hmv : 0 <= m' * v < T) by nia.
  destruct (block_split_unique col T tm' (m' * v) HT1 Hmv Ec') as (-> & Emv).
  repeat split; try reflexivity.
  unfold m. rewrite <- Emv. symmetry. apply Z.div_mul. lia.
Qed.

Lemma write_C_covers_each_entry_once_witness :
  ConvTiled.write_C_guard conv_3x3_same_4x4 plan_two_PEs (1 / 2) (6 / 16)
    (1 mod 2) ((6 mod 16) / 1) = true.
Proof.
  destruct (write_C_covers_each_entry_once conv_3x3_same_4x4 plan_two_PEs 1 6
              ltac:(cbn; lia) ltac:(cbn; lia) ltac:(cbn; lia) eq_refl
              ltac:(cbn; lia) ltac:(cbn; lia) eq_refl)
    as (_ & Hg & _).
  exact Hg.
Defined.

(** ** The moving-operand feeder without padding *)

(** For an unvectorized square image, a square kernel and no padding, every
    read that the tiled feeder issues lies inside X, at the window position
    of the output pixel and kernel offset it serves, and the value sent to
    the kernel is the stored pixel, which is also what the zero-padded
    reference has there. *)
Theorem tiled_read_B_without_padding {V : Type} `{Arith V}
    (c : ConvNode) (pl : ConvTiled.Plan) (X : address -> Z -> V)
    (vec_buf_B img_buffer : Z -> V) (h o b tm k m0 : Z) :
  padding c = 0 -> veclen_X c = 1 -> veclen_Y c = 1 ->
  1 <= h -> filter_hx c = h -> filter_hy c = h ->
  1 <= o -> output_size_x c = o -> output_size_y c = o ->
  input_size_x c = o + h - 1 -> input_size_y c = o + h - 1 ->
  ConvTiled.M pl = o * o ->
  0 <= b < batch_size c ->
  0 <= k < h * h * num_channels c ->
  0 <= ConvTiled.matrix_col c pl tm m0 < ConvTiled.M pl ->
  let a := (b, k / (h * h),
            ConvTiled.out_y c pl tm m0 + (k mod (h * h)) / h,
            ConvTiled.out_x c pl tm m0 + (k mod (h * h)) mod h) in
  ConvTiled.read_global c pl b tm k m0 = Some a /\
  ConvTiled.in_extent_X c a = true /\
  0 <= ConvTiled.out_y c pl tm m0 < o /\
  0 <= ConvTiled.out_x c pl tm m0 < o /\
  ConvTiled.read_B_lane c pl X vec_buf_B img_buffer b tm k m0 0 = X a 0 /\
  ConvTiled.padded_reference c X b (k / (h * h))
    (ConvTiled.access_y c pl tm k m0) (ConvTiled.access_x c pl tm k m0) = X a 0.
Proof.
  intros Hp HvX HvY Hh Hhx Hhy Ho Hox Hoy Hix Hiy HM Hb Hk Hcol a.
  assert (Hsplit := contraction_index_split c k).
  rewrite Hhx, Hhy in Hsplit.
  specialize (Hsplit Hh Hh Hk). cbv zeta in Hsplit.
  destruct Hsplit as (_ & Hch & Hrow & Hcl).
  unfold ConvTiled.matrix_col in Hcol. rewrite HvY in Hcol.
  assert (Hy : 0 <= ConvTiled.out_y c pl tm m0 < o).
  { unfold ConvTiled.out_y, ConvTiled.matrix_col. rewrite HvY, Hox.
    split; [apply Z.div_pos; lia|].
    apply Z.div_lt_upper_bound; [lia|]. lia. }
  assert (Hx : 0 <= ConvTiled.out_x c pl tm m0 < o).
  { unfold ConvTiled.out_x, ConvTiled.matrix_col. rewrite HvY, Hox.
    apply Z.mod_pos_bound. lia. }
  assert (Hrg : ConvTiled.read_global c pl b tm k m0 = Some a).
  { unfold ConvTiled.read_global. rewrite HvY, HvX.
    destruct (Z.ltb_spec (tm * ConvTiled.T pl + m0 * 1) (ConvTiled.M pl)); [|lia].
    rewrite Z.mod_1_r. cbn [Z.eqb].
    unfold ConvTiled.access_vec, ConvTiled.channel, ConvTiled.access_y,
      ConvTiled.access_x, ConvTiled.filter_off_y, ConvTiled.filter_off_x.
    rewrite HvX, Hhx, Hhy, Z.div_1_r. reflexivity. }
  assert (Hext : ConvTiled.in_extent_X c a = true).
  { unfold ConvTiled.in_extent_X, a. rewrite Hix, Hiy.
    rewrite !andb_true_iff, !Z.leb_le, !Z.ltb_lt. lia. }
  assert (Hacc : (b, k / (h * h), ConvTiled.access_y c pl tm k m0 - padding c,
                  ConvTiled.access_x c pl tm k m0 - padding c) = a).
  { unfold a, ConvTiled.access_y, ConvTiled.access_x, ConvTiled.filter_off_y,
      ConvTiled.filter_off_x.
    rewrite Hp, Hhx, Hhy, !Z.sub_0_r. reflexivity. }
  split; [exact Hrg|]. split; [exact Hext|].
  split; [exact Hy|]. split; [exact Hx|]. split.
  - unfold ConvTiled.read_B_lane, ConvTiled.write_pipe.
    rewrite Hrg, HvY, HvX.
    destruct (Z.ltb_spec (tm * ConvTiled.T pl + m0 * 1) (ConvTiled.M pl)); [|lia].
    rewrite Z.mod_1_r. reflexivity.
  - unfold ConvTiled.padded_reference. rewrite Hacc, Hext. reflexivity.
Qed.

Lemma tiled_read_B_without_padding_witness :
  ConvTiled.read_global
    {| batch_size := 1; num_filters := 1; num_channels := 1;
       filter_hx := 3; filter_hy := 3; input_size_x := 6; input_size_y := 6;
       output_size_x := 4; output_size_y := 4; padding := 0;
       veclen_X := 1; veclen_W := 1; veclen_Y := 1 |}
    plan_two_PEs 0 0 8 15 = Some (0, 0, 5, 5).
Proof.
  destruct (tiled_read_B_without_padding
              {| batch_size := 1; num_filters := 1; num_channels := 1;
                 filter_hx := 3; filter_hy := 3; input_size_x := 6; input_size_y := 6;
                 output_size_x := 4; output_size_y := 4; padding := 0;
                 veclen_X := 1; veclen_W := 1; veclen_Y := 1 |}
              plan_two_PEs image_of_ones (fun _ => 0) (fun _ => 0)
              3 4 0 0 8 15
              eq_refl eq_refl eq_refl ltac:(lia) eq_refl eq_refl
              ltac:(lia) eq_refl eq_refl eq_refl eq_refl eq_refl
              ltac:(cbn; lia) ltac:(cbn; lia) ltac:(cbn; lia))
    as (Hr & _).
  exact Hr.
Defined.

(** ** Applicability of the convolution lowerings *)

Lemma all_zero_all_equal_to_first (l : list Z) :
  all_equal_to 0 l = true -> all_equal_to_first l = true.
Proof.
  unfold all_equal_to, all_equal_to_first. intros Hz.
  destruct l as [|p0 l']; [reflexivity|].
  rewrite forallb_forall in Hz. apply forallb_forall. intros p Hp.
  pose proof (Hz p0 (or_introl eq_refl)) as H0.
  pose proof (Hz p Hp) as H1.
  apply Z.eqb_eq in H0. apply Z.eqb_eq in H1. apply Z.eqb_eq. lia.
Qed.

(** A node that the naive lowering accepts is accepted by the im2col
    lowering, and the tiled lowering accepts exactly the nodes that the
    im2col lowering accepts and whose weights are not vectorized. *)
Theorem conv_applicability_chain (n : ConvOp) :
  (naive_can_be_applied n = Returns true -> im2col_can_be_applied n = Returns true) /\
  (tiled_can_be_applied n = Returns true <->
   im2col_can_be_applied n = Returns true /\ W_veclen n <= 1).
Proof.
  unfold naive_can_be_applied, im2col_can_be_applied, tiled_can_be_applied.
  destruct (py_index (W_shape n) 0) as [nf|e]; cbn [and_then];
    [|split; [discriminate | split; [discriminate | intros [H _]; discriminate H]]].
  destruct (py_index (X_shape n) 1) as [nc|e]; cbn [and_then];
    [|split; [discriminate | split; [discriminate | intros [H _]; discriminate H]]].
  destruct (negb (len (X_shape n) =? 4) || negb (len (W_shape n) =? 4));
    [split; [destruct (_ || _); discriminate
            | split; [discriminate | intros [H _]; discriminate H]]|].
  destruct (negb (group n =? 1));
    [split; [destruct (_ || _); discriminate
            | split; [discriminate | intros [H _]; discriminate H]]|].
  destruct (py_index (W_shape n) 1) as [w1|e]; cbn [and_then];
    [|split; [destruct (_ || _); discriminate
             | split; [discriminate | intros [H _]; discriminate H]]].
  destruct (negb (nc =? w1));
    [split; [destruct (_ || _); discriminate
            | split; [discriminate | intros [H _]; discriminate H]]|].
  destruct (bad_dilations n (len (X_shape n) - 2));
    [split; [destruct (_ || _); discriminate
            | split; [discriminate | intros [H _]; discriminate H]]|].
  destruct (pads n) as [ps|].
  - destruct (negb (all_equal_to_first ps)
              || negb (len ps =? (len (X_shape n) - 2) * 2)) eqn:Eu.
    + split; [|split; [discriminate | intros [H _]; discriminate H]].
      destruct (negb (is_float (X_dtype n)) || negb (is_float (W_dtype n)));
        [discriminate|].
      destruct (negb (all_equal_to 0 ps)
                || negb (len ps =? (len (X_shape n) - 2) * 2)) eqn:Ez;
        [discriminate|].
      apply orb_false_iff in Ez. destruct Ez as [Ez El].
      apply negb_false_iff in Ez. apply all_zero_all_equal_to_first in Ez.
      rewrite Ez, El in Eu. discriminate Eu.
    + split.
      * destruct (negb (is_float (X_dtype n)) || negb (is_float (W_dtype n)));
          [discriminate|].
        destruct (negb (all_equal_to 0 ps)
                  || negb (len ps =? (len (X_shape n) - 2) * 2));
          [discriminate|]. trivial.
      * destruct (Z.gtb_spec (W_veclen n) 1) as [Hw|Hw].
        -- split; [discriminate | intros [_ H]; lia].
        -- split; [intros H; split; [exact H | exact Hw] | intros [H _]; exact H].
  - split.
    + destruct (negb (is_float (X_dtype n)) || negb (is_float (W_dtype n)));
        [discriminate|]. trivial.
    + destruct (Z.gtb_spec (W_veclen n) 1) as [Hw|Hw].
      * split; [discriminate | intros [_ H]; lia].
      * split; [intros H; split; [exact H | exact Hw] | intros [H _]; exact H].
Qed.

Lemma len_eq_4 (l : list Z) :
  (len l =? 4) = true -> exists a b c d, l = [a; b; c; d].
Proof.
  unfold len. intros H. apply Z.eqb_eq in H.
  destruct l as [|a [|b [|c [|d [|e l]]]]]; cbn [length] in H; try lia.
  exists a, b, c, d. reflexivity.
Qed.

(** What a node accepted by the im2col lowering looks like: X and W have
    rank 4 and agree on the number of channels, the group is 1, dilations
    when given are two ones, pads when given are four equal values,
    strides when given are two values, a bias when present has one entry
    per filter, and [auto_pad] is not set. *)
Theorem im2col_applicable_inversion (n : ConvOp) :
  im2col_can_be_applied n = Returns true ->
  (exists b ch h w f kh kw,
     X_shape n = [b; ch; h; w] /\ W_shape n = [f; ch; kh; kw] /\
     match B_shape n with
     | Some bs => exists rest, bs = f :: rest
     | None => True
     end) /\
  group n = 1 /\
  match dilations n with
  | Some ds => ds = [1; 1]
  | None => True
  end /\
  match pads n with
  | Some ps => exists p, ps = [p; p; p; p]
  | None => True
  end /\
  match strides n with
  | Some ss => length ss = 2%nat
  | None => True
  end /\
  auto_pad n = NOTSET.
Proof.
  unfold im2col_can_be_applied.
  destruct (py_index (W_shape n) 0) as [nf|e] eqn:EW0; cbn [and_then]; [|discriminate].
  destruct (py_index (X_shape n) 1) as [nc|e] eqn:EX1; cbn [and_then]; [|discriminate].
  destruct (negb (len (X_shape n) =? 4) || negb (len (W_shape n) =? 4)) eqn:Erank;
    [discriminate|].
  apply orb_false_iff in Erank. destruct Erank as [EX EW].
  apply negb_false_iff in EX. apply negb_false_iff in EW.
  destruct (len_eq_4 _ EX) as (b & ch & h & w & HX).
  destruct (len_eq_4 _ EW) as (f & ch' & kh & kw & HW).
  rewrite HX, HW in *. cbn in EW0, EX1.
  injection EW0 as <-. injection EX1 as <-.
  destruct (Z.eqb_spec (group n) 1) as [Hg|Hg]; cbn [negb]; [|discriminate].
  cbn [py_index nth_error and_then].
  destruct (Z.eqb_spec ch ch') as [<-|Hc]; cbn [negb]; [|discriminate].
  unfold bad_dilations, bad_strides, bad_bias, len. cbn [length].
  change (Z.of_nat 4 - 2) with 2. change (2 * 2) with 4.
  intros H.
  assert (Hd : match dilations n with Some ds => ds = [1; 1] | None => True end).
  { destruct (dilations n) as [ds|]; [|exact I].
    destruct (negb (all_equal_to 1 ds) || negb (Z.of_nat (length ds) =? 2)) eqn:E;
      [discriminate|].
    apply orb_false_iff in E. destruct E as [E1 E2].
    apply negb_false_iff in E1. apply negb_false_iff in E2. apply Z.eqb_eq in E2.
    destruct ds as [|d1 [|d2 [|d3 ds]]]; cbn [length] in E2; try lia.
    cbn in E1. rewrite !andb_true_iff, !Z.eqb_eq in E1.
    destruct E1 as (-> & -> & _). reflexivity. }
  destruct (match dilations n with Some _ => _ | None => false end); [discriminate|].
  assert (Hp : match pads n with Some ps => exists p, ps = [p; p; p; p] | None => True end).
  { destruct (pads n) as [ps|]; [|exact I].
    destruct (negb (all_equal_to_first ps) || negb (Z.of_nat (length ps) =? 4)) eqn:E;
      [discriminate|].
    apply orb_false_iff in E. destruct E as [E1 E2].
    apply negb_false_iff in E1. apply negb_false_iff in E2. apply Z.eqb_eq in E2.
    destruct ps as [|p1 [|p2 [|p3 [|p4 [|p5 ps]]]]]; cbn [length] in E2; try lia.
    cbn in E1. rewrite !andb_true_iff, !Z.eqb_eq in E1.
    destruct E1 as (_ & -> & -> & -> & _). exists p1. reflexivity. }
  destruct (match pads n with Some _ => _ | None => false end); [discriminate|].
  assert (Hs : match strides n with Some ss => length ss = 2%nat | None => True end).
  { destruct (strides n) as [ss|]; [|exact I].
    destruct (Z.eqb_spec (Z.of_nat (length ss)) 2); [lia|discriminate]. }
  destruct (match strides n with Some _ => _ | None => false end); [discriminate|].
  assert (Hb : match B_shape n with Some bs => exists rest, bs = f :: rest | None => True end).
  { destruct (B_shape n) as [bs|]; [|exact I].
    destruct bs as [|b0 rest]; [discriminate|].
    cbn in H. destruct (Z.eqb_spec b0 f) as [->|]; [|discriminate].
    exists rest. reflexivity. }
  destruct (match B_shape n with Some _ => _ | None => Returns false end)
    as [[|]|]; cbn [and_then] in H; try discriminate.
  destruct (auto_pad n); try discriminate.
  split; [exists b, ch, h, w, f, kh, kw; auto|]. auto.
Qed.

(** The predicates index the shapes before they test the ranks: on an X of
    rank below 2 or a W of rank 0 they raise [IndexError] instead of
    answering; otherwise, unless the bias has rank 0, all three answer. *)
Theorem conv_applicability_index_error (n : ConvOp) :
  ((length (X_shape n) < 2)%nat \/ W_shape n = [] ->
   naive_can_be_applied n = Throws IndexError /\
   im2col_can_be_applied n = Throws IndexError /\
   tiled_can_be_applied n = Throws IndexError) /\
  ((2 <= length (X_shape n))%nat -> W_shape n <> [] -> B_shape n <> Some [] ->
   exists b1 b2 b3,
     naive_can_be_applied n = Returns b1 /\
     im2col_can_be_applied n = Returns b2 /\
     tiled_can_be_applied n = Returns b3).
Proof.
  split.
  - intros Hshort.
    unfold naive_can_be_applied, im2col_can_be_applied, tiled_can_be_applied.
    destruct (W_shape n) as [|f W'] eqn:EW; cbn [py_index nth_error and_then];
      [repeat split|].
    destruct Hshort as [Hx|Hw]; [|discriminate Hw].
    destruct (X_shape n) as [|b [|ch X']]; cbn [length] in Hx; try lia;
      cbn [py_index nth_error and_then]; repeat split.
  - intros HX HW HB.
    assert (Hbias : forall nf, exists bb, bad_bias n nf = Returns bb).
    { intros nf. unfold bad_bias. destruct (B_shape n) as [[|b0 bs]|].
      - contradiction HB. reflexivity.
      - cbn. eexists. reflexivity.
      - eexists. reflexivity. }
    destruct (W_shape n) as [|f W'] eqn:EW; [contradiction HW; reflexivity|].
    destruct (X_shape n) as [|b [|ch X']] eqn:EX; cbn [length] in HX; try lia.
    destruct (Hbias f) as [bb Hbb].
    assert (Hlater :
              forall k : Z -> outcome bool,
                (forall w1, exists v, k w1 = Returns v) ->
                exists v,
                  (if negb (len (b :: ch :: X') =? 4) || negb (len (f :: W') =? 4)
                   then Returns false
                   else if negb (group n =? 1) then Returns false
                        else w1 <~ py_index (f :: W') 1 ;; k w1) = Returns v).
    { intros k Hk.
      destruct (negb (len (b :: ch :: X') =? 4) || negb (len (f :: W') =? 4)) eqn:Er;
        [eexists; reflexivity|].
      apply orb_false_iff in Er. destruct Er as [_ Er].
      apply negb_false_iff in Er. destruct (len_eq_4 _ Er) as (f' & c' & kh & kw & E).
      injection E as -> ->.
      destruct (negb (group n =? 1)); [eexists; reflexivity|].
      cbn [py_index nth_error and_then]. apply Hk. }
    assert (Htail :
              exists v,
                (bb0 <~ bad_bias n f ;;
                 (if bb0 then Returns false
                  else if negb (is_NOTSET (auto_pad n)) then Returns false
                       else Returns true)) = Returns v).
    { rewrite Hbb. cbn [and_then].
      destruct bb; [eexists; reflexivity|].
      destruct (negb (is_NOTSET (auto_pad n))); eexists; reflexivity. }
    assert (Hnaive : exists v, naive_can_be_applied n = Returns v).
    { unfold naive_can_be_applied. rewrite EW, EX.
      cbn [py_index nth_error and_then].
      destruct (negb (is_float (X_dtype n)) || negb (is_float (W_dtype n)));
        [eexists; reflexivity|].
      apply Hlater. intros w1.
      repeat match goal with
             | |- exists _, (if ?c then _ else _) = _ =>
                 destruct c; [eexists; reflexivity|]
             end.
      exact Htail. }
    assert (Him : exists v, im2col_can_be_applied n = Returns v).
    { unfold im2col_can_be_applied. rewrite EW, EX.
      cbn [py_index nth_error and_then].
      apply Hlater. intros w1.
      repeat match goal with
             | |- exists _, (if ?c then _ else _) = _ =>
                 destruct c; [eexists; reflexivity|]
             end.
      exact Htail. }
    assert (Hti : exists v, tiled_can_be_applied n = Returns v).
    { unfold tiled_can_be_applied. rewrite EW, EX.
      cbn [py_index nth_error and_then].
      apply Hlater. intros w1.
      repeat match goal with
             | |- exists _, (if ?c then _ else _) = _ =>
                 destruct c; [eexists; reflexivity|]
             end.
      exact Htail. }
    destruct Hnaive as [b1 H1]. destruct Him as [b2 H2]. destruct Hti as [b3 H3].
    exists b1, b2, b3. repeat split; assumption.
Qed.

(** Applicability does not make a node readable.  A node that both im2col
    predicates accept may have no [pads] attribute, and then the head of
    either [forward] fails with a [TypeError] on [node.pads[0]].  With
    [pads] present (and a kernel shape of two entries, a Y of rank 4) the
    node is read: the padding is the common value of the four pads, and
    the sizes are the entries of the shapes, the two spatial extents of X
    taken in opposite orders by the two lowerings. *)
Theorem applicable_node_reading (n : ConvOp) :
  tiled_can_be_applied n = Returns true ->
  match kernel_shape n with Some ks => length ks = 2%nat | None => True end ->
  length (Y_shape n) = 4%nat ->
  match pads n with
  | None =>
      tiled_read_node n = Throws TypeError /\
      untiled_read_node n = Throws TypeError
  | Some ps =>
      exists c u,
        tiled_read_node n = Returns c /\
        untiled_read_node n = Returns u /\
        ps = [padding c; padding c; padding c; padding c] /\
        padding u = padding c /\
        X_shape n = [batch_size c; num_channels c; input_size_y c; input_size_x c] /\
        X_shape n = [batch_size u; num_channels u; input_size_x u; input_size_y u] /\
        skipn 2 (Y_shape n) = [output_size_x c; output_size_y c] /\
        skipn 2 (Y_shape n) = [output_size_x u; output_size_y u] /\
        firstn 2 (W_shape n) = [num_filters c; num_channels c] /\
        veclen_W c <= 1
  end.
Proof.
  intros Happ Hks HY.
  apply conv_applicability_chain in Happ. destruct Happ as [Him Hwv].
  destruct (im2col_applicable_inversion n Him)
    as ((b & ch & h & w & f & kh & kw & HX & HW & _) & _ & _ & Hp & _).
  assert (Hfilter : exists hx hy,
             match kernel_shape n with
             | Some ks => unpack2 ks
             | None => unpack2 (skipn 2 (W_shape n))
             end = Returns (hx, hy)).
  { destruct (kernel_shape n) as [ks|].
    - destruct ks as [|a [|b' [|c' ks]]]; cbn [length] in Hks; try lia.
      exists a, b'. reflexivity.
    - rewrite HW. exists kh, kw. reflexivity. }
  destruct Hfilter as (hx & hy & Hf).
  destruct (Y_shape n) as [|y0 [|y1 [|y2 [|y3 [|y4 Y']]]]] eqn:EY;
    cbn [length] in HY; try lia.
  unfold tiled_read_node, untiled_read_node.
  rewrite Hf, HX, HW, EY. cbn [py_index nth_error and_then skipn unpack2].
  destruct (pads n) as [ps|].
  - destruct Hp as [p ->]. cbn [py_index nth_error and_then].
    eexists. eexists. split; [reflexivity|]. split; [reflexivity|].
    cbn. repeat split; try reflexivity. exact Hwv.
  - split; reflexivity.
Qed.

Lemma applicable_node_reading_witness :
  tiled_read_node
    {| X_shape := [1; 1; 4; 4]; X_dtype := float32; X_veclen := 1;
       W_shape := [1; 1; 3; 3]; W_dtype := float32; W_veclen := 1;
       Y_shape := [1; 1; 2; 2]; Y_veclen := 1; B_shape := None;
       group := 1; dilations := None; pads := None; strides := None;
       kernel_shape := None; auto_pad := NOTSET |} = Throws TypeError.
Proof.
  pose proof (applicable_node_reading
                {| X_shape := [1; 1; 4; 4]; X_dtype := float32; X_veclen := 1;
                   W_shape := [1; 1; 3; 3]; W_dtype := float32; W_veclen := 1;
                   Y_shape := [1; 1; 2; 2]; Y_veclen := 1; B_shape := None;
                   group := 1; dilations := None; pads := None; strides := None;
                   kernel_shape := None; auto_pad := NOTSET |}
                eq_refl I eq_refl) as H.
  exact (proj1 H).
Defined.

Lemma conv_applicability_index_error_witness :
  im2col_can_be_applied
    {| X_shape := [8]; X_dtype := float32; X_veclen := 1;
       W_shape := [1; 1; 3; 3]; W_dtype := float32; W_veclen := 1;
       Y_shape := [1; 1; 2; 2]; Y_veclen := 1; B_shape := None;
       group := 1; dilations := None; pads := None; strides := None;
       kernel_shape := None; auto_pad := NOTSET |} = Throws IndexError.
Proof.
  destruct (conv_applicability_index_error
              {| X_shape := [8]; X_dtype := float32; X_veclen := 1;
                 W_shape := [1; 1; 3; 3]; W_dtype := float32; W_veclen := 1;
                 Y_shape := [1; 1; 2; 2]; Y_veclen := 1; B_shape := None;
                 group := 1; dilations := None; pads := None; strides := None;
                 kernel_shape := None; auto_pad := NOTSET |}) as (H & _).
  destruct H as (_ & Hi & _); [left; cbn; lia|].
  exact Hi.
Defined.

Lemma im2col_applicable_inversion_witness :
  group
    {| X_shape := [1; 1; 4; 4]; X_dtype := float32; X_veclen := 1;
       W_shape := [1; 1; 3; 3]; W_dtype := float32; W_veclen := 1;
       Y_shape := [1; 1; 2; 2]; Y_veclen := 1; B_shape := Some [1];
       group := 1; dilations := Some [1; 1]; pads := Some [0; 0; 0; 0];
       strides := None; kernel_shape := None; auto_pad := NOTSET |} = 1.
Proof.
  destruct (im2col_applicable_inversion
              {| X_shape := [1; 1; 4; 4]; X_dtype := float32; X_veclen := 1;
                 W_shape := [1; 1; 3; 3]; W_dtype := float32; W_veclen := 1;
                 Y_shape := [1; 1; 2; 2]; Y_veclen := 1; B_shape := Some [1];
                 group := 1; dilations := Some [1; 1]; pads := Some [0; 0; 0; 0];
                 strides := None; kernel_shape := None; auto_pad := NOTSET |}
              eq_refl) as (_ & Hg & _).
  exact Hg.
Defined.

Lemma conv_applicability_chain_witness :
  im2col_can_be_applied
    {| X_shape := [1; 1; 4; 4]; X_dtype := float32; X_veclen := 1;
       W_shape := [1; 1; 3; 3]; W_dtype := float32; W_veclen := 1;
       Y_shape := [1; 1; 2; 2]; Y_veclen := 1; B_shape := None;
       group := 1; dilations := None; pads := Some [0; 0; 0; 0];
       strides := None; kernel_shape := None; auto_pad := NOTSET |}
  = Returns true.
Proof.
  destruct (conv_applicability_chain
              {| X_shape := [1; 1; 4; 4]; X_dtype := float32; X_veclen := 1;
                 W_shape := [1; 1; 3; 3]; W_dtype := float32; W_veclen := 1;
                 Y_shape := [1; 1; 2; 2]; Y_veclen := 1; B_shape := None;
                 group := 1; dilations := None; pads := Some [0; 0; 0; 0];
                 strides := None; kernel_shape := None; auto_pad := NOTSET |})
    as (H & _).
  exact (H eq_refl).
Defined.

(** ** The tiled feeder on images that are not square *)

(** The tiled lowering divides the flattened output column by the first
    spatial extent of Y and uses the quotient as the row of X.  For a 1x1
    kernel without padding over an H x W image with H different from W,
    some read it issues is therefore outside X: the one for the last
    column when H < W, the one for column H - 1 when W < H. *)
Theorem tiled_non_square_image_reads_outside (n : ConvOp) (pl : ConvTiled.Plan)
    (B C F H W b tm m0 : Z) :
  X_shape n = [B; C; H; W] -> Y_shape n = [B; F; H; W] ->
  W_shape n = [F; C; 1; 1] -> kernel_shape n = None ->
  pads n = Some [0; 0; 0; 0] -> X_veclen n = 1 -> Y_veclen n = 1 ->
  1 <= H -> 1 <= W -> H <> W ->
  ConvTiled.M pl = W * 1 * H ->
  tm * ConvTiled.T pl + m0 = (if H <? W then W * H - 1 else H - 1) ->
  exists c a,
    tiled_read_node n = Returns c /\
    input_size_y c = H /\ input_size_x c = W /\
    ConvTiled.read_global c pl b tm 0 m0 = Some a /\
    ConvTiled.in_extent_X c a = false.
Proof.
  intros HX HY HW Hks Hp HvX HvY HH HWd Hne HM Hcol.
  unfold tiled_read_node. rewrite Hks, HW, HX, HY, Hp.
  cbn [py_index nth_error and_then skipn unpack2 fst snd].
  eexists. eexists. split; [reflexivity|].
  cbn [input_size_y input_size_x]. split; [reflexivity|]. split; [reflexivity|].
  unfold ConvTiled.read_global, ConvTiled.store_local_index,
    ConvTiled.access_vec, ConvTiled.access_y, ConvTiled.access_x,
    ConvTiled.out_y, ConvTiled.out_x, ConvTiled.matrix_col,
    ConvTiled.filter_off_y, ConvTiled.filter_off_x, ConvTiled.channel.
  cbn [veclen_Y veclen_X filter_hx filter_hy output_size_x input_size_x].
  rewrite HvX, HvY, HM, !Z.mul_1_r, Z.mod_1_r, !Z.div_1_r, Z.add_0_r.
  rewrite Hcol.
  assert (Hlt : (if H <? W then W * H - 1 else H - 1) < W * H).
  { destruct (Z.ltb_spec H W); nia. }
  destruct (Z.ltb_spec (if H <? W then W * H - 1 else H - 1) (W * H)); [|lia].
  rewrite Z.mod_1_r. cbn [Z.eqb]. split; [reflexivity|].
  unfold ConvTiled.in_extent_X. cbn [input_size_y input_size_x].
  destruct (Z.ltb_spec H W) as [Hc|Hc].
  - (* the row index W - 1 is past the H rows *)
    assert (Eq : (W * H - 1) / H = W - 1).
    { symmetry. apply (Z.div_unique_pos _ _ _ (H - 1)); lia. }
    rewrite Eq. apply not_true_iff_false.
    rewrite !andb_true_iff, !Z.leb_le, !Z.ltb_lt. lia.
  - (* the column index H - 1 is past the W columns *)
    rewrite (Z.mod_small (H - 1) H) by lia. apply not_true_iff_false.
    rewrite !andb_true_iff, !Z.leb_le, !Z.ltb_lt. lia.
Qed.

Lemma tiled_non_square_image_reads_outside_witness :
  exists c a,
    tiled_read_node
      {| X_shape := [1; 1; 2; 3]; X_dtype := float32; X_veclen := 1;
         W_shape := [1; 1; 1; 1]; W_dtype := float32; W_veclen := 1;
         Y_shape := [1; 1; 2; 3]; Y_veclen := 1; B_shape := None;
         group := 1; dilations := None; pads := Some [0; 0; 0; 0];
         strides := None; kernel_shape := None; auto_pad := NOTSET |}
    = Returns c /\
    input_size_y c = 2 /\ input_size_x c = 3 /\
    ConvTiled.read_global c
      {| ConvTiled.P := 1; ConvTiled.T := 6; ConvTiled.L := 10; ConvTiled.N := 1;
         ConvTiled.K := 1; ConvTiled.M := 6; ConvTiled.log := [] |} 0 0 0 5 = Some a /\
    ConvTiled.in_extent_X c a = false.
Proof.
  apply (tiled_non_square_image_reads_outside _ _ 1 1 1 2 3 0 0 5);
    try reflexivity; lia.
Defined.

(** ** The two weight feeders *)

Lemma map_of_nat_seq (s n : nat) :
  map Z.of_nat (seq s n)
  = map (fun j => Z.of_nat s + j) (map Z.of_nat (seq 0 n)).
Proof.
  revert s. induction n as [|n IH]; intros s; [reflexivity|].
  cbn [seq map]. f_equal; [lia|].
  rewrite (IH (S s)), <- (seq_shift n 0), !map_map.
  apply map_ext. intros a. lia.
Qed.

Lemma range_add (x y : Z) :
  0 <= x -> 0 <= y ->
  range (x + y) = range x ++ map (fun j => x + j) (range y).
Proof.
  intros Hx Hy. unfold range.
  rewrite Z2Nat.inj_add by lia. rewrite seq_app, map_app. f_equal.
  cbn [Nat.add]. rewrite map_of_nat_seq. rewrite Z2Nat.id by lia. reflexivity.
Qed.

(** The indices below [a * b] are the indices [i * b + j], block by
    block. *)
Lemma range_mul (a b : Z) :
  0 <= a -> 0 <= b ->
  range (a * b) = flat_map (fun i => map (fun j => i * b + j) (range b)) (range a).
Proof.
  intros Ha Hb. rewrite <- (Z2Nat.id a Ha). generalize (Z.to_nat a). intros n.
  induction n as [|n IH]; [reflexivity|].
  rewrite Nat2Z.inj_succ.
  replace (Z.succ (Z.of_nat n) * b) with (Z.of_nat n * b + b) by ring.
  rewrite range_add by nia. rewrite IH.
  replace (Z.succ (Z.of_nat n)) with (Z.of_nat n + 1) by lia.
  rewrite (range_add (Z.of_nat n) 1) by lia.
  rewrite flat_map_app. f_equal.
  change (range 1) with [0]. cbn [map flat_map].
  rewrite app_nil_r, Z.add_0_r. reflexivity.
Qed.

Lemma flat_map_ext_in {A B : Type} (f g : A -> list B) (l : list A) :
  (forall x, In x l -> f x = g x) -> flat_map f l = flat_map g l.
Proof.
  induction l as [|a l IH]; intros Hfg; [reflexivity|].
  cbn [flat_map]. rewrite (Hfg a (or_introl eq_refl)), IH; [reflexivity|].
  intros x Hx. apply Hfg. right. exact Hx.
Qed.

Lemma flat_map_flat_map {A B C : Type} (f : A -> list B) (g : B -> list C)
    (l : list A) :
  flat_map g (flat_map f l) = flat_map (fun x => flat_map g (f x)) l.
Proof.
  induction l as [|a l IH]; [reflexivity|].
  cbn [flat_map]. rewrite flat_map_app, IH. reflexivity.
Qed.

Lemma flat_map_map {A B C : Type} (f : A -> B) (g : B -> list C) (l : list A) :
  flat_map g (map f l) = flat_map (fun x => g (f x)) l.
Proof.
  induction l as [|a l IH]; [reflexivity|].
  cbn [map flat_map]. rewrite IH. reflexivity.
Qed.

(** For a square kernel and a row block that lies inside the weight
    matrix, the tiled feeder sends, for every tile, the same values to the
    same channels and in the same order as the untiled feeder sends for
    that row block: contraction index [k = (cin * h + i) * h + j] reads
    [W[n0 * P + n1, cin, i, j]]. *)
Theorem weight_feeders_agree_on_square_kernels {V : Type} `{Arith V}
    (c : ConvNode) (pl : ConvTiled.Plan) (upl : Conv.Plan)
    (W : address -> V) (b n0 tm h : Z) :
  1 <= h -> filter_hx c = h -> filter_hy c = h ->
  0 <= num_channels c ->
  ConvTiled.K pl = num_channels c * (h * h) ->
  Conv.P upl = ConvTiled.P pl ->
  0 <= n0 -> (n0 + 1) * ConvTiled.P pl <= ConvTiled.N pl ->
  ConvTiled.read_A_tile c pl W b n0 tm = untiled_read_W_block c upl W n0.
Proof.
  intros Hh Hhx Hhy HC HK HP Hn0 Hrows.
  unfold ConvTiled.read_A_tile, untiled_read_W_block.
  rewrite HK, Hhx, Hhy, HP.
  rewrite (range_mul (num_channels c) (h * h)) by nia.
  rewrite flat_map_flat_map.
  apply flat_map_ext_in. intros cin Hcin. apply in_range in Hcin.
  rewrite flat_map_map.
  rewrite (range_mul h h) by lia.
  rewrite flat_map_flat_map.
  apply flat_map_ext_in. intros i Hi. apply in_range in Hi.
  rewrite flat_map_map.
  apply flat_map_ext_in. intros j Hj. apply in_range in Hj.
  apply map_ext_in. intros n1 Hn1. apply in_range in Hn1.
  unfold ConvTiled.read_A_emit, untiled_read_W_emit, ConvTiled.read_A_tasklet,
    ConvTiled.read_A_access.
  rewrite Hhx, Hhy, HP.
  destruct (Z.ltb_spec (n0 * ConvTiled.P pl + n1) (ConvTiled.N pl)); [|nia].
  assert (Hij : 0 <= i * h + j < h * h) by nia.
  destruct (block_split_unique (cin * (h * h) + (i * h + j)) (h * h) cin
              (i * h + j) ltac:(nia) Hij eq_refl) as (E1 & E2).
  destruct (block_split_unique (i * h + j) h i j Hh Hj eq_refl) as (E3 & E4).
  rewrite <- E1, <- E2, <- E3, <- E4. reflexivity.
Qed.

Lemma weight_feeders_agree_on_square_kernels_witness :
  ConvTiled.read_A_tile conv_3x3_same_4x4 plan_two_PEs weights_by_index 0 0 0
  = untiled_read_W_block conv_3x3_same_4x4 untiled_plan_two_PEs weights_by_index 0.
Proof.
  apply (weight_feeders_agree_on_square_kernels conv_3x3_same_4x4 plan_two_PEs
           untiled_plan_two_PEs weights_by_index 0 0 0 3);
    try reflexivity; cbn; lia.
Defined.

(** For a kernel that is not square some weight read of the tiled feeder
    is outside W: the feeder uses the kernel row, which runs below
    [filter_hy], on the axis of extent [filter_hx], and the kernel column
    on the other one. *)
Theorem tiled_read_A_non_square_kernel_outside (c : ConvNode)
    (pl : ConvTiled.Plan) (n0 n1 : Z) :
  1 <= filter_hx c -> 1 <= filter_hy c -> filter_hx c <> filter_hy c ->
  1 <= num_channels c ->
  let k := if filter_hx c <? filter_hy c
           then filter_hx c * filter_hy c - 1
           else filter_hx c - 1 in
  0 <= k < filter_hx c * filter_hy c * num_channels c /\
  in_extent_W c (ConvTiled.read_A_access c pl n0 k n1) = false.
Proof.
  intros Hx Hy Hne HC k.
  assert (Hk : 0 <= k < filter_hx c * filter_hy c).
  { unfold k. destruct (Z.ltb_spec (filter_hx c) (filter_hy c)); nia. }
  split; [nia|].
  unfold ConvTiled.read_A_access, in_extent_W.
  rewrite (Z.mod_small k) by exact Hk.
  apply not_true_iff_false.
  rewrite !andb_true_iff, !Z.leb_le, !Z.ltb_lt.
  unfold k in *. destruct (Z.ltb_spec (filter_hx c) (filter_hy c)) as [Hlt|Hge].
  - assert (E : (filter_hx c * filter_hy c - 1) / filter_hx c = filter_hy c - 1).
    { symmetry. apply (Z.div_unique_pos _ _ _ (filter_hx c - 1)); lia. }
    rewrite E. lia.
  - rewrite (Z.mod_small (filter_hx c - 1) (filter_hx c)) by lia. lia.
Qed.

Lemma tiled_read_A_non_square_kernel_outside_witness :
  in_extent_W
    {| batch_size := 1; num_filters := 1; num_channels := 1;
       filter_hx := 1; filter_hy := 3; input_size_x := 6; input_size_y := 4;
       output_size_x := 4; output_size_y := 4; padding := 0;
       veclen_X := 1; veclen_W := 1; veclen_Y := 1 |}
    (ConvTiled.read_A_access
       {| batch_size := 1; num_filters := 1; num_channels := 1;
          filter_hx := 1; filter_hy := 3; input_size_x := 6; input_size_y := 4;
          output_size_x := 4; output_size_y := 4; padding := 0;
          veclen_X := 1; veclen_W := 1; veclen_Y := 1 |}
       plan_two_PEs 0 2 0) = false.
Proof.
  destruct (tiled_read_A_non_square_kernel_outside
              {| batch_size := 1; num_filters := 1; num_channels := 1;
                 filter_hx := 1; filter_hy := 3; input_size_x := 6; input_size_y := 4;
                 output_size_x := 4; output_size_y := 4; padding := 0;
                 veclen_X := 1; veclen_W := 1; veclen_Y := 1 |}
              plan_two_PEs 0 0
              ltac:(cbn; lia) ltac:(cbn; lia) ltac:(cbn; lia) ltac:(cbn; lia))
    as (_ & H).
  exact H.
Defined.

(** ** Construction and addresses of the MatMul and Gemm lowerings *)

(** The batched MatMul is constructed exactly when [K <= P * M] for the
    derived [P = gcd(K, gcd(N, 16))], and fails with the assertion
    otherwise; [K <= M] is always enough.  A constructed plan has between
    1 and 16 processing elements, a count that divides both N and K, a
    single tile [T = M], and a safe delay that brings [T + L] to at least
    11. *)
Theorem matmul_batched_construction (BATCH N K M : Z) :
  1 <= N -> 1 <= K -> 1 <= M ->
  let g := Z.gcd K (Z.gcd N 16) in
  (K <= g * M ->
   exists pl,
     MatMul.forward_batched BATCH N K M = Ok pl /\
     MatMul.P pl = g /\ MatMul.T pl = M /\ M / MatMul.T pl = 1 /\
     1 <= MatMul.P pl <= 16 /\ (MatMul.P pl | N) /\ (MatMul.P pl | K) /\
     0 <= MatMul.L pl /\ 11 <= MatMul.T pl + MatMul.L pl) /\
  (g * M < K -> MatMul.forward_batched BATCH N K M = Raise AssertionError) /\
  (K <= M -> exists pl, MatMul.forward_batched BATCH N K M = Ok pl).
Proof.
  intros HN HK HM g.
  assert (Hg16 : (g | 16)).
  { unfold g. eapply Z.divide_trans; [apply Z.gcd_divide_r | apply Z.gcd_divide_r]. }
  assert (HgN : (g | N)).
  { unfold g. eapply Z.divide_trans; [apply Z.gcd_divide_r | apply Z.gcd_divide_l]. }
  assert (HgK : (g | K)) by apply Z.gcd_divide_l.
  assert (Hg0 : 0 <= g) by apply Z.gcd_nonneg.
  assert (Hg1 : 1 <= g).
  { destruct (Z.eq_dec g 0) as [E|E]; [|lia].
    rewrite E in HgK. apply Z.divide_0_l in HgK. lia. }
  assert (Hgu : g <= 16) by (apply Z.divide_pos_le; [lia | exact Hg16]).
  assert (Hok : K <= g * M ->
                MatMul.forward_batched BATCH N K M
                = Ok {| MatMul.P := g; MatMul.T := M; MatMul.L := Z.max (11 - M) 0 |}).
  { intros Hle. unfold MatMul.forward_batched. fold g.
    apply Z.leb_le in Hle. rewrite Hle. reflexivity. }
  split; [|split].
  - intros Hle. eexists. split; [apply Hok; exact Hle|].
    cbn [MatMul.P MatMul.T MatMul.L].
    rewrite Z.div_same by lia. repeat split; try assumption; lia.
  - intros Hlt. unfold MatMul.forward_batched. fold g.
    destruct (Z.leb_spec K (g * M)); [lia|]. reflexivity.
  - intros Hle. eexists. apply Hok. nia.
Qed.

Lemma matmul_batched_construction_witness :
  MatMul.forward_batched 2 3 32 8 = Raise AssertionError.
Proof.
  destruct (matmul_batched_construction 2 3 32 8
              ltac:(lia) ltac:(lia) ltac:(lia)) as (_ & H & _).
  apply H. vm_compute. reflexivity.
Defined.

(** In the MatMul branch that collates the batch and row axes, every entry
    [(batch, row, col)] of Y is addressed by exactly one iteration of the
    [write_Y] map of a constructed plan: [b_n] and [n1] are quotient and
    remainder of [batch * N + row] by P, [tm = 0] and [m = col]; the
    iteration lies in the map ranges. *)
Theorem collated_write_Y_covers_each_entry_once (BATCH N K M : Z)
    (pl : MatMul.Plan) (batch row col : Z) :
  1 <= BATCH -> 1 <= N -> 1 <= K -> 1 <= M ->
  MatMul.forward_collated BATCH N K M = Ok pl ->
  0 <= batch < BATCH -> 0 <= row < N -> 0 <= col < M ->
  let P := MatMul.P pl in
  let b_n := (batch * N + row) / P in
  let n1 := (batch * N + row) mod P in
  (0 <= b_n < (BATCH * N) / P /\ 0 <= n1 < P /\ M / MatMul.T pl = 1) /\
  collated_write_Y_access N pl b_n 0 n1 col = (batch, row, col) /\
  (forall b_n' tm' n1' m',
     0 <= n1' < P -> 0 <= tm' < M / MatMul.T pl -> 0 <= m' < MatMul.T pl ->
     collated_write_Y_access N pl b_n' tm' n1' m' = (batch, row, col) ->
     b_n' = b_n /\ tm' = 0 /\ n1' = n1 /\ m' = col).
Proof.
  intros HB HN HK HM Hok Hb Hr Hc P b_n n1.
  unfold MatMul.forward_collated in Hok.
  destruct (negb (K <=? _)); cbn [raise_if bind] in Hok; [discriminate|].
  match type of Hok with
  | Ok ?x = _ => assert (Epl : x = pl) by congruence
  end.
  clear Hok.
  set (g := Z.gcd K (Z.gcd (N * BATCH) 16)) in *.
  assert (HP : P = g) by (unfold P; rewrite <- Epl; reflexivity).
  assert (HT : MatMul.T pl = M) by (rewrite <- Epl; reflexivity).
  assert (HgNB : (g | BATCH * N)).
  { unfold g. rewrite (Z.mul_comm BATCH N).
    eapply Z.divide_trans; [apply Z.gcd_divide_r | apply Z.gcd_divide_l]. }
  assert (Hg1 : 1 <= g).
  { pose proof (Z.gcd_nonneg K (Z.gcd (N * BATCH) 16)) as H0. fold g in H0.
    destruct (Z.eq_dec g 0) as [E|E]; [|lia].
    pose proof (Z.gcd_divide_l K (Z.gcd (N * BATCH) 16)) as HgK. fold g in HgK.
    rewrite E in HgK. apply Z.divide_0_l in HgK. lia. }
  fold P in HP |- *. rewrite HT.
  set (f := batch * N + row) in *.
  assert (Hf : 0 <= f < BATCH * N) by (unfold f; nia).
  pose proof (Z.div_mod f P ltac:(lia)) as Ef.
  pose proof (Z.mod_pos_bound f P ltac:(lia)) as Bf.
  fold b_n n1 in Ef, Bf.
  destruct HgNB as [q Hq]. rewrite <- HP in Hq.
  assert (Hquot : BATCH * N / P = q) by (rewrite Hq; apply Z.div_mul; lia).
  assert (Hbn : 0 <= b_n < q).
  { split; [apply Z.div_pos; lia|].
    apply Z.div_lt_upper_bound; [lia|]. lia. }
  assert (Eback : b_n * P + n1 = f) by lia.
  assert (HfN : f / N = batch /\ f mod N = row).
  { destruct (block_split_unique f N batch row HN Hr eq_refl) as (E1 & E2).
    split; congruence. }
  split; [rewrite Hquot, Z.div_same by lia; repeat split; lia|].
  split.
  { unfold collated_write_Y_access. fold P. rewrite Eback.
    destruct HfN as (-> & ->). rewrite HT. reflexivity. }
  intros b_n' tm' n1' m' Hn1' Htm' Hm' Hacc.
  rewrite Z.div_same in Htm' by lia.
  assert (tm' = 0) by lia. subst tm'.
  unfold collated_write_Y_access in Hacc. fold P in Hacc. rewrite HT in Hacc.
  injection Hacc as Hq1 Hr1 Hm1.
  pose proof (Z.div_mod (b_n' * P + n1') N ltac:(lia)) as E'.
  rewrite Hq1, Hr1 in E'.
  assert (Ef' : b_n' * P + n1' = f) by (unfold f; lia).
  destruct (block_split_unique f P b_n' n1' ltac:(lia) Hn1' Ef') as (E1 & E2).
  repeat split; try assumption; try reflexivity; lia.
Qed.

Lemma collated_write_Y_covers_each_entry_once_witness :
  collated_write_Y_access 2
    {| MatMul.P := 16; MatMul.T := 16; MatMul.L := 0 |}
    ((3 * 2 + 1) / 16) 0 ((3 * 2 + 1) mod 16) 5 = (3, 1, 5).
Proof.
  destruct (collated_write_Y_covers_each_entry_once 16 2 32 16
              {| MatMul.P := 16; MatMul.T := 16; MatMul.L := 0 |} 3 1 5
              ltac:(lia) ltac:(lia) ltac:(lia) ltac:(lia) eq_refl
              ltac:(lia) ltac:(lia) ltac:(lia)) as (_ & H & _).
  exact H.
Defined.

(** The rows that the Gemm feeder visits for one contraction step are the
    rows 0 .. N - 1, each once and in increasing order: the number of
    processing elements, gcd(N, 16), lies between 1 and 16 and divides N,
    so no row is left over.  The safe delay is never negative and brings
    [T + L] to at least 10. *)
Theorem gemm_row_blocks_cover_all_rows (N K M_Y : Z) :
  1 <= N ->
  let pl := Gemm.forward N K M_Y in
  1 <= Gemm.P pl <= 16 /\ (Gemm.P pl | N) /\
  gemm_read_A_rows N pl = range N /\
  0 <= Gemm.L pl /\ 10 <= Gemm.T pl + Gemm.L pl.
Proof.
  intros HN pl. unfold pl, Gemm.forward. cbn [Gemm.P Gemm.T Gemm.L].
  set (g := Z.gcd N 16).
  assert (HgN : (g | N)) by apply Z.gcd_divide_l.
  assert (Hg16 : (g | 16)) by apply Z.gcd_divide_r.
  assert (Hg0 : 0 <= g) by apply Z.gcd_nonneg.
  assert (Hg1 : 1 <= g).
  { destruct (Z.eq_dec g 0) as [E|E]; [|lia].
    rewrite E in HgN. apply Z.divide_0_l in HgN. lia. }
  assert (Hgu : g <= 16) by (apply Z.divide_pos_le; [lia | exact Hg16]).
  split; [lia|]. split; [exact HgN|]. split; [|lia].
  unfold gemm_read_A_rows, gemm_read_A_row. cbn [Gemm.P]. fold g.
  destruct HgN as [q Hq].
  assert (Hquot : N / g = q) by (rewrite Hq; apply Z.div_mul; lia).
  rewrite Hquot. transitivity (range (q * g)); [|f_equal; lia].
  symmetry. apply range_mul; nia.
Qed.

Lemma gemm_row_blocks_cover_all_rows_witness :
  gemm_read_A_rows 6 (Gemm.forward 6 3 8) = range 6.
Proof.
  destruct (gemm_row_blocks_cover_all_rows 6 3 8 ltac:(lia)) as (_ & _ & H & _).
  exact H.
Defined.

(** ** MaxPool *)

(** For a vectorized output the predicate answers from the vector widths
    alone: a node with equal widths is accepted whatever its pads,
    strides, dilations, rank and [Indices] output are, although the same
    node with an unvectorized output is rejected for any one of them. *)
Theorem maxpool_vectorized_shortcut (n : MaxPool.Op) :
  (MaxPool.Y_veclen n <> 1 ->
   MaxPool.forward_can_be_applied n = (MaxPool.X_veclen n =? MaxPool.Y_veclen n)) /\
  (MaxPool.Y_veclen n = 1 -> MaxPool.forward_can_be_applied n = true ->
   MaxPool.Indices_connected n = false /\
   length (MaxPool.X_shape n) = 4%nat /\
   match MaxPool.pads n with Some ps => ps = [0; 0; 0; 0] | None => True end /\
   match MaxPool.strides n with Some ss => length ss = 2%nat | None => True end /\
   match MaxPool.dilations n with Some ds => ds = [1; 1] | None => True end /\
   MaxPool.auto_pad n = NOTSET /\
   MaxPool.ceil_mode n = 0 /\ MaxPool.storage_order n = 0).
Proof.
  unfold MaxPool.forward_can_be_applied. split.
  - intros Hv. destruct (Z.eqb_spec (MaxPool.Y_veclen n) 1); [contradiction|].
    reflexivity.
  - intros Hv. rewrite Hv. cbn [Z.eqb Pos.eqb negb].
    destruct (MaxPool.Indices_connected n); [discriminate|].
    destruct (Z.eqb_spec (len (MaxPool.X_shape n) - 2) 2) as [Hr|Hr];
      cbn [negb]; [|discriminate].
    rewrite Hr. change (2 * 2) with 4.
    intros H.
    assert (Hp : match MaxPool.pads n with
                 | Some ps => ps = [0; 0; 0; 0] | None => True end).
    { destruct (MaxPool.pads n) as [ps|]; [|exact I].
      destruct (negb (all_equal_to 0 ps) || negb (len ps =? 4)) eqn:E;
        [discriminate|].
      apply orb_false_iff in E. destruct E as [E1 E2].
      apply negb_false_iff in E1. apply negb_false_iff in E2.
      destruct (len_eq_4 _ E2) as (p1 & p2 & p3 & p4 & ->).
      cbn in E1. rewrite !andb_true_iff, !Z.eqb_eq in E1.
      destruct E1 as (-> & -> & -> & -> & _). reflexivity. }
    destruct (match MaxPool.pads n with Some _ => _ | None => false end);
      [discriminate|].
    assert (Hs : match MaxPool.strides n with
                 | Some ss => length ss = 2%nat | None => True end).
    { destruct (MaxPool.strides n) as [ss|]; [|exact I].
      unfold len in H. destruct (Z.eqb_spec (Z.of_nat (length ss)) 2);
        [lia|discriminate]. }
    destruct (match MaxPool.strides n with Some _ => _ | None => false end);
      [discriminate|].
    destruct (MaxPool.auto_pad n); cbn [is_NOTSET negb] in H; try discriminate.
    destruct (Z.eqb_spec (MaxPool.ceil_mode n) 0) as [Hc|Hc];
      cbn [negb orb] in H; [|discriminate].
    destruct (Z.eqb_spec (MaxPool.storage_order n) 0) as [Ho|Ho];
      cbn [negb] in H; [|discriminate].
    assert (Hd : match MaxPool.dilations n with
                 | Some ds => ds = [1; 1] | None => True end).
    { destruct (MaxPool.dilations n) as [ds|]; [|exact I].
      destruct (negb (all_equal_to 1 ds) || negb (len ds =? 2)) eqn:E;
        [discriminate|].
      apply orb_false_iff in E. destruct E as [E1 E2].
      apply negb_false_iff in E1. apply negb_false_iff in E2.
      unfold len in E2. apply Z.eqb_eq in E2.
      destruct ds as [|d1 [|d2 [|d3 ds]]]; cbn [length] in E2; try lia.
      cbn in E1. rewrite !andb_true_iff, !Z.eqb_eq in E1.
      destruct E1 as (-> & -> & _). reflexivity. }
    unfold len in Hr.
    repeat split; try assumption; try reflexivity; lia.
Qed.

Lemma maxpool_vectorized_shortcut_witness :
  MaxPool.forward_can_be_applied
    {| MaxPool.X_shape := [1; 1; 4]; MaxPool.X_veclen := 4; MaxPool.Y_veclen := 4;
       MaxPool.Indices_connected := true; MaxPool.pads := Some [1; 1; 1; 1];
       MaxPool.strides := None; MaxPool.dilations := Some [2; 2];
       MaxPool.auto_pad := VALID; MaxPool.ceil_mode := 1;
       MaxPool.storage_order := 0 |} = true.
Proof.
  destruct (maxpool_vectorized_shortcut
              {| MaxPool.X_shape := [1; 1; 4]; MaxPool.X_veclen := 4;
                 MaxPool.Y_veclen := 4; MaxPool.Indices_connected := true;
                 MaxPool.pads := Some [1; 1; 1; 1]; MaxPool.strides := None;
                 MaxPool.dilations := Some [2; 2]; MaxPool.auto_pad := VALID;
                 MaxPool.ceil_mode := 1; MaxPool.storage_order := 0 |})
    as (H & _).
  rewrite H; [reflexivity | cbn; lia].
Defined.



(** For a square kernel of side F and an unvectorized output, the output
    pixel (oy, ox) is written by exactly one iteration: the last window
    offset (F-1, F-1) at the input pixel in row oy*F + F-1 and column
    ox*F + F-1, the bottom right corner of its window.  The windows
    therefore advance by the kernel size, whatever the strides of the
    node are. *)
Theorem maxpool_square_kernel_writes_once (s : MaxPool.Sizes)
    (F b c in_y in_x w hy hx oy ox : Z) :
  MaxPool.filter_height s = F -> MaxPool.filter_width s = F -> 1 <= F ->
  1 <= MaxPool.vec_width s -> MaxPool.veclen_Y s = 1 ->
  0 <= w < MaxPool.vec_width s ->
  (MaxPool.writes_output s in_y in_x w hy hx = true /\
   MaxPool.y_memlet s b c in_y in_x w = (b, c, oy, ox))
  <->
  (hy = F - 1 /\ hx = F - 1 /\ in_y = oy * F + (F - 1) /\
   in_x * MaxPool.vec_width s + w = ox * F + (F - 1)).
Proof.
  intros Hh Hw HF Hv HY Hlane.
  assert (Hy : MaxPool.y_memlet s b c in_y in_x w
               = (b, c, in_y / F, (in_x * MaxPool.vec_width s + w) / F)).
  { unfold MaxPool.y_memlet. rewrite Hh, Hw, HY.
    destruct (Z.eqb_spec (MaxPool.vec_width s) 1) as [E|E]; cbn [negb andb].
    - rewrite E. replace w with 0 by lia. rewrite Z.mul_1_r, Z.add_0_r.
      reflexivity.
    - reflexivity. }
  rewrite Hy. unfold MaxPool.writes_output. rewrite Hh, Hw.
  rewrite !andb_true_iff, !Z.eqb_eq.
  set (col := in_x * MaxPool.vec_width s + w).
  pose proof (Z.div_mod in_y F ltac:(lia)) as Dy.
  pose proof (Z.div_mod col F ltac:(lia)) as Dc.
  split.
  - intros ((((-> & ->) & My) & Mc) & E).
    injection E as Ey Ex. split; [reflexivity|]. split; [reflexivity|].
    split; nia.
  - intros (-> & -> & Ey & Ec).
    destruct (block_split_unique in_y F oy (F - 1) HF ltac:(lia) (eq_sym Ey))
      as [Qy Ry].
    destruct (block_split_unique col F ox (F - 1) HF ltac:(lia) (eq_sym Ec))
      as [Qc Rc].
    split; [repeat split; congruence|]. rewrite <- Qy, <- Qc. reflexivity.
Qed.

Lemma maxpool_square_kernel_writes_once_witness :
  MaxPool.writes_output
    {| MaxPool.batch_size := 1; MaxPool.num_channels := 1;
       MaxPool.filter_height := 2; MaxPool.filter_width := 2;
       MaxPool.input_size_height := 4; MaxPool.input_size_width := 2;
       MaxPool.vec_width := 4; MaxPool.veclen_Y := 1 |} 3 1 1 1 1 = true /\
  MaxPool.y_memlet
    {| MaxPool.batch_size := 1; MaxPool.num_channels := 1;
       MaxPool.filter_height := 2; MaxPool.filter_width := 2;
       MaxPool.input_size_height := 4; MaxPool.input_size_width := 2;
       MaxPool.vec_width := 4; MaxPool.veclen_Y := 1 |} 0 0 3 1 1 = (0, 0, 1, 2).
Proof.
  apply (maxpool_square_kernel_writes_once
           {| MaxPool.batch_size := 1; MaxPool.num_channels := 1;
              MaxPool.filter_height := 2; MaxPool.filter_width := 2;
              MaxPool.input_size_height := 4; MaxPool.input_size_width := 2;
              MaxPool.vec_width := 4; MaxPool.veclen_Y := 1 |} 2 0 0 3 1 1 1 1 1 2);
    cbn; try reflexivity; lia.
Defined.

(** In the batched MatMul branch every entry [(batch, row, col)] of Y is
    addressed by exactly one iteration of the [write_Y] map of a
    constructed plan: [n0] and [n1] are quotient and remainder of the row
    by P, [tm = 0] and [m = col]; the iteration lies in the map ranges, so
    no row is left to a partial block. *)
Theorem batched_write_Y_covers_each_entry_once (BATCH N K M : Z)
    (pl : MatMul.Plan) (batch row col : Z) :
  1 <= N -> 1 <= K -> 1 <= M ->
  MatMul.forward_batched BATCH N K M = Ok pl ->
  0 <= row < N -> 0 <= col < M ->
  let P := MatMul.P pl in
  (0 <= row / P < N / P /\ 0 <= row mod P < P /\ M / MatMul.T pl = 1) /\
  batched_write_Y_access pl batch (row / P) 0 (row mod P) col = (batch, row, col) /\
  (forall b' n0' tm' n1' m',
     0 <= n1' < P -> 0 <= tm' < M / MatMul.T pl -> 0 <= m' < MatMul.T pl ->
     batched_write_Y_access pl b' n0' tm' n1' m' = (batch, row, col) ->
     b' = batch /\ n0' = row / P /\ tm' = 0 /\ n1' = row mod P /\ m' = col).
Proof.
  intros HN HK HM Hok Hr Hc P.
  unfold MatMul.forward_batched in Hok.
  destruct (negb (K <=? _)); cbn [raise_if bind] in Hok; [discriminate|].
  match type of Hok with
  | Ok ?x = _ => assert (Epl : x = pl) by congruence
  end.
  clear Hok.
  set (g := Z.gcd K (Z.gcd N 16)) in *.
  assert (HP : P = g) by (unfold P; rewrite <- Epl; reflexivity).
  assert (HT : MatMul.T pl = M) by (rewrite <- Epl; reflexivity).
  assert (HgN : (g | N)).
  { unfold g. eapply Z.divide_trans; [apply Z.gcd_divide_r | apply Z.gcd_divide_l]. }
  assert (Hg1 : 1 <= g).
  { pose proof (Z.gcd_nonneg K (Z.gcd N 16)) as H0. fold g in H0.
    destruct (Z.eq_dec g 0) as [E|E]; [|lia].
    pose proof (Z.gcd_divide_l K (Z.gcd N 16)) as HgK. fold g in HgK.
    rewrite E in HgK. apply Z.divide_0_l in HgK. lia. }
  fold P in HP |- *. rewrite HT.
  pose proof (Z.div_mod row P ltac:(lia)) as Ef.
  pose proof (Z.mod_pos_bound row P ltac:(lia)) as Bf.
  destruct HgN as [q Hq]. rewrite <- HP in Hq.
  assert (Hquot : N / P = q) by (rewrite Hq; apply Z.div_mul; lia).
  assert (Hbn : 0 <= row / P < q).
  { split; [apply Z.div_pos; lia|].
    apply Z.div_lt_upper_bound; [lia|]. lia. }
  split; [rewrite Hquot, Z.div_same by lia; repeat split; lia|].
  split.
  { unfold batched_write_Y_access. fold P. rewrite HT.
    replace (row / P * P + row mod P) with row by lia. reflexivity. }
  intros b' n0' tm' n1' m' Hn1' Htm' Hm' Hacc.
  rewrite Z.div_same in Htm' by lia.
  assert (tm' = 0) by lia. subst tm'.
  unfold batched_write_Y_access in Hacc. fold P in Hacc. rewrite HT in Hacc.
  injection Hacc as Hb1 Hr1 Hm1.
  destruct (block_split_unique row P n0' n1' ltac:(lia) Hn1' Hr1) as (E1 & E2).
  repeat split; try assumption; try reflexivity; lia.
Qed.

Lemma batched_write_Y_covers_each_entry_once_witness :
  batched_write_Y_access {| MatMul.P := 4; MatMul.T := 8; MatMul.L := 3 |}
    1 (6 / 4) 0 (6 mod 4) 5 = (1, 6, 5).
Proof.
  destruct (batched_write_Y_covers_each_entry_once 2 8 4 8
              {| MatMul.P := 4; MatMul.T := 8; MatMul.L := 3 |} 1 6 5
              ltac:(lia) ltac:(lia) ltac:(lia) eq_refl
              ltac:(lia) ltac:(lia)) as (_ & H & _).
  exact H.
Defined.

(** ** The naive convolution *)

Lemma range_succ (x : Z) : 0 <= x -> range (x + 1) = range x ++ [x].
Proof.
  intros Hx. rewrite range_add by lia.
  change (range 1) with [0]. cbn [map]. rewrite Z.add_0_r. reflexivity.
Qed.

(** A loop over [range n] carries an invariant indexed by the counter. *)
Lemma fold_left_range_inv {S : Type} (f : S -> Z -> S) (Inv : Z -> S -> Prop)
    (n : Z) (s0 : S) :
  0 <= n -> Inv 0 s0 ->
  (forall i st, 0 <= i < n -> Inv i st -> Inv (i + 1) (f st i)) ->
  Inv n (fold_left f (range n) s0).
Proof.
  intros Hn H0 Hstep.
  assert (G : forall k : nat, Z.of_nat k <= n ->
                Inv (Z.of_nat k) (fold_left f (range (Z.of_nat k)) s0)).
  { induction k as [|k IH]; intros Hk; [exact H0|].
    rewrite Nat2Z.inj_succ, <- Z.add_1_r.
    rewrite range_succ by lia. rewrite fold_left_app. cbn [fold_left].
    apply Hstep; [lia|]. apply IH. lia. }
  rewrite <- (Z2Nat.id n Hn). apply G. lia.
Qed.

Section NaiveConvPixel.
Context {V : Type} `{Arith V}.
Variable s : NaiveConv.Sizes.
Variables X W : address -> V.
Variable B : option (Z -> V).
Variables b out_x out_y : Z.
Hypothesis Hsx : NaiveConv.stride_x s = 1.
Hypothesis Hsy : NaiveConv.stride_y s = 1.
Hypothesis HC : 1 <= NaiveConv.num_channels s.
Hypothesis HHx : 1 <= NaiveConv.filter_hx s.
Hypothesis HHy : 1 <= NaiveConv.filter_hy s.

Lemma sum_hy_succ (m cin hx n : Z) (acc : V) :
  0 <= n ->
  NaiveConv.sum_hy X W b m out_x out_y cin hx (n + 1) acc
  = vadd (NaiveConv.sum_hy X W b m out_x out_y cin hx n acc)
         (NaiveConv.product X W b m out_x out_y cin hx n).
Proof.
  intros Hn. unfold NaiveConv.sum_hy.
  rewrite range_succ by lia. rewrite fold_left_app. reflexivity.
Qed.

Lemma sum_hx_succ (m cin n : Z) (acc : V) :
  0 <= n ->
  NaiveConv.sum_hx s X W b m out_x out_y cin (n + 1) acc
  = NaiveConv.sum_hy X W b m out_x out_y cin n (NaiveConv.filter_hy s)
      (NaiveConv.sum_hx s X W b m out_x out_y cin n acc).
Proof.
  intros Hn. unfold NaiveConv.sum_hx.
  rewrite range_succ by lia. rewrite fold_left_app. reflexivity.
Qed.

Lemma sum_cin_succ (m n : Z) (acc : V) :
  0 <= n ->
  NaiveConv.sum_cin s X W b m out_x out_y (n + 1) acc
  = NaiveConv.sum_hx s X W b m out_x out_y n (NaiveConv.filter_hx s)
      (NaiveConv.sum_cin s X W b m out_x out_y n acc).
Proof.
  intros Hn. unfold NaiveConv.sum_cin.
  rewrite range_succ by lia. rewrite fold_left_app. reflexivity.
Qed.

Lemma invariant_initially (st : NaiveConv.State V) :
  NaiveConv.invariant s X W B st b out_x out_y 0 0 0 0.
Proof.
  unfold NaiveConv.invariant, NaiveConv.started, NaiveConv.filled,
    NaiveConv.finished.
  split; [|split].
  - intros m Hm Hs. lia.
  - intros hx' hy' Hx' Hy' Hf. lia.
  - intros m Hm Hf. lia.
Qed.

Lemma image_memlet_unit_stride (cin hx hy : Z) :
  NaiveConv.image_memlet s b cin out_x out_y hx hy
  = (b, cin, out_x + hx, out_y + hy).
Proof.
  unfold NaiveConv.image_memlet, _2d_sliding_window_index_expr.
  rewrite Hsx, Hsy, !Z.mul_1_r. reflexivity.
Qed.

Lemma address_eqb_eq (a a' : address) : address_eqb a a' = true <-> a = a'.
Proof.
  destruct a as [[[i j] k] l], a' as [[[i' j'] k'] l']. cbn [address_eqb].
  rewrite !andb_true_iff, !Z.eqb_eq. split.
  - intros [[[-> ->] ->] ->]. reflexivity.
  - intros E. injection E as -> -> -> ->. repeat split.
Qed.

(** One execution of the tasklet moves the invariant to the next column. *)
Lemma compute_entry_invariant (st : NaiveConv.State V) (cin m hx hy : Z) :
  0 <= cin < NaiveConv.num_channels s -> 0 <= m < NaiveConv.num_filters s ->
  0 <= hx < NaiveConv.filter_hx s -> 0 <= hy < NaiveConv.filter_hy s ->
  NaiveConv.invariant s X W B st b out_x out_y cin m hx hy ->
  NaiveConv.invariant s X W B
    (NaiveConv.compute_entry s X W B st b out_x out_y cin m hx hy)
    b out_x out_y cin m hx (hy + 1).
Proof.
  intros Hc Hm Hx Hy (IY & IX & IO).
  assert (Ein : (if m =? 0
                 then X (NaiveConv.image_memlet s b cin out_x out_y hx hy)
                 else NaiveConv.local_X st cin hx hy)
                = X (b, cin, out_x + hx, out_y + hy)).
  { destruct (Z.eqb_spec m 0) as [E|E].
    - rewrite image_memlet_unit_stride. reflexivity.
    - apply IX; [lia | lia |]. left. lia. }
  assert (Eacc : vadd (if (hx =? 0) && (hy =? 0) && (cin =? 0) then vzero
                       else NaiveConv.local_Y st m)
                   (vmul (if m =? 0
                          then X (NaiveConv.image_memlet s b cin out_x out_y hx hy)
                          else NaiveConv.local_X st cin hx hy)
                         (W (m, cin, hx, hy)))
                 = NaiveConv.accumulated s X W b out_x out_y cin m hx (hy + 1) m).
  { unfold NaiveConv.accumulated. rewrite Z.ltb_irrefl, Z.eqb_refl.
    rewrite sum_hy_succ by lia. unfold NaiveConv.product. rewrite Ein.
    f_equal.
    destruct ((hx =? 0) && (hy =? 0) && (cin =? 0)) eqn:Ereset.
    - rewrite !andb_true_iff, !Z.eqb_eq in Ereset.
      destruct Ereset as [[-> ->] ->]. reflexivity.
    - apply not_true_iff_false in Ereset.
      rewrite !andb_true_iff, !Z.eqb_eq in Ereset.
      assert (Hs : NaiveConv.started cin m hx hy m)
        by (unfold NaiveConv.started; lia).
      rewrite (IY m Hm Hs).
      unfold NaiveConv.accumulated. rewrite Z.ltb_irrefl, Z.eqb_refl.
      reflexivity. }
  unfold NaiveConv.invariant, NaiveConv.compute_entry.
  cbn [NaiveConv.local_X NaiveConv.local_Y NaiveConv.Y].
  split; [|split].
  - intros m' Hm' Hs'. unfold update.
    destruct (Z.eqb_spec m' m) as [E|E].
    + subst m'. exact Eacc.
    + rewrite IY; [| exact Hm' |].
      * unfold NaiveConv.accumulated.
        destruct (m' <? m); [reflexivity|].
        destruct (Z.eqb_spec m' m); [contradiction|reflexivity].
      * unfold NaiveConv.started in *. lia.
  - intros hx' hy' Hx' Hy' Hf.
    destruct (Z.eqb_spec m 0) as [E|E].
    + rewrite Z.eqb_refl. cbn [andb].
      destruct (Z.eqb_spec hx' hx) as [E1|E1]; cbn [andb];
        [destruct (Z.eqb_spec hy' hy) as [E2|E2]|].
      * subst. rewrite image_memlet_unit_stride. reflexivity.
      * apply IX; try assumption. unfold NaiveConv.filled in *. lia.
      * apply IX; try assumption. unfold NaiveConv.filled in *. lia.
    + apply IX; try assumption. unfold NaiveConv.filled. lia.
  - intros m' Hm' Hf.
    destruct ((hx =? NaiveConv.filter_hx s - 1) && (hy =? NaiveConv.filter_hy s - 1)
              && (cin =? NaiveConv.num_channels s - 1)) eqn:Elast.
    + rewrite !andb_true_iff, !Z.eqb_eq in Elast.
      destruct Elast as [[Ex Ey] Ec].
      unfold store, NaiveConv.output_memlet. cbn [address_eqb].
      rewrite !Z.eqb_refl. cbn [andb].
      destruct (Z.eqb_spec m' m) as [E|E]; cbn [andb].
      * subst m'. rewrite Eacc.
        assert (Ew : NaiveConv.accumulated s X W b out_x out_y cin m hx (hy + 1) m
                     = NaiveConv.window_sum s X W b m out_x out_y).
        { unfold NaiveConv.accumulated, NaiveConv.window_sum.
          rewrite Z.ltb_irrefl, Z.eqb_refl.
          replace (hy + 1) with (NaiveConv.filter_hy s) by lia.
          rewrite <- sum_hx_succ by lia.
          replace (hx + 1) with (NaiveConv.filter_hx s) by lia.
          rewrite <- sum_cin_succ by lia.
          replace (cin + 1) with (NaiveConv.num_channels s) by lia.
          reflexivity. }
        rewrite Ew. unfold NaiveConv.conv_reference. destruct B; reflexivity.
      * apply IO; [exact Hm'|]. unfold NaiveConv.finished in *. lia.
    + apply IO; [exact Hm'|].
      apply not_true_iff_false in Elast.
      rewrite !andb_true_iff, !Z.eqb_eq in Elast.
      unfold NaiveConv.finished in *. lia.
Qed.

Lemma sum_hy_0 (m cin hx : Z) (acc : V) :
  NaiveConv.sum_hy X W b m out_x out_y cin hx 0 acc = acc.
Proof. reflexivity. Qed.

Lemma sum_hx_0 (m cin : Z) (acc : V) :
  NaiveConv.sum_hx s X W b m out_x out_y cin 0 acc = acc.
Proof. reflexivity. Qed.

(** The invariant at the end of a kernel row is the invariant at the start
    of the next one, and likewise for the filters and the channels. *)
Lemma invariant_next_row (st : NaiveConv.State V) (cin m hx : Z) :
  0 <= hx ->
  NaiveConv.invariant s X W B st b out_x out_y cin m hx (NaiveConv.filter_hy s) ->
  NaiveConv.invariant s X W B st b out_x out_y cin m (hx + 1) 0.
Proof.
  intros Hx (IY & IX & IO). split; [|split].
  - intros m' Hm' Hs'.
    rewrite IY; [| exact Hm' | unfold NaiveConv.started in *; lia].
    unfold NaiveConv.accumulated.
    destruct (m' <? m); [reflexivity|].
    destruct (m' =? m); [|reflexivity].
    rewrite sum_hy_0, sum_hx_succ by lia. reflexivity.
  - intros hx' hy' Hx' Hy' Hf. apply IX; try assumption.
    unfold NaiveConv.filled in *. lia.
  - intros m' Hm' Hf. apply IO; [exact Hm'|].
    unfold NaiveConv.finished in *. lia.
Qed.

Lemma invariant_next_filter (st : NaiveConv.State V) (cin m : Z) :
  0 <= cin -> 0 <= m ->
  NaiveConv.invariant s X W B st b out_x out_y cin m (NaiveConv.filter_hx s) 0 ->
  NaiveConv.invariant s X W B st b out_x out_y cin (m + 1) 0 0.
Proof.
  intros Hc Hm (IY & IX & IO). split; [|split].
  - intros m' Hm' Hs'.
    rewrite IY; [| exact Hm' | unfold NaiveConv.started in *; lia].
    unfold NaiveConv.accumulated.
    destruct (Z.ltb_spec m' m) as [L1|L1].
    + destruct (Z.ltb_spec m' (m + 1)); [reflexivity|lia].
    + destruct (Z.eqb_spec m' m) as [E|E].
      * destruct (Z.ltb_spec m' (m + 1)); [|lia].
        rewrite sum_hy_0, sum_cin_succ by lia. reflexivity.
      * destruct (Z.ltb_spec m' (m + 1)); [lia|].
        destruct (Z.eqb_spec m' (m + 1)); [|reflexivity].
        rewrite sum_hy_0, sum_hx_0. reflexivity.
  - intros hx' hy' Hx' Hy' Hf. apply IX; try assumption.
    unfold NaiveConv.filled in *. lia.
  - intros m' Hm' Hf. apply IO; [exact Hm'|].
    unfold NaiveConv.finished in *. lia.
Qed.

Lemma invariant_next_channel (st : NaiveConv.State V) (cin : Z) :
  0 <= cin ->
  NaiveConv.invariant s X W B st b out_x out_y cin (NaiveConv.num_filters s) 0 0 ->
  NaiveConv.invariant s X W B st b out_x out_y (cin + 1) 0 0 0.
Proof.
  intros Hc (IY & IX & IO). split; [|split].
  - intros m' Hm' Hs'.
    rewrite IY; [| exact Hm' | unfold NaiveConv.started; lia].
    unfold NaiveConv.accumulated.
    destruct (Z.ltb_spec m' (NaiveConv.num_filters s)); [|lia].
    destruct (Z.ltb_spec m' 0); [lia|].
    destruct (Z.eqb_spec m' 0); [|reflexivity].
    rewrite sum_hy_0, sum_hx_0. reflexivity.
  - intros hx' hy' Hx' Hy' Hf. unfold NaiveConv.filled in Hf. lia.
  - intros m' Hm' Hf. apply IO; [exact Hm'|].
    unfold NaiveConv.finished in *. lia.
Qed.

(** [inner_conv_map] for channel [cin] moves the invariant to the next
    channel. *)
Lemma inner_conv_map_invariant (st : NaiveConv.State V) (cin : Z) :
  0 <= cin < NaiveConv.num_channels s -> 0 <= NaiveConv.num_filters s ->
  NaiveConv.invariant s X W B st b out_x out_y cin 0 0 0 ->
  NaiveConv.invariant s X W B
    (NaiveConv.inner_conv_map s X W B st b out_x out_y cin)
    b out_x out_y (cin + 1) 0 0 0.
Proof.
  intros Hc HM I0. apply invariant_next_channel; [lia|].
  unfold NaiveConv.inner_conv_map.
  apply (fold_left_range_inv _
           (fun m st => NaiveConv.invariant s X W B st b out_x out_y cin m 0 0));
    [exact HM | exact I0 |].
  intros m st1 Hm I1. apply invariant_next_filter; [lia | lia |].
  apply (fold_left_range_inv _
           (fun hx st => NaiveConv.invariant s X W B st b out_x out_y cin m hx 0));
    [lia | exact I1 |].
  intros hx st2 Hx I2. apply invariant_next_row; [lia|].
  apply (fold_left_range_inv _
           (fun hy st => NaiveConv.invariant s X W B st b out_x out_y cin m hx hy));
    [lia | exact I2 |].
  intros hy st3 Hy I3. apply compute_entry_invariant; assumption.
Qed.

(** Whatever the local buffers and Y hold before, [mid_conv_map] leaves
    the convolution sum of every filter in the pixel it is run for. *)
Lemma mid_conv_map_writes_pixel (st : NaiveConv.State V) (m : Z) :
  0 <= m < NaiveConv.num_filters s ->
  NaiveConv.Y (NaiveConv.mid_conv_map s X W B st b out_x out_y)
    (NaiveConv.output_memlet b m out_x out_y)
  = NaiveConv.conv_reference s X W B b m out_x out_y.
Proof.
  intros Hm.
  assert (I : NaiveConv.invariant s X W B
                (NaiveConv.mid_conv_map s X W B st b out_x out_y)
                b out_x out_y (NaiveConv.num_channels s) 0 0 0).
  { unfold NaiveConv.mid_conv_map.
    apply (fold_left_range_inv _
             (fun cin st => NaiveConv.invariant s X W B st b out_x out_y cin 0 0 0));
      [lia | apply invariant_initially |].
    intros cin st1 Hc I1. apply inner_conv_map_invariant; [exact Hc | lia | exact I1]. }
  destruct I as (_ & _ & IO). apply IO; [exact Hm|].
  unfold NaiveConv.finished. lia.
Qed.

End NaiveConvPixel.

Lemma fold_left_preserves {S A : Type} (f : S -> A -> S) (Q : S -> Prop)
    (l : list A) (s0 : S) :
  Q s0 -> (forall st i, Q st -> Q (f st i)) -> Q (fold_left f l s0).
Proof.
  intros H0 Hstep. revert s0 H0.
  induction l as [|a l IH]; intros s0 H0; [exact H0|].
  cbn [fold_left]. apply IH. apply Hstep. exact H0.
Qed.

(** A loop in which iteration [i] establishes a property that the later
    iterations keep ends with the property. *)
Lemma fold_left_range_establish {S : Type} (f : S -> Z -> S) (Q : S -> Prop)
    (n i : Z) (s0 : S) :
  0 <= i < n ->
  (forall st, Q (f st i)) ->
  (forall st j, j <> i -> Q st -> Q (f st j)) ->
  Q (fold_left f (range n) s0).
Proof.
  intros Hi Hest Hkeep.
  assert (G : i < n -> Q (fold_left f (range n) s0)); [|apply G; lia].
  apply (fold_left_range_inv f (fun k st => i < k -> Q st)); [lia | lia |].
  intros k st Hk IH Hlt.
  destruct (Z.eq_dec k i) as [->|Hne].
  - apply Hest.
  - apply Hkeep; [exact Hne|]. apply IH. lia.
Qed.

Section NaiveConvFrame.
Context {V : Type} `{Arith V}.
Variable s : NaiveConv.Sizes.
Variables X W : address -> V.
Variable B : option (Z -> V).

(** The maps of one pixel write to no other pixel of Y. *)
Lemma mid_conv_map_frame (st : NaiveConv.State V) (b out_x out_y : Z)
    (a : address) :
  (forall m, a <> NaiveConv.output_memlet b m out_x out_y) ->
  NaiveConv.Y (NaiveConv.mid_conv_map s X W B st b out_x out_y) a
  = NaiveConv.Y st a.
Proof.
  intros Ha. unfold NaiveConv.mid_conv_map, NaiveConv.inner_conv_map.
  apply (fold_left_preserves _ (fun st' => NaiveConv.Y st' a = NaiveConv.Y st a));
    [reflexivity|].
  intros st1 cin I1.
  apply (fold_left_preserves _ (fun st' => NaiveConv.Y st' a = NaiveConv.Y st a));
    [exact I1|].
  intros st2 m I2.
  apply (fold_left_preserves _ (fun st' => NaiveConv.Y st' a = NaiveConv.Y st a));
    [exact I2|].
  intros st3 hx I3.
  apply (fold_left_preserves _ (fun st' => NaiveConv.Y st' a = NaiveConv.Y st a));
    [exact I3|].
  intros st4 hy I4. rewrite <- I4.
  unfold NaiveConv.compute_entry. cbn [NaiveConv.Y].
  destruct (_ && _ && _); [|reflexivity].
  unfold store.
  destruct (address_eqb a (NaiveConv.output_memlet b m out_x out_y)) eqn:E;
    [|reflexivity].
  apply address_eqb_eq in E. elim (Ha m). exact E.
Qed.

End NaiveConvFrame.

Lemma forward_sizes_unit_strides (n : ConvOp) (s : NaiveConv.Sizes) :
  NaiveConv.forward_sizes n = Returns s ->
  NaiveConv.stride_x s = 1 /\ NaiveConv.stride_y s = 1.
Proof.
  unfold NaiveConv.forward_sizes. intros Hret.
  repeat match type of Hret with
         | and_then ?r _ = _ =>
             destruct r eqn:?; cbn [and_then] in Hret; [|discriminate]
         end.
  match type of Hret with
  | (if negb ?c then _ else _) = _ => destruct c eqn:E; cbn [negb] in Hret
  end; [|discriminate].
  injection Hret as <-. cbn [NaiveConv.stride_x NaiveConv.stride_y].
  apply andb_true_iff in E. rewrite !Z.eqb_eq in E. exact E.
Qed.

(** For a node that [forward] of the naive convolution accepts, with at
    least one channel and a kernel of at least one row and column, running
    the maps from any content of the local buffers and of Y leaves in every
    entry [Y[b, m, out_x, out_y]] of the iteration space the convolution
    sum of the window at [(out_x, out_y)] with filter [m], plus the bias
    when there is one: the buffers that are reused from pixel to pixel
    never carry a value over. *)
Theorem naive_conv_computes_convolution {V : Type} `{Arith V} (n : ConvOp)
    (s : NaiveConv.Sizes) (X W : address -> V) (B : option (Z -> V))
    (st : NaiveConv.State V) (b m out_x out_y : Z) :
  NaiveConv.forward_sizes n = Returns s ->
  1 <= NaiveConv.num_channels s ->
  1 <= NaiveConv.filter_hx s -> 1 <= NaiveConv.filter_hy s ->
  0 <= b < NaiveConv.batch_size s -> 0 <= m < NaiveConv.num_filters s ->
  0 <= out_x < NaiveConv.output_size_x s ->
  0 <= out_y < NaiveConv.output_size_y s ->
  NaiveConv.Y (NaiveConv.outer_conv_map s X W B st) (b, m, out_x, out_y)
  = NaiveConv.conv_reference s X W B b m out_x out_y.
Proof.
  intros Hret HC HHx HHy Hb Hm Hox Hoy.
  destruct (forward_sizes_unit_strides n s Hret) as [Hsx Hsy].
  set (Q := fun st' : NaiveConv.State V =>
              NaiveConv.Y st' (b, m, out_x, out_y)
              = NaiveConv.conv_reference s X W B b m out_x out_y).
  assert (Hkeep : forall st' b' x' y',
             (b', x', y') <> (b, out_x, out_y) -> Q st' ->
             Q (NaiveConv.mid_conv_map s X W B st' b' x' y')).
  { intros st' b' x' y' Hne HQ. unfold Q.
    rewrite mid_conv_map_frame; [exact HQ|].
    intros m' E. unfold NaiveConv.output_memlet in E.
    apply Hne. congruence. }
  change (Q (NaiveConv.outer_conv_map s X W B st)).
  unfold NaiveConv.outer_conv_map.
  apply (fold_left_range_establish _ Q _ b); [exact Hb | |].
  - intros st1.
    apply (fold_left_range_establish _ Q _ out_x); [exact Hox | |].
    + intros st2.
      apply (fold_left_range_establish _ Q _ out_y); [exact Hoy | |].
      * intros st3. unfold Q.
        apply (mid_conv_map_writes_pixel s X W B b out_x out_y Hsx Hsy HC HHx HHy
                 st3 m Hm).
      * intros st3 y' Hne HQ. apply Hkeep; [congruence | exact HQ].
    + intros st2 x' Hne HQ.
      apply fold_left_preserves; [exact HQ|].
      intros st3 y' HQ3. apply Hkeep; [congruence | exact HQ3].
  - intros st1 b' Hne HQ.
    apply fold_left_preserves; [exact HQ|].
    intros st2 x' HQ2.
    apply fold_left_preserves; [exact HQ2|].
    intros st3 y' HQ3. apply Hkeep; [congruence | exact HQ3].
Qed.

(** What [forward] of the naive convolution reads from rank-4 shapes. *)
Lemma forward_sizes_reads (n : ConvOp) (s : NaiveConv.Sizes)
    (x0 x1 x2 x3 f c kh kw y0 y1 y2 y3 : Z) :
  X_shape n = [x0; x1; x2; x3] -> W_shape n = [f; c; kh; kw] ->
  Y_shape n = [y0; y1; y2; y3] -> kernel_shape n = None ->
  NaiveConv.forward_sizes n = Returns s ->
  s = {| NaiveConv.stride_x := 1; NaiveConv.stride_y := 1;
         NaiveConv.filter_hx := kh; NaiveConv.filter_hy := kw;
         NaiveConv.num_filters := f; NaiveConv.num_channels := x1;
         NaiveConv.batch_size := x0;
         NaiveConv.output_size_y := y2; NaiveConv.output_size_x := y3 |}.
Proof.
  intros HX HW HY HK. unfold NaiveConv.forward_sizes.
  rewrite HX, HW, HY, HK.
  destruct (unpack2 _) as [[s1 s2]|]; cbn [and_then]; [|discriminate].
  cbn [skipn py_index nth_error unpack2 and_then fst snd].
  destruct ((s1 =? 1) && (s2 =? 1)) eqn:E; cbn [negb]; [|discriminate].
  apply andb_true_iff in E. rewrite !Z.eqb_eq in E. destruct E as [-> ->].
  intros Hret. injection Hret as <-. reflexivity.
Qed.

Lemma naive_applicable_shapes (n : ConvOp) :
  naive_can_be_applied n = Returns true ->
  (exists x0 x1 x2 x3, X_shape n = [x0; x1; x2; x3]) /\
  (exists f c kh kw, W_shape n = [f; c; kh; kw]) /\
  match strides n with
  | Some ss => exists s1 s2, ss = [s1; s2]
  | None => True
  end.
Proof.
  unfold naive_can_be_applied.
  destruct (py_index (W_shape n) 0) as [nf|e]; cbn [and_then]; [|discriminate].
  destruct (py_index (X_shape n) 1) as [nc|e]; cbn [and_then]; [|discriminate].
  destruct (negb (is_float (X_dtype n)) || negb (is_float (W_dtype n)));
    [discriminate|].
  destruct (negb (len (X_shape n) =? 4) || negb (len (W_shape n) =? 4)) eqn:Erank;
    [discriminate|].
  apply orb_false_iff in Erank. destruct Erank as [EX EW].
  apply negb_false_iff in EX. apply negb_false_iff in EW.
  destruct (len_eq_4 _ EX) as (x0 & x1 & x2 & x3 & HX).
  destruct (len_eq_4 _ EW) as (f & c & kh & kw & HW).
  rewrite HX, HW.
  destruct (negb (group n =? 1)); [discriminate|].
  cbn [py_index nth_error and_then].
  destruct (negb (nc =? c)); [discriminate|].
  destruct (bad_dilations n _); [discriminate|].
  destruct (match pads n with Some _ => _ | None => false end); [discriminate|].
  unfold bad_strides, len. cbn [length]. change (Z.of_nat 4 - 2) with 2.
  intros Happ.
  split; [exists x0, x1, x2, x3; reflexivity|].
  split; [exists f, c, kh, kw; reflexivity|].
  destruct (strides n) as [ss|]; [|exact I].
  destruct (Z.eqb_spec (Z.of_nat (length ss)) 2) as [E|E];
    cbn [negb] in Happ; [|discriminate].
  destruct ss as [|s1 [|s2 [|s3 ss]]]; cbn [length] in E; try lia.
  exists s1, s2. reflexivity.
Qed.

(** The predicate of the naive convolution accepts any two strides, but
    construction asserts that both are 1: for an accepted node with a
    rank-4 output and no [kernel_shape] attribute, [forward] gets past its
    head exactly when the strides are missing or both 1, and raises the
    AssertionError for every other pair. *)
Theorem naive_conv_strides_asserted (n : ConvOp) :
  naive_can_be_applied n = Returns true ->
  length (Y_shape n) = 4%nat -> kernel_shape n = None ->
  match strides n with
  | Some ss =>
      if all_equal_to 1 ss
      then exists s, NaiveConv.forward_sizes n = Returns s
      else NaiveConv.forward_sizes n = Throws AssertionError_strides
  | None => exists s, NaiveConv.forward_sizes n = Returns s
  end.
Proof.
  intros Happ HY HK.
  destruct (naive_applicable_shapes n Happ)
    as ((x0 & x1 & x2 & x3 & HX) & (f & c & kh & kw & HW) & Hs).
  destruct (Y_shape n) as [|y0 [|y1 [|y2 [|y3 [|y4 ys]]]]] eqn:EY;
    cbn [length] in HY; try discriminate.
  unfold NaiveConv.forward_sizes. rewrite HX, HW, EY, HK.
  destruct (strides n) as [ss|].
  - destruct Hs as (s1 & s2 & ->).
    cbn [all_equal_to forallb unpack2 and_then skipn py_index nth_error fst snd].
    rewrite andb_true_r.
    destruct ((s1 =? 1) && (s2 =? 1)); cbn [negb]; [eexists|]; reflexivity.
  - unfold len. cbn [length]. change (Z.to_nat (Z.of_nat 4 - 2)) with 2%nat.
    cbn [repeat unpack2 and_then skipn py_index nth_error fst snd].
    cbn [Z.eqb Pos.eqb andb negb]. eexists. reflexivity.
Qed.

Lemma naive_conv_strides_asserted_witness :
  NaiveConv.forward_sizes
    {| X_shape := [1; 1; 5; 5]; X_dtype := float32; X_veclen := 1;
       W_shape := [1; 1; 3; 3]; W_dtype := float32; W_veclen := 1;
       Y_shape := [1; 1; 2; 2]; Y_veclen := 1; B_shape := None;
       group := 1; dilations := None; pads := None; strides := Some [2; 2];
       kernel_shape := None; auto_pad := NOTSET |}
  = Throws AssertionError_strides.
Proof.
  exact (naive_conv_strides_asserted
           {| X_shape := [1; 1; 5; 5]; X_dtype := float32; X_veclen := 1;
              W_shape := [1; 1; 3; 3]; W_dtype := float32; W_veclen := 1;
              Y_shape := [1; 1; 2; 2]; Y_veclen := 1; B_shape := None;
              group := 1; dilations := None; pads := None;
              strides := Some [2; 2];
              kernel_shape := None; auto_pad := NOTSET |}
           eq_refl eq_refl eq_refl).
Defined.

Lemma naive_conv_computes_convolution_witness :
  NaiveConv.Y
    (NaiveConv.outer_conv_map naive_sizes_2x2 image_by_index weights_by_index
       (Some bias_by_index) stale_buffers) (0, 1, 1, 0)
  = NaiveConv.conv_reference naive_sizes_2x2 image_by_index weights_by_index
      (Some bias_by_index) 0 1 1 0.
Proof.
  apply (naive_conv_computes_convolution conv_op_2x2_valid);
    [reflexivity | cbn; lia ..].
Defined.

(** The naive convolution unpacks the spatial extents of Y as
    [(output_size_y, output_size_x)] but runs [out_x] over the second of
    them and uses it as the first spatial index.  For a valid convolution
    with unit strides all its writes of Y lie inside Y exactly when the
    output is square, and so do all its reads of X. *)
Theorem naive_conv_accesses_inside_iff_square (n : ConvOp) (s : NaiveConv.Sizes)
    (x0 x1 f kh kw y2 y3 : Z) :
  X_shape n = [x0; x1; y2 + kh - 1; y3 + kw - 1] ->
  W_shape n = [f; x1; kh; kw] ->
  Y_shape n = [x0; f; y2; y3] ->
  kernel_shape n = None ->
  NaiveConv.forward_sizes n = Returns s ->
  1 <= x0 -> 1 <= x1 -> 1 <= f -> 1 <= kh -> 1 <= kw -> 1 <= y2 -> 1 <= y3 ->
  ((forall b m out_x out_y,
      0 <= b < NaiveConv.batch_size s -> 0 <= m < NaiveConv.num_filters s ->
      0 <= out_x < NaiveConv.output_size_x s ->
      0 <= out_y < NaiveConv.output_size_y s ->
      in_shape (Y_shape n) (NaiveConv.output_memlet b m out_x out_y) = true)
   <-> y2 = y3) /\
  ((forall b cin out_x out_y hx hy,
      0 <= b < NaiveConv.batch_size s -> 0 <= cin < NaiveConv.num_channels s ->
      0 <= out_x < NaiveConv.output_size_x s ->
      0 <= out_y < NaiveConv.output_size_y s ->
      0 <= hx < NaiveConv.filter_hx s -> 0 <= hy < NaiveConv.filter_hy s ->
      in_shape (X_shape n) (NaiveConv.image_memlet s b cin out_x out_y hx hy) = true)
   <-> y2 = y3).
Proof.
  intros HX HW HY HK Hret Hx0 Hx1 Hf Hkh Hkw Hy2 Hy3.
  rewrite (forward_sizes_reads n s _ _ _ _ _ _ _ _ _ _ _ _ HX HW HY HK Hret).
  rewrite HX, HY.
  cbn [NaiveConv.batch_size NaiveConv.num_filters NaiveConv.num_channels
       NaiveConv.output_size_x NaiveConv.output_size_y
       NaiveConv.filter_hx NaiveConv.filter_hy].
  unfold NaiveConv.output_memlet, NaiveConv.image_memlet,
    _2d_sliding_window_index_expr.
  cbn [NaiveConv.stride_x NaiveConv.stride_y in_shape].
  split; split.
  - intros Hall.
    pose proof (Hall 0 0 (y3 - 1) (y2 - 1) ltac:(lia) ltac:(lia) ltac:(lia)
                  ltac:(lia)) as E.
    rewrite !andb_true_iff, !Z.leb_le, !Z.ltb_lt in E. lia.
  - intros <- b m out_x out_y Hb Hm Hox Hoy.
    rewrite !andb_true_iff, !Z.leb_le, !Z.ltb_lt. lia.
  - intros Hall.
    pose proof (Hall 0 0 (y3 - 1) (y2 - 1) (kh - 1) (kw - 1) ltac:(lia)
                  ltac:(lia) ltac:(lia) ltac:(lia) ltac:(lia) ltac:(lia)) as E.
    rewrite !andb_true_iff, !Z.leb_le, !Z.ltb_lt in E. lia.
  - intros <- b cin out_x out_y hx hy Hb Hc Hox Hoy Hhx Hhy.
    rewrite !andb_true_iff, !Z.leb_le, !Z.ltb_lt. lia.
Qed.

Lemma naive_conv_accesses_inside_iff_square_witness :
  ~ (forall b m out_x out_y,
       0 <= b < NaiveConv.batch_size naive_sizes_2x2_wide ->
       0 <= m < NaiveConv.num_filters naive_sizes_2x2_wide ->
       0 <= out_x < NaiveConv.output_size_x naive_sizes_2x2_wide ->
       0 <= out_y < NaiveConv.output_size_y naive_sizes_2x2_wide ->
       in_shape (Y_shape conv_op_2x2_wide)
         (NaiveConv.output_memlet b m out_x out_y) = true).
Proof.
  intros Hall.
  destruct (naive_conv_accesses_inside_iff_square conv_op_2x2_wide
              naive_sizes_2x2_wide 1 1 1 2 2 2 3
              eq_refl eq_refl eq_refl eq_refl eq_refl
              ltac:(lia) ltac:(lia) ltac:(lia) ltac:(lia) ltac:(lia)
              ltac:(lia) ltac:(lia)) as [[Hy _] _].
  specialize (Hy Hall). discriminate Hy.
Defined.

(** ** Softmax *)

(** The predicate accepts only the index of the last axis, while [forward]
    accepts every axis between minus the rank and the rank and turns a
    negative one into its index.  A node accepted on a shape of rank at
    least one passes the check of [forward] with the last axis; the last
    axis named as -1 is rejected by the predicate although [forward] would
    go on with it; on a shape of rank zero the predicate accepts the axis
    -1 and [forward] raises the ValueError. *)
Theorem softmax_axis_handling (shape : list Z) (axis : Z) :
  (shape <> [] -> Softmax.forward_can_be_applied shape axis = true ->
   Softmax.forward_axis shape axis = Returns (len shape - 1)) /\
  (shape <> [] ->
   Softmax.forward_can_be_applied shape (-1) = false /\
   Softmax.forward_axis shape (-1) = Returns (len shape - 1)) /\
  (forall a, Softmax.forward_axis shape axis = Returns a ->
     0 <= a < len shape /\ (a = axis \/ a = axis + len shape)) /\
  (Softmax.forward_axis shape axis = Throws ValueError_axis <->
   axis < - len shape \/ len shape <= axis) /\
  (Softmax.forward_can_be_applied [] (-1) = true /\
   Softmax.forward_axis [] (-1) = Throws ValueError_axis).
Proof.
  assert (Hlen : shape <> [] -> 1 <= len shape).
  { intros Hne. unfold len. destruct shape; [contradiction|]. cbn [length]. lia. }
  unfold Softmax.forward_can_be_applied, Softmax.forward_axis.
  split; [|split; [|split; [|split]]].
  - intros Hne Happ. apply Z.eqb_eq in Happ. specialize (Hlen Hne).
    destruct (Z.leb_spec (- len shape) axis); [|lia].
    destruct (Z.ltb_spec axis (len shape)); [|lia]. cbn [andb negb].
    destruct (Z.ltb_spec axis 0); [lia|]. f_equal. lia.
  - intros Hne. specialize (Hlen Hne). split.
    + apply Z.eqb_neq. lia.
    + destruct (Z.leb_spec (- len shape) (-1)); [|lia].
      destruct (Z.ltb_spec (-1) (len shape)); [|lia]. cbn [andb negb].
      replace (-1 <? 0) with true by reflexivity. f_equal. lia.
  - intros a.
    destruct (Z.leb_spec (- len shape) axis); cbn [andb negb]; [|discriminate].
    destruct (Z.ltb_spec axis (len shape)); cbn [andb negb]; [|discriminate].
    destruct (Z.ltb_spec axis 0); intros E; injection E as <-; lia.
  - destruct (Z.leb_spec (- len shape) axis); cbn [andb negb].
    + destruct (Z.ltb_spec axis (len shape)); cbn [andb negb].
      * split; [discriminate|lia].
      * split; [intros _; lia|reflexivity].
    + split; [intros _; lia|reflexivity].
  - split; reflexivity.
Qed.

(** One iteration of the batch map of Softmax leaves in every entry of its
    row the exponential of the input divided by the sum of the exponentials
    of the whole row, added up from zero in index order, whatever the
    registers held before; the maximum of the row is not subtracted. *)
Theorem softmax_row_is_exp_over_sum {V : Type} `{Arith V}
    `{Softmax.Transcendental V} (input : Z -> V) (st : Softmax.State V)
    (n i : Z) :
  0 <= i < n ->
  Softmax.output (Softmax.softmax_map input st n) i
  = Softmax.vdiv (Softmax.vexp (input i)) (Softmax.exp_sum input n).
Proof.
  intros Hi. unfold Softmax.softmax_map.
  set (st1 := fold_left (Softmax.exp_task input) (range n) (Softmax.init_task st)).
  assert (I1 : (forall j, 0 <= j < n ->
                  Softmax.exp_data st1 j = Softmax.vexp (input j)) /\
               Softmax.sum_data st1 = Softmax.exp_sum input n).
  { unfold st1.
    apply (fold_left_range_inv (Softmax.exp_task input)
             (fun k st' =>
                (forall j, 0 <= j < k ->
                   Softmax.exp_data st' j = Softmax.vexp (input j)) /\
                Softmax.sum_data st' = Softmax.exp_sum input k)); [lia | |].
    - split; [intros j Hj; lia | reflexivity].
    - intros k st' Hk [IE IS]. unfold Softmax.exp_task.
      cbn [Softmax.exp_data Softmax.sum_data]. split.
      + intros j Hj. unfold update.
        destruct (Z.eqb_spec j k) as [->|Hne]; [reflexivity|].
        apply IE. lia.
      + unfold Softmax.exp_sum. rewrite range_succ by lia.
        rewrite fold_left_app. cbn [fold_left]. f_equal.
        destruct (Z.eqb_spec k 0) as [->|Hne]; cbn [negb]; [reflexivity|].
        exact IS. }
  destruct I1 as [IE IS].
  assert (I2 : forall k, 0 <= k <= n ->
             let st2 := fold_left Softmax.div_task (range k) st1 in
             Softmax.exp_data st2 = Softmax.exp_data st1 /\
             Softmax.sum_data st2 = Softmax.sum_data st1 /\
             (forall j, 0 <= j < k ->
                Softmax.output st2 j
                = Softmax.vdiv (Softmax.vexp (input j)) (Softmax.exp_sum input n))).
  { intros k Hk.
    apply (fold_left_range_inv Softmax.div_task
             (fun k st2 =>
                0 <= k <= n ->
                Softmax.exp_data st2 = Softmax.exp_data st1 /\
                Softmax.sum_data st2 = Softmax.sum_data st1 /\
                (forall j, 0 <= j < k ->
                   Softmax.output st2 j
                   = Softmax.vdiv (Softmax.vexp (input j))
                       (Softmax.exp_sum input n)))); [lia | | | exact Hk].
    - intros _. split; [reflexivity|]. split; [reflexivity|]. intros j Hj. lia.
    - intros k' st2 Hk' IH Hk''.
      destruct (IH ltac:(lia)) as (E1 & E2 & E3).
      unfold Softmax.div_task.
      cbn [Softmax.exp_data Softmax.sum_data Softmax.output].
      split; [exact E1|]. split; [exact E2|].
      intros j Hj. unfold update.
      destruct (Z.eqb_spec j k') as [->|Hne].
      + rewrite E1, E2, IS, IE by lia. reflexivity.
      + apply E3. lia. }
  destruct (I2 n ltac:(lia)) as (_ & _ & E3). apply E3. exact Hi.
Qed.

Lemma softmax_axis_handling_witness :
  Softmax.forward_axis [2; 3] 1 = Returns 1.
Proof.
  destruct (softmax_axis_handling [2; 3] 1) as (H & _).
  apply H; [discriminate | reflexivity].
Defined.

Lemma softmax_row_is_exp_over_sum_witness :
  Softmax.output
    (@Softmax.softmax_map Z Arith_Z powers_of_two (fun i => i) stale_registers 3) 1
  = 2 ^ 1 / (2 ^ 0 + 2 ^ 1 + 2 ^ 2).
Proof.
  rewrite (@softmax_row_is_exp_over_sum Z Arith_Z powers_of_two (fun i => i)
             stale_registers 3 1 ltac:(lia)).
  reflexivity.
Defined.

(** ** The window of MaxPool *)

Lemma fold_left_ext_in {A B : Type} (f g : A -> B -> A) (l : list B) (a : A) :
  (forall acc i, In i l -> f acc i = g acc i) ->
  fold_left f l a = fold_left g l a.
Proof.
  revert a. induction l as [|x l IH]; intros a Hfg; [reflexivity|].
  cbn [fold_left]. rewrite Hfg by (left; reflexivity).
  apply IH. intros acc i Hi. apply Hfg. right. exact Hi.
Qed.

Lemma length_shift_in {V : Type} (sr : list V) (v : V) :
  sr <> [] -> length (MaxPool.shift_in sr v) = length sr.
Proof.
  intros Hne. destruct sr as [|x t]; [contradiction|].
  unfold MaxPool.shift_in. cbn [tl]. rewrite length_app. cbn [length]. lia.
Qed.

Lemma nth_shift_in_lt {V : Type} (sr : list V) (v d : V) (j : nat) :
  (S j < length sr)%nat ->
  nth j (MaxPool.shift_in sr v) d = nth (S j) sr d.
Proof.
  intros Hj. destruct sr as [|x t]; [cbn [length] in Hj; lia|].
  unfold MaxPool.shift_in. cbn [tl nth]. cbn [length] in Hj.
  apply app_nth1. lia.
Qed.

Lemma nth_shift_in_last {V : Type} (sr : list V) (v d : V) (j : nat) :
  S j = length sr -> nth j (MaxPool.shift_in sr v) d = v.
Proof.
  intros Hj. destruct sr as [|x t]; [discriminate|].
  unfold MaxPool.shift_in. cbn [tl]. cbn [length] in Hj.
  rewrite app_nth2 by lia.
  replace (j - length t)%nat with 0%nat by lia. reflexivity.
Qed.

(** Two elements of X in the ranges of the maps enter the shift register
    at different positions. *)
Lemma stream_position_inj (s : MaxPool.Sizes) (b c y col b' c' y' col' : Z) :
  0 <= c < MaxPool.num_channels s -> 0 <= c' < MaxPool.num_channels s ->
  0 <= y < MaxPool.input_size_height s -> 0 <= y' < MaxPool.input_size_height s ->
  0 <= col < MaxPool.input_size_width s * MaxPool.vec_width s ->
  0 <= col' < MaxPool.input_size_width s * MaxPool.vec_width s ->
  MaxPool.stream_position s b c y col = MaxPool.stream_position s b' c' y' col' ->
  b = b' /\ c = c' /\ y = y' /\ col = col'.
Proof.
  unfold MaxPool.stream_position. intros Hc Hc' Hy Hy' Hcol Hcol' E.
  set (Wrow := MaxPool.input_size_width s * MaxPool.vec_width s) in *.
  set (H := MaxPool.input_size_height s) in *.
  set (C := MaxPool.num_channels s) in *.
  set (t := (b * C + c) * H + y) in *.
  set (t' := (b' * C + c') * H + y') in *.
  destruct (block_split_unique (t * Wrow + col) Wrow t col
              ltac:(lia) Hcol eq_refl) as [Q1 R1].
  destruct (block_split_unique (t * Wrow + col) Wrow t' col'
              ltac:(lia) Hcol' (eq_sym E)) as [Q2 R2].
  assert (Ecol : col = col') by congruence.
  assert (E1 : t = t') by congruence.
  unfold t, t' in E1.
  set (u := b * C + c) in *. set (u' := b' * C + c') in *.
  destruct (block_split_unique (u * H + y) H u y ltac:(lia) Hy eq_refl) as [Q3 R3].
  destruct (block_split_unique (u * H + y) H u' y' ltac:(lia) Hy' (eq_sym E1))
    as [Q4 R4].
  assert (Ey : y = y') by congruence.
  assert (E2 : u = u') by congruence.
  unfold u, u' in E2.
  destruct (block_split_unique (b * C + c) C b c ltac:(lia) Hc eq_refl) as [Q5 R5].
  destruct (block_split_unique (b * C + c) C b' c' ltac:(lia) Hc' (eq_sym E2))
    as [Q6 R6].
  repeat split; congruence.
Qed.

Lemma stream_position_bounds (s : MaxPool.Sizes) (b c y col : Z) :
  0 <= b < MaxPool.batch_size s ->
  0 <= c < MaxPool.num_channels s ->
  0 <= y < MaxPool.input_size_height s ->
  0 <= col < MaxPool.input_size_width s * MaxPool.vec_width s ->
  0 <= MaxPool.stream_position s b c y col
  < MaxPool.stream_position s (MaxPool.batch_size s) 0 0 0.
Proof.
  unfold MaxPool.stream_position. intros Hb Hc Hy Hcol.
  set (Wrow := MaxPool.input_size_width s * MaxPool.vec_width s) in *.
  set (H := MaxPool.input_size_height s) in *.
  set (C := MaxPool.num_channels s) in *.
  set (B := MaxPool.batch_size s) in *.
  assert (H1 : 0 <= b * C + c < B * C) by nia.
  set (u := b * C + c) in *.
  assert (H2 : 0 <= u * H + y < B * C * H) by nia.
  set (t := u * H + y) in *.
  rewrite !Z.add_0_r. nia.
Qed.

Section MaxPoolWindow.
Context {V : Type}.
Variable vmax : V -> V -> V.
Variable min_value : V.
Variable s : MaxPool.Sizes.
Variable X : address -> Z -> V.
Hypothesis Hheight : 1 <= MaxPool.filter_height s.
Hypothesis Hwidth : 1 <= MaxPool.filter_width s.

Lemma register_max_hx_succ (sr : list V) (hy n : Z) (acc : V) :
  0 <= n ->
  MaxPool.register_max_hx vmax min_value s sr hy (n + 1) acc
  = vmax (MaxPool.register_max_hx vmax min_value s sr hy n acc)
      (nth (Z.to_nat (MaxPool.window_index s hy n)) sr min_value).
Proof.
  intros Hn. unfold MaxPool.register_max_hx.
  rewrite range_succ by lia. rewrite fold_left_app. reflexivity.
Qed.

Lemma register_max_hy_succ (sr : list V) (n : Z) (acc : V) :
  0 <= n ->
  MaxPool.register_max_hy vmax min_value s sr (n + 1) acc
  = MaxPool.register_max_hx vmax min_value s sr n (MaxPool.filter_width s)
      (MaxPool.register_max_hy vmax min_value s sr n acc).
Proof.
  intros Hn. unfold MaxPool.register_max_hy.
  rewrite range_succ by lia. rewrite fold_left_app. reflexivity.
Qed.

(** The window map leaves the shift register as it is and writes, when
    the position completes a window, the maximum of the window held in
    the register to the pixel of the memlet. *)
Lemma inner_pool_map_writes (st : MaxPool.State V) (b c in_y in_x w : Z) :
  let st' := MaxPool.inner_pool_map vmax min_value s st b c in_y in_x w in
  MaxPool.shift_register st' = MaxPool.shift_register st /\
  forall a,
    MaxPool.Y st' a
    = if (in_y mod MaxPool.filter_height s =? MaxPool.filter_height s - 1)
         && ((in_x * MaxPool.vec_width s + w) mod MaxPool.filter_height s
             =? MaxPool.filter_width s - 1)
         && address_eqb a (MaxPool.y_memlet s b c in_y in_x w)
      then MaxPool.register_max vmax min_value s (MaxPool.shift_register st)
      else MaxPool.Y st a.
Proof.
  set (sr := MaxPool.shift_register st).
  set (Fh := MaxPool.filter_height s) in *.
  set (Fw := MaxPool.filter_width s) in *.
  set (cond := (in_y mod Fh =? Fh - 1)
               && ((in_x * MaxPool.vec_width s + w) mod Fh =? Fw - 1)).
  set (J := fun (hy hx : Z) (st' : MaxPool.State V) =>
     MaxPool.shift_register st' = sr /\
     (hy <> 0 \/ hx <> 0 ->
      MaxPool.max_res st'
      = MaxPool.register_max_hx vmax min_value s sr hy hx
          (MaxPool.register_max_hy vmax min_value s sr hy min_value)) /\
     (Fh <= hy \/ (hy = Fh - 1 /\ Fw <= hx) ->
      forall a, MaxPool.Y st' a
                = if cond && address_eqb a (MaxPool.y_memlet s b c in_y in_x w)
                  then MaxPool.register_max vmax min_value s sr
                  else MaxPool.Y st a) /\
     (~ (Fh <= hy \/ (hy = Fh - 1 /\ Fw <= hx)) ->
      forall a, MaxPool.Y st' a = MaxPool.Y st a)).
  assert (G : J Fh 0 (MaxPool.inner_pool_map vmax min_value s st b c in_y in_x w)).
  { unfold MaxPool.inner_pool_map. fold Fh Fw.
    apply (fold_left_range_inv _ (fun hy st' => J hy 0 st')); [lia | |].
    - unfold J. split; [reflexivity|]. split; [lia|]. split; [lia|].
      intros _ a. reflexivity.
    - intros hy st1 Hhy J1.
      assert (J2 : J hy Fw (fold_left
                     (fun st2 hx => MaxPool.compute_entry vmax min_value s st2
                                      b c in_y in_x w hy hx) (range Fw) st1)).
      { apply (fold_left_range_inv _ (fun hx st' => J hy hx st')); [lia | exact J1 |].
        intros hx st2 Hhx (Jsr & Jmax & Jdone & Jnot).
        unfold J, MaxPool.compute_entry.
        cbn [MaxPool.shift_register MaxPool.max_res MaxPool.Y].
        assert (Emax : vmax (if (hx =? 0) && (hy =? 0) then min_value
                             else MaxPool.max_res st2)
                         (nth (Z.to_nat (MaxPool.window_index s hy hx))
                            (MaxPool.shift_register st2) min_value)
                       = MaxPool.register_max_hx vmax min_value s sr hy (hx + 1)
                           (MaxPool.register_max_hy vmax min_value s sr hy min_value)).
        { rewrite register_max_hx_succ by lia. rewrite Jsr. f_equal.
          destruct ((hx =? 0) && (hy =? 0)) eqn:E0.
          - rewrite andb_true_iff, !Z.eqb_eq in E0. destruct E0 as [-> ->].
            reflexivity.
          - apply not_true_iff_false in E0.
            rewrite andb_true_iff, !Z.eqb_eq in E0. apply Jmax. lia. }
        split; [exact Jsr|]. split; [intros _; exact Emax|].
        unfold MaxPool.writes_output. fold Fh Fw. fold cond.
        split.
        + intros Hdone a.
          assert (Ehy : hy = Fh - 1) by lia. assert (Ehx : hx = Fw - 1) by lia.
          rewrite <- Ehy, <- Ehx, !Z.eqb_refl.
          replace (true && true && (in_y mod Fh =? hy)
                   && ((in_x * MaxPool.vec_width s + w) mod Fh =? hx))
            with cond
            by (unfold cond; rewrite <- Ehy, <- Ehx; reflexivity).
          rewrite Emax.
          destruct cond; cbn [andb].
          * unfold store.
            destruct (address_eqb a (MaxPool.y_memlet s b c in_y in_x w)).
            -- unfold MaxPool.register_max. fold Fh.
               replace Fh with (hy + 1) at 1 by lia.
               rewrite register_max_hy_succ by lia. fold Fw.
               replace (hx + 1) with Fw by lia. reflexivity.
            -- apply Jnot. lia.
          * apply Jnot. lia.
        + intros Hnot a.
          assert (Elast : (hy =? Fh - 1) && (hx =? Fw - 1) = false).
          { apply not_true_iff_false. rewrite andb_true_iff, !Z.eqb_eq. lia. }
          rewrite Elast. cbn [andb]. apply Jnot. lia. }
      destruct J2 as (Jsr & Jmax & Jdone & Jnot).
      unfold J. split; [exact Jsr|]. split; [|split].
      + intros _. rewrite register_max_hy_succ by lia. fold Fw.
        rewrite Jmax by lia. reflexivity.
      + intros Hdone. apply Jdone. lia.
      + intros Hnot. apply Jnot. lia. }
  destruct G as (Gsr & _ & Gdone & _).
  cbv zeta. split; [exact Gsr|].
  intros a. rewrite Gdone by lia. reflexivity.
Qed.

Hypothesis Hsquare : MaxPool.filter_width s = MaxPool.filter_height s.
Hypothesis Hvec : 1 <= MaxPool.vec_width s.
Hypothesis HY : MaxPool.veclen_Y s = 1.
Variables b c oy ox : Z.
Hypothesis Hb : 0 <= b < MaxPool.batch_size s.
Hypothesis Hc : 0 <= c < MaxPool.num_channels s.
Hypothesis Hoy :
  0 <= oy /\ (oy + 1) * MaxPool.filter_height s <= MaxPool.input_size_height s.
Hypothesis Hox :
  0 <= ox /\
  (ox + 1) * MaxPool.filter_width s
  <= MaxPool.input_size_width s * MaxPool.vec_width s.

Lemma y_memlet_unvectorized (b' c' in_y in_x w : Z) :
  0 <= w < MaxPool.vec_width s ->
  MaxPool.y_memlet s b' c' in_y in_x w
  = (b', c', in_y / MaxPool.filter_height s,
     (in_x * MaxPool.vec_width s + w) / MaxPool.filter_width s).
Proof.
  intros Hw. unfold MaxPool.y_memlet. rewrite HY.
  destruct (Z.eqb_spec (MaxPool.vec_width s) 1) as [E|E]; cbn [negb andb].
  - rewrite E in *. replace w with 0 by lia. rewrite Z.mul_1_r, Z.add_0_r.
    reflexivity.
  - reflexivity.
Qed.

Lemma element_of_lane (b' c' y' x' w' : Z) :
  0 <= w' < MaxPool.vec_width s ->
  MaxPool.element s X b' c' y' (x' * MaxPool.vec_width s + w') = X (b', c', y', x') w'.
Proof.
  intros Hw. unfold MaxPool.element.
  destruct (block_split_unique (x' * MaxPool.vec_width s + w') (MaxPool.vec_width s)
              x' w' Hvec Hw eq_refl) as [<- <-].
  reflexivity.
Qed.

(** One lane entering the shift register, followed by the window map,
    moves the invariant by one position. *)
Lemma pool_step_invariant (st : MaxPool.State V) (b' c' y' x' w' : Z) :
  0 <= b' < MaxPool.batch_size s -> 0 <= c' < MaxPool.num_channels s ->
  0 <= y' < MaxPool.input_size_height s ->
  0 <= x' < MaxPool.input_size_width s -> 0 <= w' < MaxPool.vec_width s ->
  MaxPool.invariant vmax min_value s X b c oy ox
    (MaxPool.stream_position s b' c' y' (x' * MaxPool.vec_width s + w')) st ->
  MaxPool.invariant vmax min_value s X b c oy ox
    (MaxPool.stream_position s b' c' y' (x' * MaxPool.vec_width s + w') + 1)
    (MaxPool.inner_pool_map vmax min_value s
       {| MaxPool.shift_register :=
            MaxPool.shift_in (MaxPool.shift_register st) (X (b', c', y', x') w');
          MaxPool.max_res := MaxPool.max_res st;
          MaxPool.Y := MaxPool.Y st |}
       b' c' y' x' w').
Proof.
  intros Hb' Hc' Hy' Hx' Hw' (IL & IR & IY).
  set (vec := MaxPool.vec_width s) in *.
  set (Wv := MaxPool.input_size_width s) in *.
  set (Fh := MaxPool.filter_height s) in *.
  set (col := x' * vec + w') in *.
  assert (Hcol : 0 <= col < Wv * vec) by (unfold col; nia).
  set (P := MaxPool.stream_position s b' c' y' col) in *.
  assert (Esize : MaxPool.shift_register_size s = Wv * vec * (Fh - 1) + Fh).
  { unfold MaxPool.shift_register_size. rewrite Hsquare. fold Wv vec Fh. lia. }
  set (size := MaxPool.shift_register_size s) in *.
  assert (Hsize : 1 <= size) by nia.
  set (v := X (b', c', y', x') w').
  set (pushed := {| MaxPool.shift_register := MaxPool.shift_in (MaxPool.shift_register st) v;
                    MaxPool.max_res := MaxPool.max_res st;
                    MaxPool.Y := MaxPool.Y st |}).
  destruct (inner_pool_map_writes pushed b' c' y' x' w') as [Esr EY].
  cbn [MaxPool.shift_register MaxPool.Y pushed] in Esr, EY.
  assert (Hne : MaxPool.shift_register st <> []).
  { intros E. rewrite E in IL. cbn [length] in IL. lia. }
  assert (IR' : forall b2 c2 y2 col2,
             0 <= b2 < MaxPool.batch_size s -> 0 <= c2 < MaxPool.num_channels s ->
             0 <= y2 < MaxPool.input_size_height s -> 0 <= col2 < Wv * vec ->
             P + 1 - size <= MaxPool.stream_position s b2 c2 y2 col2 < P + 1 ->
             nth (Z.to_nat (MaxPool.stream_position s b2 c2 y2 col2 - (P + 1 - size)))
               (MaxPool.shift_in (MaxPool.shift_register st) v) min_value
             = MaxPool.element s X b2 c2 y2 col2).
  { intros b2 c2 y2 col2 Hb2 Hc2 Hy2 Hcol2 Hpos.
    destruct (Z.eq_dec (MaxPool.stream_position s b2 c2 y2 col2) P) as [E|E].
    - destruct (stream_position_inj s b2 c2 y2 col2 b' c' y' col
                  Hc2 Hc' Hy2 Hy' Hcol2 Hcol E) as (-> & -> & -> & ->).
      rewrite nth_shift_in_last by (rewrite IL; lia).
      unfold col. rewrite element_of_lane by exact Hw'. reflexivity.
    - rewrite nth_shift_in_lt by (rewrite IL; lia).
      replace (S (Z.to_nat (MaxPool.stream_position s b2 c2 y2 col2 - (P + 1 - size))))
        with (Z.to_nat (MaxPool.stream_position s b2 c2 y2 col2 - (P - size)))
        by lia.
      apply IR; try assumption. lia. }
  split; [|split].
  - rewrite Esr. rewrite length_shift_in by exact Hne. exact IL.
  - rewrite Esr. exact IR'.
  - intros HT. rewrite EY. rewrite y_memlet_unvectorized by exact Hw'.
    rewrite Hsquare in *. fold vec Fh col in HT |- *.
    set (T := MaxPool.stream_position s b c (oy * Fh + (Fh - 1)) (ox * Fh + (Fh - 1))) in *.
    assert (Hty : 0 <= oy * Fh + (Fh - 1) < MaxPool.input_size_height s) by nia.
    assert (Htx : 0 <= ox * Fh + (Fh - 1) < Wv * vec) by nia.
    destruct (block_split_unique (oy * Fh + (Fh - 1)) Fh oy (Fh - 1)
                Hheight ltac:(lia) eq_refl) as [Qy Ry].
    destruct (block_split_unique (ox * Fh + (Fh - 1)) Fh ox (Fh - 1)
                Hheight ltac:(lia) eq_refl) as [Qx Rx].
    destruct (Z.eq_dec T P) as [E|E].
    + destruct (stream_position_inj s b c _ _ b' c' y' col
                  Hc Hc' Hty Hy' Htx Hcol E) as (<- & <- & <- & <-).
      rewrite <- Qy, <- Qx, <- Ry, <- Rx, !Z.eqb_refl.
      cbn [address_eqb andb]. rewrite !Z.eqb_refl. cbn [andb].
      unfold MaxPool.register_max, MaxPool.register_max_hy,
        MaxPool.register_max_hx, MaxPool.window_max.
      rewrite Hsquare. fold Fh.
      apply fold_left_ext_in. intros acc hy Hhy. apply in_range in Hhy.
      apply fold_left_ext_in. intros acc2 hx Hhx. apply in_range in Hhx.
      f_equal.
      rewrite <- (IR' b c (oy * Fh + hy) (ox * Fh + hx) Hb Hc
                    ltac:(nia) ltac:(nia)).
      * f_equal. f_equal. unfold MaxPool.window_index. fold Wv vec.
        rewrite <- E. unfold T, MaxPool.stream_position. fold Wv vec.
        rewrite Esize. ring.
      * rewrite <- E. unfold T, MaxPool.stream_position. fold Wv vec.
        rewrite Esize. nia.
    + assert (Hneq : (col mod Fh =? Fh - 1) && (y' mod Fh =? Fh - 1)
                     && address_eqb (b, c, oy, ox) (b', c', y' / Fh, col / Fh)
                     = false).
      { apply not_true_iff_false. intros Htrue.
        rewrite !andb_true_iff, !Z.eqb_eq in Htrue.
        destruct Htrue as [[Mc My] Ea]. apply address_eqb_eq in Ea.
        injection Ea as Eb Ec Ey Ex.
        pose proof (Z.div_mod y' Fh ltac:(lia)) as Dy.
        pose proof (Z.div_mod col Fh ltac:(lia)) as Dc.
        assert (Ey' : y' = oy * Fh + (Fh - 1)) by nia.
        assert (Ec' : col = ox * Fh + (Fh - 1)) by nia.
        apply E. unfold T, P. congruence. }
      destruct (y' mod Fh =? Fh - 1), (col mod Fh =? Fh - 1);
        cbn [andb] in Hneq |- *; try rewrite Hneq; apply IY; lia.
Qed.

Lemma outer_pool_map_invariant (st : MaxPool.State V) :
  MaxPool.invariant vmax min_value s X b c oy ox 0 st ->
  MaxPool.invariant vmax min_value s X b c oy ox
    (MaxPool.stream_position s (MaxPool.batch_size s) 0 0 0)
    (MaxPool.outer_pool_map vmax min_value s X st).
Proof.
  intros I0.
  set (vec := MaxPool.vec_width s) in *.
  set (Wv := MaxPool.input_size_width s) in *.
  set (H := MaxPool.input_size_height s) in *.
  set (C := MaxPool.num_channels s) in *.
  assert (HWv : 1 <= Wv) by nia.
  assert (HH : 1 <= H) by nia.
  unfold MaxPool.outer_pool_map.
  apply (fold_left_range_inv _
           (fun k st' => MaxPool.invariant vmax min_value s X b c oy ox
                           (MaxPool.stream_position s k 0 0 0) st'));
    [lia | exact I0 |].
  intros k st1 Hk I1.
  replace (MaxPool.stream_position s (k + 1) 0 0 0)
    with (MaxPool.stream_position s k C 0 0)
    by (unfold MaxPool.stream_position; fold C; ring).
  apply (fold_left_range_inv _
           (fun j st' => MaxPool.invariant vmax min_value s X b c oy ox
                           (MaxPool.stream_position s k j 0 0) st'));
    [lia | exact I1 |].
  intros j st2 Hj I2.
  replace (MaxPool.stream_position s k (j + 1) 0 0)
    with (MaxPool.stream_position s k j H 0)
    by (unfold MaxPool.stream_position; fold H; ring).
  apply (fold_left_range_inv _
           (fun y st' => MaxPool.invariant vmax min_value s X b c oy ox
                           (MaxPool.stream_position s k j y 0) st'));
    [lia | exact I2 |].
  intros y st3 Hy I3.
  replace (MaxPool.stream_position s k j (y + 1) 0)
    with (MaxPool.stream_position s k j y (Wv * vec))
    by (unfold MaxPool.stream_position; fold Wv vec; ring).
  apply (fold_left_range_inv _
           (fun x st' => MaxPool.invariant vmax min_value s X b c oy ox
                           (MaxPool.stream_position s k j y (x * vec)) st'));
    [lia | exact I3 |].
  intros x st4 Hx I4.
  replace (MaxPool.stream_position s k j y ((x + 1) * vec))
    with (MaxPool.stream_position s k j y (x * vec + vec))
    by (unfold MaxPool.stream_position; ring).
  unfold MaxPool.vect_pool_map.
  apply (fold_left_range_inv _
           (fun w st' => MaxPool.invariant vmax min_value s X b c oy ox
                           (MaxPool.stream_position s k j y (x * vec + w)) st'));
    [lia | |].
  - replace (x * vec + 0) with (x * vec) by ring. exact I4.
  - intros w st5 Hw I5.
    replace (MaxPool.stream_position s k j y (x * vec + (w + 1)))
      with (MaxPool.stream_position s k j y (x * vec + w) + 1)
      by (unfold MaxPool.stream_position; ring).
    apply pool_step_invariant; assumption.
Qed.

End MaxPoolWindow.

(** For a square kernel and an unvectorized output, running the maps of
    MaxPool from a shift register of the declared size with any content
    leaves in every output pixel whose window lies inside the image the
    maximum of the elements of that window, reduced from the least value
    of the element type in row-major order.  The windows are the disjoint
    F x F blocks of the image: nothing of the initial content of the
    register, of a neighbouring row or of another channel reaches the
    output. *)
Theorem maxpool_square_window_maximum {V : Type} (vmax : V -> V -> V)
    (min_value : V) (s : MaxPool.Sizes) (X : address -> Z -> V)
    (st : MaxPool.State V) (b c oy ox : Z) :
  MaxPool.filter_width s = MaxPool.filter_height s ->
  1 <= MaxPool.filter_height s -> 1 <= MaxPool.vec_width s ->
  MaxPool.veclen_Y s = 1 ->
  length (MaxPool.shift_register st) = Z.to_nat (MaxPool.shift_register_size s) ->
  0 <= b < MaxPool.batch_size s -> 0 <= c < MaxPool.num_channels s ->
  0 <= oy -> (oy + 1) * MaxPool.filter_height s <= MaxPool.input_size_height s ->
  0 <= ox ->
  (ox + 1) * MaxPool.filter_width s
  <= MaxPool.input_size_width s * MaxPool.vec_width s ->
  MaxPool.Y (MaxPool.outer_pool_map vmax min_value s X st) (b, c, oy, ox)
  = MaxPool.window_max vmax min_value s X b c
      (oy * MaxPool.filter_height s) (ox * MaxPool.filter_width s).
Proof.
  intros Hsq HF Hvec HY HL Hb Hc Hoy1 Hoy2 Hox1 Hox2.
  assert (HFw : 1 <= MaxPool.filter_width s) by lia.
  assert (Hty : 0 <= oy * MaxPool.filter_height s + (MaxPool.filter_height s - 1)
                < MaxPool.input_size_height s) by nia.
  assert (Htx : 0 <= ox * MaxPool.filter_width s + (MaxPool.filter_width s - 1)
                < MaxPool.input_size_width s * MaxPool.vec_width s) by nia.
  pose proof (stream_position_bounds s b c _ _ Hb Hc Hty Htx) as HT.
  assert (I0 : MaxPool.invariant vmax min_value s X b c oy ox 0 st).
  { split; [exact HL|]. split.
    - intros b' c' y' col' Hb' Hc' Hy' Hcol' Hpos.
      pose proof (stream_position_bounds s b' c' y' col' Hb' Hc' Hy' Hcol').
      assert (1 <= MaxPool.shift_register_size s)
        by (unfold MaxPool.shift_register_size; nia).
      lia.
    - intros Hlt. lia. }
  destruct (outer_pool_map_invariant vmax min_value s X HF HFw Hsq Hvec HY
              b c oy ox Hb Hc (conj Hoy1 Hoy2) (conj Hox1 Hox2) st I0)
    as (_ & _ & IY).
  apply IY. lia.
Qed.

Lemma maxpool_square_window_maximum_witness :
  MaxPool.Y
    (MaxPool.outer_pool_map Z.max (-1000) pool_sizes_2x2 pool_image
       stale_pool_state) (0, 1, 1, 1)
  = MaxPool.window_max Z.max (-1000) pool_sizes_2x2 pool_image 0 1 2 2.
Proof.
  apply (maxpool_square_window_maximum Z.max (-1000) pool_sizes_2x2 pool_image
           stale_pool_state 0 1 1 1);
    [reflexivity | cbn; lia | cbn; lia | reflexivity | reflexivity
    | cbn; lia | cbn; lia | lia | cbn; lia | lia | cbn; lia].
Defined.
